(** * Lead discovery and qualification pipeline

    A shallow embedding of the three variants of the scraper
    ([index.js], [index2.js] and the third, unnamed variant, called
    [Part000] here) and the properties of its deduplication cache, its
    paginated search client, its qualification filters and its sweep grid.

    JavaScript values are modelled as the code uses them: an optional
    string property is an [option string] with JavaScript truthiness, a
    review count an [option Z], a rating an [option Q] (every finite double
    is a rational and [<] on doubles is [<] on rationals), a coordinate a
    pair of binary64 floats.  The external services (Places, Sheets,
    Airtable, plain HTTP) are an environment of reply functions indexed by
    the number of requests made so far, so that a service may answer the
    same request differently at different times.  The state carries the
    module-level [existingPlaceIds] set, the rows appended to the sheet, the
    records created in the table and the trace of requests.  Console output
    and the 2000 ms pause between pages are not modelled. *)

From Stdlib Require Import ZArith QArith Floats SpecFloat List String Ascii
  Bool Lia.
From stdpp Require Import base gmap sets list strings.

Close Scope Q_scope.
Open Scope string_scope.
Open Scope list_scope.
Open Scope nat_scope.

#[local] Set Warnings "-inexact-float,-clear-no-such-hyp".

(** ** JavaScript values *)

(** A property that holds a string or is absent ([undefined]). *)
Definition JsStr : Type := option string.

(** Truthiness: [undefined] and the empty string are falsy. *)
Definition truthy (v : JsStr) : bool :=
  match v with
  | Some s => negb (String.eqb s EmptyString)
  | None => false
  end.

(** [a || b] *)
Definition js_or (a b : JsStr) : JsStr := if truthy a then a else b.

(** [`${v}`] inside a template literal. *)
Definition interp (v : JsStr) : string :=
  match v with
  | Some s => s
  | None => "undefined"
  end.

(** [a === "lit"] *)
Definition js_is (a : JsStr) (lit : string) : bool :=
  match a with
  | Some s => String.eqb s lit
  | None => false
  end.

(** [url.includes(p)] *)
Definition includes (url p : string) : bool :=
  match String.index 0 p url with
  | Some _ => true
  | None => false
  end.

(** [url.startsWith(p)] *)
Definition startsWith (url p : string) : bool := String.prefix p url.

(** [a < b] on finite numbers. *)
Definition Qltb (a b : Q) : bool := negb (Qle_bool b a).

(** ** Data model *)

(** A coordinate: the pair that [coord.split(",").map(Number)] yields and
    that [`${lat},${lng}`] renders. *)
Definition Coordinate : Type := (float * float)%type.

Record City := { city_name : string; coords : Coordinate }.

(** A search hit. *)
Record Place := {
  place_id : JsStr;
  place_name : JsStr;
  place_formatted_address : JsStr
}.

(** The [result] object of the details service; every field may be absent. *)
Record Details := {
  name : JsStr;
  formatted_address : JsStr;
  website : JsStr;
  formatted_phone_number : JsStr;
  user_ratings_total : option Z;
  rating : option Q;
  business_status : JsStr
}.

(** [{}] *)
Definition noDetails : Details :=
  {| name := None; formatted_address := None; website := None;
     formatted_phone_number := None; user_ratings_total := None;
     rating := None; business_status := None |}.

(** A row of the 'Search Log' sheet: columns A to D. *)
Record Row := {
  row_businessName : JsStr;
  row_address : JsStr;
  row_date : string;
  row_placeId : JsStr
}.

(** The object handed to [addToAirtable]. *)
Record Lead := {
  leadName : JsStr;
  contactProfileURL : JsStr;
  businessName : JsStr;
  businessURL : JsStr;
  cityState : JsStr;
  phone : JsStr;
  websiteQuality : JsStr
}.

(** The [fields] object of a created record, as the literal lists it. *)
Definition Fields : Type := list (string * JsStr).

(** ** The external services *)

Record SearchQuery := {
  q_query : string;
  q_location : Coordinate;
  q_radius : option Z;
  q_pagetoken : JsStr
}.

Record SearchReply := {
  results : option (list Place);
  next_page_token : JsStr;
  error_message : JsStr
}.

Record DetailsReply := {
  result : option Details;
  details_error_message : JsStr
}.

(** [res.data] of a plain page fetch: its truthiness and its [length]. *)
Record HttpData := { data_truthy : bool; data_length : option Z }.

(** Each service answers the request it is given at time [n] (the number
    of requests made before it); [inl msg] is a rejected promise. *)
Record Env := {
  sheets_values_get : nat -> string + option (list (list string));
  sheets_values_append : nat -> Row -> string + unit;
  airtable_firstPage : nat -> string -> string + nat;
  airtable_create : nat -> Fields -> string + unit;
  places_details : nat -> JsStr -> string + DetailsReply;
  places_textsearch : nat -> SearchQuery -> string + SearchReply;
  http_get : nat -> string -> string + HttpData;
  today : nat -> string
}.

(** What the process did to the outside, in order.  [Forward] marks the
    hand-over of a lead, built for the given place id, to [addToAirtable]. *)
Inductive Call :=
| SheetsGet
| SheetsAppend (row : Row) (reply : string + unit)
| AirtableSelect (formula : string)
| AirtableCreate (fields : Fields) (reply : string + unit)
| PlaceDetails (placeId : JsStr)
| TextSearch (q : SearchQuery) (reply : string + SearchReply)
| HttpGet (url : string)
| Forward (placeId : JsStr) (data : Lead).

Record State := {
  existingPlaceIds : gset JsStr;
  searchLog : list Row;
  airtable : list Fields;
  calls : list Call
}.

Definition initial : State :=
  {| existingPlaceIds := ∅; searchLog := []; airtable := []; calls := [] |}.

(** ** The monad of the pipeline: environment, state, exceptions, fuel *)

Inductive Outcome (A : Type) :=
| Ok (a : A)
| Throw (msg : string)
| OutOfFuel.
Arguments Ok {A} a.
Arguments Throw {A} msg.
Arguments OutOfFuel {A}.

Definition M (A : Type) : Type := Env -> State -> Outcome A * State.

Definition ret {A} (a : A) : M A := fun _ s => (Ok a, s).

Definition bind {A B} (m : M A) (k : A -> M B) : M B :=
  fun env s =>
    match m env s with
    | (Ok a, s') => k a env s'
    | (Throw msg, s') => (Throw msg, s')
    | (OutOfFuel, s') => (OutOfFuel, s')
    end.

Definition throw {A} (msg : string) : M A := fun _ s => (Throw msg, s).

Definition outOfFuel {A} : M A := fun _ s => (OutOfFuel, s).

(** [try { m } catch (err) { h err.message }] *)
Definition try_catch {A} (m : M A) (h : string -> M A) : M A :=
  fun env s =>
    match m env s with
    | (Throw msg, s') => h msg env s'
    | r => r
    end.

Declare Scope pipeline_scope.
Delimit Scope pipeline_scope with pipeline.
Notation "x <- m ;; k" := (bind m (fun x => k))
  (at level 100, m at next level, right associativity) : pipeline_scope.
Notation "m ;;; k" := (bind m (fun _ => k))
  (at level 100, right associativity) : pipeline_scope.
Open Scope pipeline_scope.

(** [await p] for a promise that rejects with [msg] or resolves with [a]. *)
Definition await {A} (p : string + A) : M A :=
  match p with
  | inl msg => throw msg
  | inr a => ret a
  end.

(** The trace grows by one entry. *)
Definition record_call (c : Call) (s : State) : State :=
  {| existingPlaceIds := existingPlaceIds s; searchLog := searchLog s;
     airtable := airtable s; calls := calls s ++ [c] |}.

(** Performs one request: the service's reply at the current time, what
    the request does to the outside, and the request recorded. *)
Definition request {A} (reply : Env -> nat -> A) (record : A -> Call)
    (effect : A -> State -> State) : M A :=
  fun env s =>
    let r := reply env (length (calls s)) in
    (Ok r, record_call (record r) (effect r s)).

Definition no_effect {A} (_ : A) (s : State) : State := s.

Definition emit (c : Call) : M unit :=
  fun _ s => (Ok tt, record_call c s).

(** [for (const x of xs) body] *)
Fixpoint for_of {A} (xs : list A) (body : A -> M unit) : M unit :=
  match xs with
  | [] => ret tt
  | x :: rest => body x ;;; for_of rest body
  end.

(** ** The three variants *)

Inductive Variant := Index | Index2 | Part000.

Definition NEW_RESULTS_LIMIT (v : Variant) : nat :=
  match v with
  | Index => 20
  | Index2 => 20
  | Part000 => 5
  end.

Definition MIN_RATING : Q := 3 # 1.

Definition keywords (v : Variant) : list string :=
  match v with
  | Index =>
      ["medical spa"; "med spa"; "medical aesthetics"; "aesthetic clinic";
       "cosmetic dermatology"; "laser clinic"; "injectables clinic";
       "skin clinic"]
  | Index2 | Part000 => ["med spa"; "aesthetic clinic"; "laser hair removal"]
  end.

(** ** The deduplication cache and the search log *)

Definition set_existingPlaceIds (ids : gset JsStr) : M unit :=
  fun _ s =>
    (Ok tt,
     {| existingPlaceIds := ids; searchLog := searchLog s;
        airtable := airtable s; calls := calls s |}).

(** [res.data.values ? res.data.values.flat() : []], then
    [new Set(placeIds.filter(Boolean))]. *)
Definition placeIds_of (values : option (list (list string))) : gset JsStr :=
  let placeIds := match values with
                  | Some rows => concat rows
                  | None => []
                  end in
  list_to_set (filter (fun v => truthy v = true) (map Some placeIds)).

Definition loadExistingBusinesses (v : Variant) : M unit :=
  try_catch
    (r <- request (fun env n => sheets_values_get env n) (fun _ => SheetsGet)
            no_effect ;;
     values <- await r ;;
     set_existingPlaceIds (placeIds_of values))
    (fun _ =>
       match v with
       | Part000 => set_existingPlaceIds ∅
       | Index | Index2 => ret tt
       end).

Definition isLoggedInSearchLogCached (placeId : JsStr) : M bool :=
  fun _ s => (Ok (bool_decide (placeId ∈ existingPlaceIds s)), s).

(** [existingPlaceIds.add(placeId)] *)
Definition add_existingPlaceId (placeId : JsStr) : M unit :=
  fun _ s =>
    (Ok tt,
     {| existingPlaceIds := {[placeId]} ∪ existingPlaceIds s;
        searchLog := searchLog s; airtable := airtable s;
        calls := calls s |}).

(** [new Date().toISOString().split("T")[0]] *)
Definition isoDate : M string :=
  fun env s => (Ok (today env (length (calls s))), s).

(** The row reaches the sheet exactly when the append resolves. *)
Definition append_row (row : Row) (r : string + unit) (s : State) : State :=
  match r with
  | inr _ =>
      {| existingPlaceIds := existingPlaceIds s;
         searchLog := searchLog s ++ [row];
         airtable := airtable s; calls := calls s |}
  | inl _ => s
  end.

(** The same in the three variants. *)
Definition logBusinessSearch (businessName address placeId : JsStr)
    : M unit :=
  try_catch
    (cached <- isLoggedInSearchLogCached placeId ;;
     if cached then ret tt
     else
       date <- isoDate ;;
       let row := {| row_businessName := businessName;
                     row_address := address;
                     row_date := date;
                     row_placeId := placeId |} in
       r <- request (fun env n => sheets_values_append env n row)
              (SheetsAppend row) (append_row row) ;;
       await r ;;;
       add_existingPlaceId placeId)
    (fun _ => ret tt).

(** ** The record store *)

Definition quote : string := String "034"%char EmptyString.

Definition isDuplicate (businessName : JsStr) : M bool :=
  try_catch
    (let formula :=
       ("{Business Name} = " ++ quote ++ interp businessName ++ quote)%string
     in
     r <- request (fun env n => airtable_firstPage env n formula)
            (fun _ => AirtableSelect formula) no_effect ;;
     records_length <- await r ;;
     ret (0 <? records_length))
    (fun _ => ret false).

Definition fields_of (v : Variant) (data : Lead) : Fields :=
  [("Lead Name", js_or (leadName data) (Some EmptyString));
   ("Contact Profile URL", js_or (contactProfileURL data) (Some EmptyString));
   ("Platform", Some "Google Maps");
   ("Business Name", businessName data);
   ("Business URL", businessURL data);
   ("City/State", cityState data);
   ("Business Number", js_or (phone data) (Some EmptyString))]
  ++ match v with
     | Part000 => []
     | Index | Index2 => [("Quality of Website", websiteQuality data)]
     end.

Definition create_record (fields : Fields) (r : string + unit) (s : State)
    : State :=
  match r with
  | inr _ =>
      {| existingPlaceIds := existingPlaceIds s; searchLog := searchLog s;
         airtable := airtable s ++ [fields]; calls := calls s |}
  | inl _ => s
  end.

Definition addToAirtable (v : Variant) (data : Lead) : M unit :=
  try_catch
    (dup <- isDuplicate (businessName data) ;;
     if dup then ret tt
     else
       let fields := fields_of v data in
       r <- request (fun env n => airtable_create env n fields)
              (AirtableCreate fields) (create_record fields) ;;
       await r)
    (fun _ => ret tt).

(** ** The Places services *)

Definition getPlaceDetails (v : Variant) (placeId : JsStr) : M Details :=
  try_catch
    (r <- request (fun env n => places_details env n placeId)
            (fun _ => PlaceDetails placeId) no_effect ;;
     res <- await r ;;
     match v with
     | Part000 =>
         if truthy (details_error_message res)
         then throw (interp (details_error_message res))
         else ret (default noDetails (result res))
     | Index | Index2 => ret (default noDetails (result res))
     end)
    (fun _ => ret noDetails).

(** [radius=5000] in [index.js] and in the only call of the third
    variant, [rankby=distance] in [index2.js]. *)
Definition radius_of (v : Variant) : option Z :=
  match v with
  | Index | Part000 => Some 5000%Z
  | Index2 => None
  end.

(** The [do ... while] loop of [searchPlaces]; [fuel] bounds the number
    of pages requested. *)
Fixpoint searchPlaces_loop (v : Variant) (fuel : nat) (query : string)
    (location : Coordinate) (maxResults : nat) (allResults : list Place)
    (nextPageToken : JsStr) : M (list Place) :=
  match fuel with
  | O => outOfFuel
  | S fuel' =>
      let q := {| q_query := query; q_location := location;
                  q_radius := radius_of v;
                  q_pagetoken := if truthy nextPageToken
                                 then nextPageToken else None |} in
      r <- request (fun env n => places_textsearch env n q) (TextSearch q)
             no_effect ;;
      res <- await r ;;
      if match v with
         | Part000 => truthy (error_message res)
         | Index | Index2 => false
         end
      then throw (interp (error_message res))
      else
        let allResults := allResults ++ default [] (results res) in
        let nextPageToken := next_page_token res in
        if truthy nextPageToken && (length allResults <? maxResults)
        then searchPlaces_loop v fuel' query location maxResults allResults
               nextPageToken
        else ret (take maxResults allResults)
  end.

Definition searchPlaces (v : Variant) (fuel : nat) (query : string)
    (location : Coordinate) (maxResults : nat) : M (list Place) :=
  searchPlaces_loop v fuel query location maxResults [] None.

(** ** Website quality *)

(** [index.js] *)
Definition evaluateWebsiteQuality_index (url : JsStr) : string :=
  match url with
  | Some u =>
      if negb (truthy url) then "No Website"
      else if includes u "linktr.ee" || includes u "joinblvd.com"
              || includes u "square.site" || includes u "facebook.com"
      then "Poor"
      else "Decent"
  | None => "No Website"
  end.

(** [index2.js] *)
Definition evaluateWebsiteQuality_index2 (url : JsStr) : string :=
  match url with
  | Some u =>
      if negb (truthy url) then "No Website"
      else if includes u "facebook.com" || includes u "instagram.com"
      then "No Website"
      else "Has Website"
  | None => "No Website"
  end.

Definition freePlatforms : list string :=
  ["wixsite.com"; "weebly.com"; "wordpress.com"].

(** The third variant: the only filter that looks at the network. *)
Definition isWebsiteLowBudget (url : JsStr) : M bool :=
  try_catch
    (match url with
     | Some u =>
         if negb (truthy url) then ret true
         else if negb (startsWith u "https://") then ret true
         else if existsb (fun p => includes u p) freePlatforms then ret true
         else
           r <- request (fun env n => http_get env n u) (fun _ => HttpGet u)
                  no_effect ;;
           res <- await r ;;
           if negb (data_truthy res)
              || match data_length res with
                 | Some n => (n <? 2000)%Z
                 | None => false
                 end
           then ret true
           else ret false
     | None => ret true
     end)
    (fun _ => ret true).

(** ** The sweep grid *)

Definition searchGridOffset : float := 0.03%float.

(** The argument is the pair [[lat, lng]] that [coord.split(",").map(Number)]
    yields, each result the pair that its template literal renders. *)
Definition generateCityGrid (coord : Coordinate) : list Coordinate :=
  let '(lat, lng) := coord in
  [ (lat, lng);
    ((lat + searchGridOffset)%float, lng);
    ((lat - searchGridOffset)%float, lng);
    (lat, (lng + searchGridOffset)%float);
    (lat, (lng - searchGridOffset)%float) ].

(** ** Qualification *)

Definition MIN_REVIEWS (v : Variant) : Z :=
  match v with
  | Index => 5
  | Index2 => 20
  | Part000 => 5
  end.

(** [details.business_status && details.business_status !== "OPERATIONAL"] *)
Definition not_operational (d : Details) : bool :=
  truthy (business_status d) && negb (js_is (business_status d) "OPERATIONAL").

(** [index.js]: the three filters, each a [continue] when it fails. *)
Definition activity_rule_index (d : Details) : bool :=
  js_is (business_status d) "OPERATIONAL".

Definition contactability_rule_index (d : Details) : bool :=
  truthy (js_or (website d) (formatted_phone_number d)).

Definition popularity_rule_index (d : Details) : bool :=
  negb (default 0 (user_ratings_total d) <? MIN_REVIEWS Index)%Z.

(** [index2.js]: [(details.user_ratings_total ?? 0) < MIN_REVIEWS] and
    [(details.rating ?? 5) < MIN_RATING]. *)
Definition few_reviews_index2 (d : Details) : bool :=
  (default 0 (user_ratings_total d) <? MIN_REVIEWS Index2)%Z.

Definition low_rating_index2 (d : Details) : bool :=
  Qltb (default (5 # 1)%Q (rating d)) MIN_RATING.

(** The decision of [index2.js] and the class it reports. *)
Definition qualify_index2 (d : Details) : bool * string :=
  let websiteQuality := evaluateWebsiteQuality_index2 (website d) in
  let addToMainTable := String.eqb websiteQuality "No Website" in
  let addToMainTable :=
    if addToMainTable
       && (not_operational d || few_reviews_index2 d || low_rating_index2 d)
    then false
    else addToMainTable in
  (addToMainTable, websiteQuality).

(** The third variant: [user_ratings_total === undefined || ... < MIN_REVIEWS]
    and [rating !== undefined && rating < MIN_RATING]. *)
Definition few_reviews_part000 (d : Details) : bool :=
  match user_ratings_total d with
  | None => true
  | Some n => (n <? MIN_REVIEWS Part000)%Z
  end.

Definition low_rating_part000 (d : Details) : bool :=
  match rating d with
  | None => false
  | Some r => Qltb r MIN_RATING
  end.

(** The second [if] of the third variant, given the website verdict. *)
Definition screen_part000 (addToMainTable : bool) (d : Details) : bool :=
  if addToMainTable
     && (not_operational d || few_reviews_part000 d || low_rating_part000 d)
  then false
  else addToMainTable.

Definition qualify_part000 (d : Details) : M bool :=
  addToMainTable <-
    (if negb (truthy (website d)) then ret true
     else
       low <- isWebsiteLowBudget (website d) ;;
       if low then ret true else ret false) ;;
  ret (screen_part000 addToMainTable d).

(** ** The orchestrator *)

Definition profileURL (placeId : JsStr) : string :=
  ("https://www.google.com/maps/place/?q=place_id:" ++ interp placeId)%string.

Definition lead_of (placeId businessName address : JsStr) (d : Details)
    (websiteQuality : JsStr) : Lead :=
  {| leadName := Some EmptyString;
     contactProfileURL := Some (profileURL placeId);
     businessName := businessName;
     businessURL := js_or (website d) (Some EmptyString);
     cityState := address;
     phone := js_or (formatted_phone_number d) (Some EmptyString);
     websiteQuality := websiteQuality |}.

(** The body of the innermost loop; the result is [newCount] after it. *)
Definition processPlace_index (place : Place) (newCount : nat) : M nat :=
  details <- getPlaceDetails Index (place_id place) ;;
  let businessName := js_or (name details) (place_name place) in
  let address := js_or (formatted_address details) (Some EmptyString) in
  let placeId := place_id place in
  if negb (truthy businessName) || negb (truthy address)
     || negb (truthy placeId)
  then ret newCount
  else
    cached <- isLoggedInSearchLogCached placeId ;;
    if cached then ret newCount
    else if negb (activity_rule_index details) then ret newCount
    else if negb (contactability_rule_index details) then ret newCount
    else if negb (popularity_rule_index details) then ret newCount
    else
      let websiteQuality := evaluateWebsiteQuality_index (website details) in
      let data := lead_of placeId businessName address details
                    (Some websiteQuality) in
      emit (Forward placeId data) ;;;
      addToAirtable Index data ;;;
      logBusinessSearch businessName address placeId ;;;
      ret (S newCount).

Definition processPlace_index2 (place : Place) (newCount : nat) : M nat :=
  details <- getPlaceDetails Index2 (place_id place) ;;
  let businessName :=
    js_or (js_or (name details) (place_name place)) (Some "Unknown") in
  let address := js_or (formatted_address details) (Some EmptyString) in
  let placeId := place_id place in
  cached <- isLoggedInSearchLogCached placeId ;;
  if cached then ret newCount
  else
    let '(addToMainTable, websiteQuality) := qualify_index2 details in
    newCount <-
      (if addToMainTable
       then
         let data := lead_of placeId businessName address details
                       (Some websiteQuality) in
         emit (Forward placeId data) ;;;
         addToAirtable Index2 data ;;;
         ret (S newCount)
       else ret newCount) ;;
    logBusinessSearch businessName address placeId ;;;
    ret newCount.

Definition processPlace_part000 (place : Place) (newCount : nat) : M nat :=
  details <- getPlaceDetails Part000 (place_id place) ;;
  let businessName :=
    js_or (js_or (name details) (place_name place)) (Some "Unknown") in
  let address :=
    js_or (js_or (formatted_address details) (place_formatted_address place))
      (Some EmptyString) in
  let placeId := place_id place in
  cached <- isLoggedInSearchLogCached placeId ;;
  if cached then ret newCount
  else
    addToMainTable <- qualify_part000 details ;;
    newCount <-
      (if addToMainTable
       then
         let data := lead_of placeId businessName address details None in
         emit (Forward placeId data) ;;;
         addToAirtable Part000 data ;;;
         ret (S newCount)
       else ret newCount) ;;
    logBusinessSearch businessName address placeId ;;;
    ret newCount.

Definition processPlace (v : Variant) : Place -> nat -> M nat :=
  match v with
  | Index => processPlace_index
  | Index2 => processPlace_index2
  | Part000 => processPlace_part000
  end.

(** [for (const place of results)] with its [break] on the bucket cap. *)
Fixpoint bucket (v : Variant) (results : list Place) (newCount : nat)
    : M nat :=
  match results with
  | [] => ret newCount
  | place :: rest =>
      if NEW_RESULTS_LIMIT v <=? newCount then ret newCount
      else
        newCount <- processPlace v place newCount ;;
        bucket v rest newCount
  end.

Definition sweep (v : Variant) (fuel : nat) (keyword : string)
    (point : Coordinate) : M unit :=
  results <- searchPlaces v fuel keyword point 60 ;;
  bucket v results 0 ;;;
  ret tt.

(** The main function; [cities] is the list that [./cities] exports. *)
Definition main (v : Variant) (fuel : nat) (cities : list City) : M unit :=
  match v with
  | Index | Index2 =>
      loadExistingBusinesses v ;;;
      for_of cities (fun city =>
        let points := generateCityGrid (coords city) in
        for_of points (fun point =>
          for_of (keywords v) (fun keyword => sweep v fuel keyword point)))
  | Part000 =>
      try_catch
        (loadExistingBusinesses v ;;;
         for_of cities (fun city =>
           for_of (keywords v) (fun keyword =>
             sweep v fuel keyword (coords city))))
        (fun _ => ret tt)
  end.

(** A run of the process from its start. *)
Definition run (v : Variant) (env : Env) (fuel : nat) (cities : list City)
    : Outcome unit * State :=
  main v fuel cities env initial.

(** * The vocabulary of the properties *)

(** ** Coordinates and ratings *)

(** Equality of two coordinates as numbers, which is also equality of
    their renderings [`${lat},${lng}`] when no component is [NaN]. *)
Definition same_coordinate (a b : Coordinate) : bool :=
  (fst a =? fst b)%float && (snd a =? snd b)%float.

Fixpoint distinct_coordinates (l : list Coordinate) : bool :=
  match l with
  | [] => true
  | c :: rest =>
      forallb (fun c' => negb (same_coordinate c c')) rest
      && distinct_coordinates rest
  end.

(** Both components of the coordinate string were numbers. *)
Definition parseable (c : Coordinate) : bool :=
  negb (is_nan (fst c)) && negb (is_nan (snd c)).

(** Adding and subtracting the offset gives three different doubles. *)
Definition offset_moves (x : float) : bool :=
  negb (x =? x + searchGridOffset)%float
  && negb (x =? x - searchGridOffset)%float
  && negb (x + searchGridOffset =? x - searchGridOffset)%float.

(** A double of magnitude at most 180: every latitude and longitude. *)
Definition geographic (x : float) : bool := (abs x <=? 180)%float.

(** The value of a finite double as an integer multiple of [2 ^ -1074],
    the smallest positive double. *)
Definition scaled (f : spec_float) : Z :=
  match f with
  | S754_finite s m e => cond_Zopp s (Zpos m * 2 ^ (e + 1074))%Z
  | _ => 0%Z
  end.

(** The mantissa of the double nearest to 0.03, whose exponent is -58. *)
Definition offset_mantissa : positive := 8646911284551352.

(** The rating is present and strictly below the floor. *)
Definition rating_below_floor (d : Details) : Prop :=
  exists r, rating d = Some r /\ (r < MIN_RATING)%Q.

(** ** What one step does to the state *)

(** The record that [getPlaceDetails] returns for the reply of time [n]. *)
Definition details_at (v : Variant) (env : Env) (n : nat) (placeId : JsStr)
    : Details :=
  match places_details env n placeId with
  | inl _ => noDetails
  | inr res =>
      match v with
      | Part000 =>
          if truthy (details_error_message res) then noDetails
          else default noDetails (result res)
      | Index | Index2 => default noDetails (result res)
      end
  end.

(** The row that [logBusinessSearch] writes from state [s]. *)
Definition row_at (env : Env) (s : State) (businessName address placeId : JsStr)
    : Row :=
  {| row_businessName := businessName; row_address := address;
     row_date := today env (length (calls s)); row_placeId := placeId |}.

(** The state after an append that resolved. *)
Definition logged (row : Row) (reply : string + unit) (s : State) : State :=
  {| existingPlaceIds := {[row_placeId row]} ∪ existingPlaceIds s;
     searchLog := searchLog s ++ [row];
     airtable := airtable s;
     calls := calls s ++ [SheetsAppend row reply] |}.

(** Requests that touch neither the cache nor the search log. *)
Definition benign (c : Call) : bool :=
  match c with
  | SheetsAppend _ _ | Forward _ _ => false
  | _ => true
  end.

(** From [s] to [s']: benign requests only. *)
Definition quiet (s s' : State) : Prop :=
  existingPlaceIds s' = existingPlaceIds s
  /\ searchLog s' = searchLog s
  /\ exists evs, calls s' = calls s ++ evs /\ forallb benign evs = true.

Definition quietly {A} (m : M A) : Prop :=
  forall env s, quiet s (snd (m env s)).

(** ** One search hit *)

(** The name and the address that the body computes for a hit. *)
Definition businessName_of (v : Variant) (d : Details) (place : Place)
    : JsStr :=
  match v with
  | Index => js_or (name d) (place_name place)
  | Index2 | Part000 =>
      js_or (js_or (name d) (place_name place)) (Some "Unknown")
  end.

Definition address_of (v : Variant) (d : Details) (place : Place) : JsStr :=
  match v with
  | Index | Index2 => js_or (formatted_address d) (Some EmptyString)
  | Part000 =>
      js_or (js_or (formatted_address d) (place_formatted_address place))
        (Some EmptyString)
  end.

(** The hit has a name, an address and a place id ([index.js] skips it
    otherwise). *)
Definition complete_index (d : Details) (place : Place) : bool :=
  truthy (businessName_of Index d place)
  && truthy (address_of Index d place)
  && truthy (place_id place).

(** The three filters of [index.js] together. *)
Definition admit_index (d : Details) : bool :=
  activity_rule_index d && contactability_rule_index d
  && popularity_rule_index d.

(** Between the cache test and the append, the body for [placeId] makes
    benign requests and may forward a lead for [placeId]. *)
Definition calm (placeId : JsStr) (c : Call) : bool :=
  match c with
  | SheetsAppend _ _ => false
  | Forward p _ => bool_decide (p = placeId)
  | _ => true
  end.

Definition is_forward (c : Call) : bool :=
  match c with
  | Forward _ _ => true
  | _ => false
  end.

(** The number of calls of a kind in a trace. *)
Definition count (kind : Call -> bool) (tr : list Call) : nat :=
  length (List.filter kind tr).

(** From [s] to [s']: calm steps with at most one hand-over, then one
    append of a row for [placeId]; the row is in the log and the id in the
    cache exactly when the append resolved. *)
Definition logs_once (placeId : JsStr) (s s' : State) : Prop :=
  exists evs row reply,
    calls s' = calls s ++ evs ++ [SheetsAppend row reply]
    /\ forallb (calm placeId) evs = true
    /\ count is_forward evs <= 1
    /\ row_placeId row = placeId
    /\ match reply with
       | inr _ =>
           existingPlaceIds s' = {[placeId]} ∪ existingPlaceIds s
           /\ searchLog s' = searchLog s ++ [row]
       | inl _ =>
           existingPlaceIds s' = existingPlaceIds s
           /\ searchLog s' = searchLog s
       end.

(** The end of the body in [index2.js] and in the third variant: the
    hand-over when the hit is admitted, then the log, whatever the
    decision was. *)
Definition forward_and_log (v : Variant) (placeId businessName address : JsStr)
    (data : Lead) (addToMainTable : bool) (newCount : nat) : M nat :=
  newCount <-
    (if addToMainTable
     then
       emit (Forward placeId data) ;;;
       addToAirtable v data ;;;
       ret (S newCount)
     else ret newCount) ;;
  logBusinessSearch businessName address placeId ;;;
  ret newCount.

(** The events of [s'] that [s] did not have yet. *)
Definition since (s s' : State) : list Call :=
  drop (length (calls s)) (calls s').

(** ** The website rule of the third variant *)

(** What the page at [u] looks like to the filter at time [n]. *)
Definition thin_page (env : Env) (n : nat) (u : string) : bool :=
  match http_get env n u with
  | inl _ => true
  | inr res =>
      negb (data_truthy res)
      || match data_length res with
         | Some k => (k <? 2000)%Z
         | None => false
         end
  end.

(** The answer of [isWebsiteLowBudget] at time [n]. *)
Definition low_budget_at (env : Env) (n : nat) (url : JsStr) : bool :=
  match url with
  | None => true
  | Some u =>
      negb (truthy url) || negb (startsWith u "https://")
      || existsb (fun p => includes u p) freePlatforms
      || thin_page env n u
  end.

(** The website rule of the third variant: no website, or a low-budget
    one. *)
Definition website_rule_part000 (env : Env) (n : nat) (d : Details) : bool :=
  negb (truthy (website d)) || low_budget_at env n (website d).

(** ** Pages of a search *)

(** Only the third variant looks at the error payload. *)
Definition checks_error (v : Variant) : bool :=
  match v with
  | Part000 => true
  | Index | Index2 => false
  end.

(** The request for the page after [nextPageToken]. *)
Definition page_query (v : Variant) (query : string) (location : Coordinate)
    (nextPageToken : JsStr) : SearchQuery :=
  {| q_query := query; q_location := location; q_radius := radius_of v;
     q_pagetoken := if truthy nextPageToken then nextPageToken else None |}.

(** [res.data.results || []] *)
Definition page_results (p : SearchReply) : list Place :=
  default [] (results p).

(** The hits of a sequence of pages, each taken whole. *)
Definition hits_of (pages : list SearchReply) : list Place :=
  concat (map page_results pages).

(** The loop asks for another page exactly when the last one carried a
    token and fewer than [maxResults] hits are there. *)
Definition more (maxResults : nat) (allResults : list Place)
    (p : SearchReply) : bool :=
  truthy (next_page_token p)
  && (length (allResults ++ page_results p) <? maxResults).

(** [pages] is a sequence of pages that the loop fetches from
    [allResults] on: every page but the last called for more, the last did
    not. *)
Fixpoint paged (maxResults : nat) (allResults : list Place)
    (pages : list SearchReply) : Prop :=
  match pages with
  | [] => False
  | p :: rest =>
      match rest with
      | [] => more maxResults allResults p = false
      | _ :: _ =>
          more maxResults allResults p = true
          /\ paged maxResults (allResults ++ page_results p) rest
      end
  end.

Definition page_request (qp : SearchQuery * SearchReply) : Call :=
  TextSearch (fst qp) (inr (snd qp)).

(** The service is productive when a page that promises more is never
    empty. *)
Definition productive (env : Env) : Prop :=
  forall n q rep,
    places_textsearch env n q = inr rep ->
    truthy (next_page_token rep) = true -> page_results rep <> [].

(** ** The trace of a run *)

(** The rows that reached the sheet, read off the trace. *)
Fixpoint appended (tr : list Call) : list Row :=
  match tr with
  | [] => []
  | SheetsAppend row (inr _) :: rest => row :: appended rest
  | _ :: rest => appended rest
  end.

(** The cache after the trace [tr], when it held [loaded] before: an id
    enters it with each append that resolved. *)
Definition cache_after (loaded : gset JsStr) (tr : list Call) : gset JsStr :=
  loaded ∪ list_to_set (map row_placeId (appended tr)).

(** The hand-overs, the appends and the failed appends for [placeId]. *)
Definition forward_of (placeId : JsStr) (c : Call) : bool :=
  match c with
  | Forward p _ => bool_decide (p = placeId)
  | _ => false
  end.

Definition append_of (placeId : JsStr) (c : Call) : bool :=
  match c with
  | SheetsAppend row _ => bool_decide (row_placeId row = placeId)
  | _ => false
  end.

Definition failed_append_of (placeId : JsStr) (c : Call) : bool :=
  match c with
  | SheetsAppend row (inl _) => bool_decide (row_placeId row = placeId)
  | _ => false
  end.

(** The rows of the log that carry [placeId]. *)
Definition rows_of (placeId : JsStr) (log : list Row) : list Row :=
  List.filter (fun row => bool_decide (row_placeId row = placeId)) log.

(** Every lead is handed over at a moment when its id is not in the
    cache. *)
Fixpoint guarded (seen : gset JsStr) (tr : list Call) : Prop :=
  match tr with
  | [] => True
  | Forward p _ :: rest => (p ∉ seen) /\ guarded seen rest
  | SheetsAppend row (inr _) :: rest =>
      guarded ({[row_placeId row]} ∪ seen) rest
  | _ :: rest => guarded seen rest
  end.

(** The invariant of the loops, for a cache that held [loaded] when they
    started. *)
Record Inv (loaded : gset JsStr) (s : State) : Prop := {
  inv_cache : existingPlaceIds s = cache_after loaded (calls s);
  inv_log : searchLog s = appended (calls s);
  inv_nodup : NoDup (map row_placeId (appended (calls s)));
  inv_fresh : forall row, row ∈ appended (calls s) -> row_placeId row ∉ loaded;
  inv_balance :
    forall p, count (forward_of p) (calls s) <= count (append_of p) (calls s);
  inv_guarded : guarded loaded (calls s)
}.

(** A computation keeps the invariant, however it ends. *)
Definition steady (loaded : gset JsStr) {A} (m : M A) : Prop :=
  forall env s, Inv loaded s -> Inv loaded (snd (m env s)).

(** The state in which the loops start. *)
Definition loaded_state (ids : gset JsStr) : State :=
  {| existingPlaceIds := ids; searchLog := []; airtable := [];
     calls := [SheetsGet] |}.

(** ** Sample data for the examples *)

(** An operational business without website, with [n] reviews and the
    rating [r]. *)
Definition rated (n : Z) (r : option Q) : Details :=
  {| name := Some "Glow Spa"; formatted_address := Some "1 Main St";
     website := None; formatted_phone_number := Some "555-0100";
     user_ratings_total := Some n; rating := r;
     business_status := Some "OPERATIONAL" |}.

(** An operational business with a website of its own, 12 reviews and a
    rating of 4.2. *)
Definition glow_spa : Details :=
  {| name := Some "Glow Spa"; formatted_address := Some "1 Main St";
     website := Some "https://glowspa.example";
     formatted_phone_number := Some "555-0100";
     user_ratings_total := Some 12%Z; rating := Some (42 # 10)%Q;
     business_status := Some "OPERATIONAL" |}.

Definition with_website (url : JsStr) (d : Details) : Details :=
  {| name := name d; formatted_address := formatted_address d;
     website := url; formatted_phone_number := formatted_phone_number d;
     user_ratings_total := user_ratings_total d; rating := rating d;
     business_status := business_status d |}.

Definition with_status (status : JsStr) (d : Details) : Details :=
  {| name := name d; formatted_address := formatted_address d;
     website := website d;
     formatted_phone_number := formatted_phone_number d;
     user_ratings_total := user_ratings_total d; rating := rating d;
     business_status := status |}.

Definition hit (id : string) : Place :=
  {| place_id := Some id; place_name := Some "Glow Spa";
     place_formatted_address := None |}.

(** Services that answer every details request with [d], every search
    with [page n], every append with [append n] and every page fetch with
    [fetch n]; the table is empty and accepts every record. *)
Definition services (d : Details) (page : nat -> string + SearchReply)
    (append : nat -> string + unit) (fetch : nat -> string + HttpData)
    : Env :=
  {| sheets_values_get := fun _ => inr (Some [["seen-1"]; ["seen-2"]]);
     sheets_values_append := fun n _ => append n;
     airtable_firstPage := fun _ _ => inr 0;
     airtable_create := fun _ _ => inr tt;
     places_details :=
       fun _ _ => inr {| result := Some d; details_error_message := None |};
     places_textsearch := fun n _ => page n;
     http_get := fun n _ => fetch n;
     today := fun _ => "2024-05-01" |}.

Definition one_page (places : list Place) (n : nat) : string + SearchReply :=
  inr {| results := Some places; next_page_token := None;
         error_message := None |}.

Definition resolves (n : nat) : string + unit := inr tt.

Definition rejects (n : nat) : string + unit := inl "quota exceeded".

Definition unreachable (n : nat) : string + HttpData := inl "timeout".

(** A state whose cache holds the given ids. *)
Definition having (ids : list string) : State :=
  {| existingPlaceIds := list_to_set (map Some ids); searchLog := [];
     airtable := []; calls := [] |}.

(** The hit is admitted whether its website is of class "No Website",
    "Poor" or "Decent": its lead is handed over, the table is asked for
    its name and accepts the record, which carries the class, and the hit
    is logged. *)
Definition admitted_with_class (url : JsStr) : Prop :=
  let env := services (with_website url glow_spa) (one_page []) resolves
               unreachable in
  let class := evaluateWebsiteQuality_index url in
  let data :=
    lead_of (Some "place-a") (Some "Glow Spa") (Some "1 Main St")
      (with_website url glow_spa) (Some class) in
  let row :=
    {| row_businessName := Some "Glow Spa"; row_address := Some "1 Main St";
       row_date := "2024-05-01"; row_placeId := Some "place-a" |} in
  exists s',
    processPlace Index (hit "place-a") 0 env initial = (Ok 1, s')
    /\ since initial s'
       = [PlaceDetails (Some "place-a");
          Forward (Some "place-a") data;
          AirtableSelect
            ("{Business Name} = " ++ quote ++ "Glow Spa" ++ quote)%string;
          AirtableCreate (fields_of Index data) (inr tt);
          SheetsAppend row (inr tt)]
    /\ airtable s' = [fields_of Index data]
    /\ websiteQuality data = Some class
    /\ In ("Quality of Website", Some class) (fields_of Index data).

(** The page of the spa cannot be fetched at first and is a full page
    later. *)
Definition flaky (n : nat) : string + HttpData :=
  match n with
  | O => inl "timeout"
  | S _ => inr {| data_truthy := true; data_length := Some 48000%Z |}
  end.

(** A first page of two hits that promises more, then the quota error. *)
Definition then_quota (n : nat) : string + SearchReply :=
  match n with
  | O => inr {| results := Some [hit "place-a"; hit "place-b"];
                next_page_token := Some "token-1"; error_message := None |}
  | S _ => inr {| results := None; next_page_token := None;
                  error_message := Some "OVER_QUERY_LIMIT" |}
  end.

Definition downtown : Coordinate := (43.6532, -79.3832)%float.

(** Two hits and a token, then one hit and no token. *)
Definition two_pages (n : nat) : string + SearchReply :=
  match n with
  | O => inr {| results := Some [hit "place-a"; hit "place-b"];
                next_page_token := Some "token-1"; error_message := None |}
  | S _ => inr {| results := Some [hit "place-c"]; next_page_token := None;
                  error_message := None |}
  end.

(** * The vocabulary of the further properties *)

(** ** The requests of a run *)

(** The records that reached the table, read off the trace. *)
Fixpoint created (tr : list Call) : list Fields :=
  match tr with
  | [] => []
  | AirtableCreate fields (inr _) :: rest => fields :: created rest
  | _ :: rest => created rest
  end.

(** Every request that the computation adds to the trace satisfies [P];
    the table grows by the records whose creation resolved, and these are
    no more than the leads handed over. *)
Definition traced (P : Call -> Prop) {A} (m : M A) : Prop :=
  forall env s,
    exists evs,
      calls (snd (m env s)) = calls s ++ evs
      /\ Forall P evs
      /\ airtable (snd (m env s)) = airtable s ++ created evs
      /\ length (created evs) <= count is_forward evs.

(** The lead that the loop builds for a hit with the id [placeId]. *)
Definition lead_shape (v : Variant) (placeId : JsStr) (data : Lead) : Prop :=
  leadName data = Some EmptyString
  /\ contactProfileURL data = Some (profileURL placeId)
  /\ truthy (businessName data) = true
  /\ match v with
     | Index =>
         truthy placeId = true
         /\ truthy (cityState data) = true
         /\ truthy (businessURL data) || truthy (phone data) = true
         /\ exists class,
              websiteQuality data = Some class
              /\ In class ["No Website"; "Poor"; "Decent"]
     | Index2 => websiteQuality data = Some "No Website"
     | Part000 => websiteQuality data = None
     end.

(** The requests of the loop body for the hit [place], after its details
    request. *)
Definition hit_call (v : Variant) (place : Place) (c : Call) : Prop :=
  match c with
  | HttpGet u =>
      v = Part000 /\ startsWith u "https://" = true
      /\ existsb (fun p => includes u p) freePlatforms = false
  | Forward p data => p = place_id place /\ lead_shape v p data
  | AirtableSelect _ => True
  | AirtableCreate fields _ =>
      exists data,
        lead_shape v (place_id place) data /\ fields = fields_of v data
  | SheetsAppend row _ =>
      row_placeId row = place_id place
      /\ truthy (row_businessName row) = true
  | SheetsGet | PlaceDetails _ | TextSearch _ _ => False
  end.

(** The requests of one paginated search. *)
Definition search_call (v : Variant) (query : string) (location : Coordinate)
    (c : Call) : Prop :=
  match c with
  | TextSearch q _ =>
      q_query q = query /\ q_location q = location
      /\ q_radius q = radius_of v
  | _ => False
  end.

(** The points around which a city is searched. *)
Definition points (v : Variant) (city : City) : list Coordinate :=
  match v with
  | Index | Index2 => generateCityGrid (coords city)
  | Part000 => [coords city]
  end.

(** The requests of the loop over the hits of a bucket. *)
Definition bucket_call (v : Variant) (c : Call) : Prop :=
  exists place, c = PlaceDetails (place_id place) \/ hit_call v place c.

(** The requests of the loops of a run: searches for a keyword of the
    variant around a point of a listed city, and the requests for the
    hits. *)
Definition loop_call (v : Variant) (cities : list City) (c : Call) : Prop :=
  (exists city point keyword,
     In city cities /\ In point (points v city) /\ In keyword (keywords v)
     /\ search_call v keyword point c)
  \/ bucket_call v c.

Definition is_details (c : Call) : bool :=
  match c with
  | PlaceDetails _ => true
  | _ => false
  end.

(** The details request of a hit gave no record: the request was
    rejected, the reply carries no [result], or (third variant) the reply
    carries an error payload. *)
Definition enrichment_failed (v : Variant) (reply : string + DetailsReply)
    : bool :=
  match reply with
  | inl _ => true
  | inr res =>
      match result res with
      | None => true
      | Some _ => false
      end
      || checks_error v && truthy (details_error_message res)
  end.

(** ** The pages of a search *)

(** The requests of one search carry the page tokens along: the first
    asks with [token], each later one with the token of the reply before
    it, which resolved and promised more. *)
Fixpoint threaded (v : Variant) (query : string) (location : Coordinate)
    (token : JsStr) (evs : list Call) : Prop :=
  match evs with
  | [] => True
  | TextSearch q r :: rest =>
      q = page_query v query location token
      /\ (rest = []
          \/ exists rep,
               r = inr rep /\ truthy (next_page_token rep) = true
               /\ threaded v query location (next_page_token rep) rest)
  | _ :: _ => False
  end.

(** Every page that promises more holds at least [pageSize] hits. *)
Definition full_pages (pageSize : nat) (env : Env) : Prop :=
  forall n q rep,
    places_textsearch env n q = inr rep ->
    truthy (next_page_token rep) = true ->
    pageSize <= length (page_results rep).

(** ** Searches that fail *)

(** The message with which a search fails on a reply: that of a rejected
    request and, in the third variant, that of an error payload. *)
Definition search_failure (v : Variant) (reply : string + SearchReply)
    : option string :=
  match reply with
  | inl msg => Some msg
  | inr rep =>
      if checks_error v && truthy (error_message rep)
      then Some (interp (error_message rep))
      else None
  end.

Definition failed_search (v : Variant) (c : Call) : bool :=
  match c with
  | TextSearch _ reply =>
      match search_failure v reply with
      | Some _ => true
      | None => false
      end
  | _ => false
  end.

(** No search has failed so far. *)
Definition unfailed (v : Variant) (s : State) : Prop :=
  count (failed_search v) (calls s) = 0.

(** The last request was a search that failed with [msg], the first to
    fail. *)
Definition just_failed (v : Variant) (msg : string) (s : State) : Prop :=
  exists pre q reply,
    calls s = pre ++ [TextSearch q reply]
    /\ count (failed_search v) pre = 0
    /\ search_failure v reply = Some msg.

(** From a state that is [Good], the computation ends in a state that is
    [Good], or throws [msg] in a state that is [Bad msg]. *)
Definition ends (Good : State -> Prop) (Bad : string -> State -> Prop) {A}
    (m : M A) : Prop :=
  forall env s,
    Good s ->
    match m env s with
    | (Throw msg, s') => Bad msg s'
    | (_, s') => Good s'
    end.

(** ** The plan of a run *)

(** The searches of a trace that ask for a first page. *)
Fixpoint first_pages (tr : list Call) : list SearchQuery :=
  match tr with
  | [] => []
  | TextSearch q _ :: rest =>
      match q_pagetoken q with
      | None => q :: first_pages rest
      | Some _ => first_pages rest
      end
  | _ :: rest => first_pages rest
  end.

(** The first pages that the loops ask for, in their order: for each
    city, for each of its points, for each keyword. *)
Definition plan (v : Variant) (cities : list City) : list SearchQuery :=
  flat_map (fun city =>
    flat_map (fun point =>
      map (fun keyword => page_query v keyword point None) (keywords v))
      (points v city))
    cities.

(** No search fails. *)
Definition searches_succeed (v : Variant) (env : Env) : Prop :=
  forall n q, search_failure v (places_textsearch env n q) = None.

(** The computation ends normally and asks for the first pages [qs]. *)
Definition visits (env : Env) (qs : list SearchQuery) (m : M unit) : Prop :=
  forall s,
    exists s' evs,
      m env s = (Ok tt, s')
      /\ calls s' = calls s ++ evs
      /\ first_pages evs = qs.

(** In the trace, no more appends for an id than hand-overs for it. *)
Definition leads_only (tr : list Call) : Prop :=
  forall p, count (append_of p) tr <= count (forward_of p) tr.

(** ** Further sample data *)

(** Services as [services], but the details service rejects every
    request. *)
Definition details_down (page : nat -> string + SearchReply) : Env :=
  {| sheets_values_get := fun _ => inr None;
     sheets_values_append := fun _ _ => inr tt;
     airtable_firstPage := fun _ _ => inr 0;
     airtable_create := fun _ _ => inr tt;
     places_details := fun _ _ => inl "ECONNRESET";
     places_textsearch := fun n _ => page n;
     http_get := fun _ _ => inl "timeout";
     today := fun _ => "2024-05-01" |}.

(** * Properties *)

(** ** Doubles at geographic magnitudes *)

(** The sum and the difference of a double of magnitude at most 180 and
    the offset differ from that double and from each other.  The proof
    reads the IEEE 754 specification of the primitive operations
    ([SFadd], [SFsub]): the exact result is an integer multiple of
    [2 ^ ez], rounding moves it by less than [2 ^ -44], and the offset is
    above [2 ^ -6]. *)

Section Rounding.
#[local] Open Scope Z_scope.

(** Doubles that compare equal have the same value. *)
Lemma SFeqb_scaled f1 f2 : SFeqb f1 f2 = true -> scaled f1 = scaled f2.
Proof.
  unfold SFeqb.
  destruct f1 as [s1 | s1 | | s1 m1 e1]; destruct f2 as [s2 | s2 | | s2 m2 e2];
    cbn; try reflexivity; try discriminate;
    try (destruct s1; discriminate); try (destruct s2; discriminate).
  destruct s1, s2; try discriminate.
  - destruct (Z.compare_spec e1 e2); try discriminate.
    rewrite Pos.compare_cont_spec. cbn [Pos.switch_Eq].
    destruct (Pos.compare_spec m1 m2) as [Hm | Hm | Hm]; cbn; try discriminate.
    intros _. subst. reflexivity.
  - destruct (Z.compare_spec e1 e2); try discriminate.
    rewrite Pos.compare_cont_spec. cbn [Pos.switch_Eq].
    destruct (Pos.compare_spec m1 m2) as [Hm | Hm | Hm]; cbn; try discriminate.
    intros _. subst. reflexivity.
Qed.

(** The number of binary digits bounds the mantissa. *)
Lemma digits2_pos_size p : digits2_pos p = Pos.size p.
Proof. induction p; cbn; congruence. Qed.

Lemma digits2_pos_bounds p :
  2 ^ (Zpos (digits2_pos p) - 1) <= Zpos p < 2 ^ Zpos (digits2_pos p).
Proof.
  rewrite digits2_pos_size. split.
  - pose proof (Pos.size_le p) as H.
    apply Pos2Z.pos_le_pos in H. rewrite Pos2Z.inj_pow in H.
    assert (E : 2 ^ Zpos (Pos.size p) = 2 * 2 ^ (Zpos (Pos.size p) - 1)).
    { rewrite <- Z.pow_succ_r by lia. f_equal. lia. }
    rewrite E in H. lia.
  - pose proof (Pos.size_gt p) as H.
    apply Pos2Z.pos_lt_pos in H. rewrite Pos2Z.inj_pow in H. exact H.
Qed.

(** Shifting a mantissa right by [n] divides it by [2 ^ n]. *)
Lemma shr_1_m mrs : 0 <= shr_m mrs -> shr_m (shr_1 mrs) = shr_m mrs / 2.
Proof.
  destruct mrs as [m r s]. cbn [shr_m]. intros Hm.
  destruct m as [| p | p]; [reflexivity | | lia].
  destruct p as [p | p |]; cbn [shr_1 shr_m].
  - rewrite Pos2Z.inj_xI. rewrite Z.mul_comm, Z.div_add_l by lia. reflexivity.
  - rewrite Pos2Z.inj_xO. rewrite Z.mul_comm, Z.div_mul by lia. reflexivity.
  - reflexivity.
Qed.

Lemma pow2_xI (n : positive) : 2 ^ Zpos n~1 = 2 * (2 ^ Zpos n * 2 ^ Zpos n).
Proof.
  replace (Zpos n~1) with (1 + (Zpos n + Zpos n)) by lia.
  rewrite !Z.pow_add_r by lia. reflexivity.
Qed.

Lemma pow2_xO (n : positive) : 2 ^ Zpos n~0 = 2 ^ Zpos n * 2 ^ Zpos n.
Proof.
  replace (Zpos n~0) with (Zpos n + Zpos n) by lia.
  rewrite !Z.pow_add_r by lia. reflexivity.
Qed.

Lemma iter_shr_1_m (n : positive) : forall mrs,
  0 <= shr_m mrs ->
  shr_m (SpecFloat.iter_pos shr_1 n mrs) = shr_m mrs / 2 ^ Zpos n.
Proof.
  induction n as [n IH | n IH |]; intros mrs Hm; cbn [SpecFloat.iter_pos].
  - assert (H1 : 0 <= shr_m (shr_1 mrs)).
    { rewrite shr_1_m by exact Hm. apply Z.div_pos; lia. }
    assert (H2 : 0 <= shr_m (SpecFloat.iter_pos shr_1 n (shr_1 mrs))).
    { rewrite IH by exact H1. apply Z.div_pos; [exact H1 | lia]. }
    rewrite IH by exact H2. rewrite IH by exact H1. rewrite shr_1_m by exact Hm.
    rewrite pow2_xI.
    assert (0 < 2 ^ Zpos n) by lia.
    rewrite !Z.div_div by lia. reflexivity.
  - assert (H2 : 0 <= shr_m (SpecFloat.iter_pos shr_1 n mrs)).
    { rewrite IH by exact Hm. apply Z.div_pos; [exact Hm | lia]. }
    rewrite IH by exact H2. rewrite IH by exact Hm.
    rewrite pow2_xO.
    assert (0 < 2 ^ Zpos n) by lia.
    rewrite !Z.div_div by lia. reflexivity.
  - rewrite shr_1_m by exact Hm. reflexivity.
Qed.

(** The exponent of a double with [t - e] digits at exponent [e]. *)
Lemma fexp_eq (t : Z) : fexp prec emax t = Z.max (t - 53) (-1074).
Proof. reflexivity. Qed.

Lemma Zdigits2_bounds (m : Z) :
  0 < m -> 2 ^ (Zdigits2 m - 1) <= m < 2 ^ Zdigits2 m.
Proof.
  destruct m as [| p | p]; try lia. intros _. apply digits2_pos_bounds.
Qed.

Lemma shr_record_of_loc_m (m : Z) (l : location) :
  shr_m (shr_record_of_loc m l) = m.
Proof. destruct l as [| []]; reflexivity. Qed.

Lemma shr_spec (m : Z) (l : location) (e n : Z) :
  0 <= m ->
  shr_m (fst (shr (shr_record_of_loc m l) e n)) = m / 2 ^ Z.max 0 n
  /\ snd (shr (shr_record_of_loc m l) e n) = e + Z.max 0 n.
Proof.
  intros Hm. destruct n as [| p | p]; cbn [shr fst snd].
  - rewrite shr_record_of_loc_m. cbn. rewrite Z.div_1_r. lia.
  - rewrite iter_shr_1_m by (rewrite shr_record_of_loc_m; exact Hm).
    rewrite shr_record_of_loc_m.
    replace (Z.max 0 (Zpos p)) with (Zpos p) by lia. split; reflexivity.
  - rewrite shr_record_of_loc_m.
    replace (Z.max 0 (Zneg p)) with 0 by lia. cbn. rewrite Z.div_1_r. lia.
Qed.

(** Rounding to nearest keeps the mantissa or adds one. *)
Lemma round_nearest_even_bounds (m : Z) (l : location) :
  m <= round_nearest_even m l <= m + 1.
Proof.
  destruct l as [| []]; cbn; try lia. destruct (Z.even m); lia.
Qed.

Lemma pow2_pos (k : Z) : 0 <= k -> 0 < 2 ^ k.
Proof. intros. apply Z.pow_pos_nonneg; lia. Qed.

Lemma pow2_le (a b : Z) : 0 <= a <= b -> 2 ^ a <= 2 ^ b.
Proof. intros. apply Z.pow_le_mono_r; lia. Qed.

Lemma pow2_lt_inv (a b : Z) : 0 <= b -> 2 ^ a < 2 ^ b -> a < b.
Proof.
  intros Hb H. destruct (Z.lt_ge_cases a b) as [Hlt | Hge]; [exact Hlt |].
  pose proof (pow2_le b a ltac:(lia)). lia.
Qed.

(** The value of a rounded positive integer is within one unit of the
    exponent it ends up with. *)
Lemma binary_round_aux_value (sx : bool) (mx ex : Z) :
  0 < mx -> -1074 <= ex ->
  let E := Z.max ex (fexp prec emax (Zdigits2 mx + ex)) in
  E <= 970 ->
  exists a,
    scaled (binary_round_aux prec emax sx mx ex loc_Exact) = cond_Zopp sx a
    /\ a - mx * 2 ^ (ex + 1074) <= 2 ^ (E + 1074)
    /\ mx * 2 ^ (ex + 1074) - a <= 2 ^ (E + 1074).
Proof.
  intros Hmx Hex E HE.
  unfold binary_round_aux, shr_fexp.
  set (n1 := fexp prec emax (Zdigits2 mx + ex) - ex).
  destruct (shr_spec mx loc_Exact ex n1 ltac:(lia)) as [Hm1 He1].
  destruct (shr (shr_record_of_loc mx loc_Exact) ex n1) as [mrs1 e1].
  cbn [fst snd] in Hm1, He1.
  set (k := Z.max 0 n1) in *.
  assert (HEk : E = ex + k) by (unfold E, k, n1; lia).
  set (m1 := shr_m mrs1) in *.
  assert (HK : 0 < 2 ^ k) by (apply pow2_pos; lia).
  assert (Hdiv : m1 * 2 ^ k <= mx < (m1 + 1) * 2 ^ k).
  { rewrite Hm1. pose proof (Z.mul_div_le mx (2 ^ k) HK).
    pose proof (Z.mul_succ_div_gt mx (2 ^ k) HK). lia. }
  assert (Hm1pos : 0 <= m1) by (rewrite Hm1; apply Z.div_pos; lia).
  destruct (Zdigits2_bounds mx Hmx) as [_ HD].
  assert (Hm1lt : m1 < 2 ^ 53).
  { rewrite Hm1. apply Z.div_lt_upper_bound; [exact HK |].
    rewrite <- Z.pow_add_r by lia.
    eapply Z.lt_le_trans; [exact HD |]. apply pow2_le.
    pose proof (Zdigits2_bounds mx Hmx) as [Hlow _].
    assert (0 < Zdigits2 mx).
    { destruct mx; cbn; lia. }
    unfold k, n1. rewrite fexp_eq. lia. }
  set (m2 := round_nearest_even m1 (loc_of_shr_record mrs1)).
  pose proof (round_nearest_even_bounds m1 (loc_of_shr_record mrs1)) as Hm2.
  fold m2 in Hm2.
  set (n2 := fexp prec emax (Zdigits2 m2 + e1) - e1).
  destruct (shr_spec m2 loc_Exact e1 n2 ltac:(lia)) as [Hm3 He3].
  destruct (shr (shr_record_of_loc m2 loc_Exact) e1 n2) as [mrs3 e3].
  cbn [fst snd] in Hm3, He3.
  (* the second shift only undoes a carry and loses nothing *)
  assert (Hexact : shr_m mrs3 * 2 ^ (e3 + 1074) = m2 * 2 ^ (e1 + 1074)
                   /\ e3 <= e1 + 1).
  { destruct (Z.le_gt_cases n2 0) as [Hn2 | Hn2].
    - replace (Z.max 0 n2) with 0 in * by lia.
      rewrite Hm3, He3. cbn. rewrite Z.div_1_r, Z.add_0_r. split; [reflexivity | lia].
    - assert (Hm2pos : 0 < m2).
      { destruct (Z.eq_dec m2 0) as [E0 | ]; [| lia].
        exfalso. unfold n2 in Hn2. rewrite E0, fexp_eq in Hn2. cbn in Hn2. lia. }
      destruct (Zdigits2_bounds m2 Hm2pos) as [Hlow2 Hup2].
      assert (Hd2 : Zdigits2 m2 = 54).
      { unfold n2 in Hn2. rewrite fexp_eq in Hn2.
        assert (53 < Zdigits2 m2) by lia.
        assert (Zdigits2 m2 - 1 < 54).
        { apply pow2_lt_inv; [lia |]. 
          eapply Z.le_lt_trans; [exact Hlow2 |].
          change (2 ^ 54) with (2 * 2 ^ 53). lia. }
        lia. }
      rewrite Hd2 in Hlow2. change (54 - 1) with 53 in Hlow2.
      assert (Hm2eq : m2 = 2 ^ 53) by lia.
      assert (Hn2eq : n2 = 1) by (unfold n2; rewrite Hd2, fexp_eq; lia).
      rewrite Hn2eq in *. rewrite Hm3, He3, Hm2eq.
      change (Z.max 0 1) with 1.
      replace (e1 + 1 + 1074) with (1 + (e1 + 1074)) by lia.
      rewrite Z.pow_add_r by lia.
      change (2 ^ 53 / 2 ^ 1) with (2 ^ 52).
      change (2 ^ 53) with (2 ^ 52 * 2 ^ 1). split; [lia | lia]. }
  destruct Hexact as [Hval He3le].
  assert (Hm3pos : 0 <= shr_m mrs3).
  { rewrite Hm3. apply Z.div_pos; [lia | apply pow2_pos; lia]. }
  exists (shr_m mrs3 * 2 ^ (e3 + 1074)).
  split.
  - destruct (shr_m mrs3) as [| p | p]; [destruct sx; reflexivity | | lia].
    replace (e3 <=? emax - prec) with true; [reflexivity |].
    symmetry. apply Z.leb_le. change (emax - prec) with 971. lia.
  - rewrite Hval, He1.
    replace (ex + k + 1074) with (k + (ex + 1074)) by lia.
    rewrite HEk.
    replace (ex + k + 1074) with (k + (ex + 1074)) by lia.
    rewrite Z.pow_add_r by lia.
    assert (HP : 0 < 2 ^ (ex + 1074)) by (apply pow2_pos; lia).
    set (P := 2 ^ (ex + 1074)) in *. set (K := 2 ^ k) in *.
    split; nia.
Qed.

(** Shifting a mantissa left by [d] multiplies it by [2 ^ d]. *)
Lemma iter_xO_value (d : positive) (m : positive) :
  Zpos (Pos.iter xO m d) = Zpos m * 2 ^ Zpos d
  /\ Zpos (digits2_pos (Pos.iter xO m d)) = Zpos (digits2_pos m) + Zpos d.
Proof.
  induction d as [| d IH] using Pos.peano_ind.
  - cbn. split; lia.
  - rewrite Pos.iter_succ. destruct IH as [IHv IHd].
    cbn [digits2_pos]. rewrite Pos2Z.inj_succ.
    replace (Z.succ (Zpos d)) with (1 + Zpos d) by lia.
    rewrite Z.pow_add_r by lia.
    split.
    + change (Zpos (Pos.iter xO m d)~0) with (2 * Zpos (Pos.iter xO m d)).
      rewrite IHv. change (2 ^ 1) with 2. lia.
    + rewrite Pos2Z.inj_succ, IHd. lia.
Qed.

(** The same for [binary_round], which first aligns the mantissa. *)
Lemma binary_round_value (sx : bool) (mx : positive) (ex : Z) :
  -1074 <= ex ->
  let E := Z.max ex (fexp prec emax (Zpos (digits2_pos mx) + ex)) in
  E <= 970 ->
  exists a,
    scaled (binary_round prec emax sx mx ex) = cond_Zopp sx a
    /\ a - Zpos mx * 2 ^ (ex + 1074) <= 2 ^ (E + 1074)
    /\ Zpos mx * 2 ^ (ex + 1074) - a <= 2 ^ (E + 1074).
Proof.
  intros Hex E HE. unfold binary_round, shl_align.
  set (ex' := fexp prec emax (Zpos (digits2_pos mx) + ex)) in *.
  assert (Hex' : -1074 <= ex') by (unfold ex'; rewrite fexp_eq; lia).
  destruct (ex' - ex) as [| d | d] eqn:Hd.
  - destruct (binary_round_aux_value sx (Zpos mx) ex) as (a & Ha & Hb);
      try lia.
    + cbn [Zdigits2]. fold ex'. lia.
    + exists a. split; [exact Ha |]. cbn [Zdigits2] in Hb. fold ex' in Hb.
      fold E in Hb. exact Hb.
  - destruct (binary_round_aux_value sx (Zpos mx) ex) as (a & Ha & Hb);
      try lia.
    + cbn [Zdigits2]. fold ex'. lia.
    + exists a. split; [exact Ha |]. cbn [Zdigits2] in Hb. fold ex' in Hb.
      fold E in Hb. exact Hb.
  - destruct (iter_xO_value d mx) as [Hv Hdig].
    pose proof (binary_round_aux_value sx (Zpos (Pos.iter xO mx d)) ex')
      as Haux.
    cbv zeta in Haux. cbn [Zdigits2] in Haux. rewrite Hdig in Haux.
    replace (Zpos (digits2_pos mx) + Zpos d + ex')
      with (Zpos (digits2_pos mx) + ex) in Haux by lia.
    fold ex' in Haux.
    replace (Z.max ex' ex') with ex' in Haux by lia.
    destruct Haux as (a & Ha & Hb); try lia.
    exists a. split; [exact Ha |].
    rewrite Hv in Hb.
    assert (Hpow : 2 ^ Zpos d * 2 ^ (ex' + 1074) = 2 ^ (ex + 1074)).
    { rewrite <- Z.pow_add_r by lia. f_equal. lia. }
    rewrite <- Z.mul_assoc, Hpow in Hb.
    assert (2 ^ (ex' + 1074) <= 2 ^ (E + 1074)) by (apply pow2_le; lia).
    lia.
Qed.

(** Rounding an integer multiple of [2 ^ ez]. *)
Lemma binary_normalize_value (M ez : Z) :
  -1074 <= ez ->
  let E := Z.max ez (fexp prec emax (Zdigits2 M + ez)) in
  E <= 970 ->
  let r := scaled (binary_normalize prec emax M ez false) in
  r - M * 2 ^ (ez + 1074) <= 2 ^ (E + 1074)
  /\ M * 2 ^ (ez + 1074) - r <= 2 ^ (E + 1074).
Proof.
  intros Hez E HE r. subst r.
  assert (0 < 2 ^ (E + 1074)) by (apply pow2_pos; lia).
  destruct M as [| p | p]; cbn [binary_normalize].
  - cbn. lia.
  - destruct (binary_round_value false p ez Hez) as (a & Ha & Hb).
    + exact HE.
    + rewrite Ha. cbn [cond_Zopp]. exact Hb.
  - destruct (binary_round_value true p ez Hez) as (a & Ha & Hb).
    + exact HE.
    + rewrite Ha. cbn [cond_Zopp]. cbn [Zdigits2] in E. fold E in Hb.
      change (Zneg p) with (- Zpos p). lia.
Qed.

(** The operands of a sum, aligned on the smaller exponent. *)
Lemma shl_align_fst (m : positive) (e ez : Z) :
  ez <= e -> Zpos (fst (shl_align m e ez)) = Zpos m * 2 ^ (e - ez).
Proof.
  intros Hle. unfold shl_align.
  destruct (ez - e) as [| d | d] eqn:Hd; cbn [fst]; try lia.
  - replace (e - ez) with 0 by lia. cbn. lia.
  - destruct (iter_xO_value d m) as [Hv _]. rewrite Hv.
    f_equal. f_equal. lia.
Qed.

Lemma scaled_finite (s : bool) (m : positive) (e : Z) :
  scaled (S754_finite s m e) = cond_Zopp s (Zpos m * 2 ^ (e + 1074)).
Proof. reflexivity. Qed.

Lemma cond_Zopp_mul (s : bool) (a b : Z) :
  cond_Zopp s a * b = cond_Zopp s (a * b).
Proof. destruct s; cbn; lia. Qed.

(** The digits of an integer whose multiple by [2 ^ (ez + 1074)] is below
    [2 ^ 1082]. *)
Lemma fexp_small (M ez : Z) :
  -1074 <= ez <= -45 ->
  - 2 ^ 1082 < M * 2 ^ (ez + 1074) < 2 ^ 1082 ->
  Z.max ez (fexp prec emax (Zdigits2 M + ez)) <= -45.
Proof.
  intros Hez HW. rewrite fexp_eq.
  assert (HP : 0 < 2 ^ (ez + 1074)) by (apply pow2_pos; lia).
  assert (Hd : Zdigits2 M + ez <= 8).
  { destruct M as [| p | p]; cbn [Zdigits2]; [lia | |].
    - destruct (digits2_pos_bounds p) as [Hlow _].
      assert (Hlt : 2 ^ (Zpos (digits2_pos p) - 1 + (ez + 1074)) < 2 ^ 1082).
      { rewrite Z.pow_add_r by lia. nia. }
      apply pow2_lt_inv in Hlt; lia.
    - destruct (digits2_pos_bounds p) as [Hlow _].
      assert (Hlt : 2 ^ (Zpos (digits2_pos p) - 1 + (ez + 1074)) < 2 ^ 1082).
      { rewrite Z.pow_add_r by lia. change (Zneg p) with (- Zpos p) in HW. nia. }
      apply pow2_lt_inv in Hlt; lia. }
  lia.
Qed.

Lemma aligned_value (ex ey : Z) (s : bool) (m : positive) (e : Z) :
  -1074 <= ex -> -1074 <= ey ->
  Z.min ex ey <= e -> -1074 <= e ->
  cond_Zopp s (Zpos (fst (shl_align m e (Z.min ex ey))))
  * 2 ^ (Z.min ex ey + 1074)
  = scaled (S754_finite s m e).
Proof.
  intros Hex Hey Hle He. rewrite shl_align_fst by exact Hle.
  rewrite cond_Zopp_mul, scaled_finite. f_equal.
  rewrite <- Z.mul_assoc, <- Z.pow_add_r by lia. f_equal. f_equal. lia.
Qed.

(** The sum and the difference of two finite doubles of small magnitude,
    one of them of exponent at most -45, are within [2 ^ -45] of the exact
    result. *)
Lemma SFadd_near (sx sy : bool) (mx my : positive) (ex ey : Z) :
  -1074 <= ex -> -1074 <= ey -> Z.min ex ey <= -45 ->
  let X := S754_finite sx mx ex in
  let Y := S754_finite sy my ey in
  - 2 ^ 1082 < scaled X + scaled Y < 2 ^ 1082 ->
  let r := scaled (SFadd prec emax X Y) in
  r - (scaled X + scaled Y) <= 2 ^ 1029
  /\ scaled X + scaled Y - r <= 2 ^ 1029.
Proof.
  intros Hex Hey Hmin X Y HW r. subst r. unfold X, Y in *. cbn [SFadd].
  set (ez := Z.min ex ey) in *.
  set (M := cond_Zopp sx (Zpos (fst (shl_align mx ex ez)))
            + cond_Zopp sy (Zpos (fst (shl_align my ey ez)))).
  assert (HM : M * 2 ^ (ez + 1074)
               = scaled (S754_finite sx mx ex) + scaled (S754_finite sy my ey)).
  { unfold M. rewrite Z.mul_add_distr_r.
    unfold ez. rewrite !(aligned_value ex ey) by lia. reflexivity. }
  rewrite <- HM in *.
  assert (HE : Z.max ez (fexp prec emax (Zdigits2 M + ez)) <= -45)
    by (apply fexp_small; [unfold ez; lia | exact HW]).
  pose proof (binary_normalize_value M ez ltac:(unfold ez; lia)) as Hn.
  cbv zeta in Hn. specialize (Hn ltac:(lia)).
  assert (2 ^ (Z.max ez (fexp prec emax (Zdigits2 M + ez)) + 1074) <= 2 ^ 1029).
  { apply pow2_le. split; [| lia]. rewrite fexp_eq. unfold ez. lia. }
  lia.
Qed.

Lemma SFsub_near (sx sy : bool) (mx my : positive) (ex ey : Z) :
  -1074 <= ex -> -1074 <= ey -> Z.min ex ey <= -45 ->
  let X := S754_finite sx mx ex in
  let Y := S754_finite sy my ey in
  - 2 ^ 1082 < scaled X - scaled Y < 2 ^ 1082 ->
  let r := scaled (SFsub prec emax X Y) in
  r - (scaled X - scaled Y) <= 2 ^ 1029
  /\ scaled X - scaled Y - r <= 2 ^ 1029.
Proof.
  intros Hex Hey Hmin X Y HW r. subst r. unfold X, Y in *. cbn [SFsub].
  set (ez := Z.min ex ey) in *.
  set (M := cond_Zopp sx (Zpos (fst (shl_align mx ex ez)))
            - cond_Zopp sy (Zpos (fst (shl_align my ey ez)))).
  assert (HM : M * 2 ^ (ez + 1074)
               = scaled (S754_finite sx mx ex) - scaled (S754_finite sy my ey)).
  { unfold M. rewrite Z.mul_sub_distr_r.
    unfold ez. rewrite !(aligned_value ex ey) by lia. reflexivity. }
  rewrite <- HM in *.
  assert (HE : Z.max ez (fexp prec emax (Zdigits2 M + ez)) <= -45)
    by (apply fexp_small; [unfold ez; lia | exact HW]).
  pose proof (binary_normalize_value M ez ltac:(unfold ez; lia)) as Hn.
  cbv zeta in Hn. specialize (Hn ltac:(lia)).
  assert (2 ^ (Z.max ez (fexp prec emax (Zdigits2 M + ez)) + 1074) <= 2 ^ 1029).
  { apply pow2_le. split; [| lia]. rewrite fexp_eq. unfold ez. lia. }
  lia.
Qed.


Lemma Prim2SF_offset :
  Prim2SF searchGridOffset = S754_finite false offset_mantissa (-58).
Proof. vm_compute. reflexivity. Qed.

Lemma Prim2SF_180 :
  Prim2SF 180%float = S754_finite false 6333186975989760 (-45).
Proof. vm_compute. reflexivity. Qed.

Lemma SFeqb_differ (f1 f2 : spec_float) :
  scaled f1 <> scaled f2 -> SFeqb f1 f2 = false.
Proof.
  intros Hne. destruct (SFeqb f1 f2) eqn:E; [| reflexivity].
  apply SFeqb_scaled in E. contradiction.
Qed.

(** A double of magnitude at most 180 is a zero or a finite number of
    scaled value at most [180 * 2 ^ 1074]. *)
Lemma geographic_spec (x : float) :
  geographic x = true ->
  (exists s, Prim2SF x = S754_zero s)
  \/ (exists s m e,
        Prim2SF x = S754_finite s m e /\ -1074 <= e
        /\ - (180 * 2 ^ 1074) <= scaled (Prim2SF x) <= 180 * 2 ^ 1074).
Proof.
  unfold geographic. rewrite leb_spec, abs_spec, Prim2SF_180.
  pose proof (Prim2SF_valid x) as Hvalid.
  destruct (Prim2SF x) as [s | s | | s m e]; cbn [SFabs].
  - intros _. left. exists s. reflexivity.
  - discriminate.
  - discriminate.
  - intros Hle. right. exists s, m, e. split; [reflexivity |].
    cbn [valid_binary] in Hvalid. unfold bounded, canonical_mantissa in Hvalid.
    apply andb_true_iff in Hvalid as [Hcanon _].
    apply Z.eqb_eq in Hcanon. rewrite fexp_eq in Hcanon.
    destruct (digits2_pos_bounds m) as [_ Hup].
    assert (Hm : Zpos m < 2 ^ 53).
    { eapply Z.lt_le_trans; [exact Hup |]. apply pow2_le. lia. }
    split; [lia |].
    assert (Habs : Zpos m * 2 ^ (e + 1074) <= 180 * 2 ^ 1074).
    { unfold SFleb in Hle. cbn [SFcompare] in Hle.
      assert (HP : 0 < 2 ^ (e + 1074)) by (apply pow2_pos; lia).
      destruct (Z.compare_spec e (-45)) as [He | He | He].
      - rewrite Pos.compare_cont_spec in Hle. cbn [Pos.switch_Eq] in Hle.
        destruct (Pos.compare_spec m 6333186975989760) as [Hm' | Hm' | Hm'];
          try discriminate; subst e.
        + subst m. vm_compute. discriminate.
        + apply Pos2Z.pos_lt_pos in Hm'.
          change (180 * 2 ^ 1074)
            with (6333186975989760 * 2 ^ (-45 + 1074)).
          nia.
      - assert (2 ^ (e + 1074) <= 2 ^ 1028) by (apply pow2_le; lia).
        change (180 * 2 ^ 1074) with (180 * 2 ^ 46 * 2 ^ 1028).
        assert (2 ^ 53 <= 180 * 2 ^ 46) by (vm_compute; discriminate).
        nia.
      - discriminate. }
    rewrite scaled_finite. destruct s; cbn [cond_Zopp]; lia.
Qed.

Lemma offset_scaled :
  scaled (S754_finite false offset_mantissa (-58))
  = Zpos offset_mantissa * 2 ^ 1016.
Proof. reflexivity. Qed.

(** At geographic magnitudes the offset moves a double both ways. *)
Lemma geographic_offset_moves (x : float) :
  geographic x = true -> offset_moves x = true.
Proof.
  intros Hgeo. unfold offset_moves.
  rewrite !FloatAxioms.eqb_spec, !FloatAxioms.add_spec, !FloatAxioms.sub_spec, Prim2SF_offset.
  unfold SF64add, SF64sub.
  destruct (geographic_spec x Hgeo) as [[s ->] | (s & m & e & -> & He & Hx)].
  - destruct s; vm_compute; reflexivity.
  - set (X := S754_finite s m e) in *.
    set (C := S754_finite false offset_mantissa (-58)).
    assert (HC : scaled C = Zpos offset_mantissa * 2 ^ 1016) by reflexivity.
    assert (HCbig : 2 ^ 1030 < scaled C /\ scaled C < 2 ^ 1074).
    { rewrite HC. split.
      - change (2 ^ 1030) with (2 ^ 14 * 2 ^ 1016).
        assert (0 < 2 ^ 1016) by (apply pow2_pos; lia).
        assert (2 ^ 14 < Zpos offset_mantissa) by (vm_compute; reflexivity).
        nia.
      - change (2 ^ 1074) with (2 ^ 58 * 2 ^ 1016).
        assert (0 < 2 ^ 1016) by (apply pow2_pos; lia).
        assert (Zpos offset_mantissa < 2 ^ 58) by (vm_compute; reflexivity).
        nia. }
    assert (H1082 : 2 ^ 1082 = 256 * 2 ^ 1074) by reflexivity.
    assert (H1029 : 2 ^ 1030 = 2 * 2 ^ 1029) by reflexivity.
    assert (0 < 2 ^ 1029) by (apply pow2_pos; lia).
    assert (0 < 2 ^ 1074) by (apply pow2_pos; lia).
    pose proof (SFadd_near s false m offset_mantissa e (-58) He
                  ltac:(lia) ltac:(lia)) as Hadd.
    pose proof (SFsub_near s false m offset_mantissa e (-58) He
                  ltac:(lia) ltac:(lia)) as Hsub.
    cbv zeta in Hadd, Hsub. fold X C in Hadd, Hsub.
    specialize (Hadd ltac:(lia)). specialize (Hsub ltac:(lia)).
    rewrite (SFeqb_differ X (SFadd prec emax X C)) by lia.
    rewrite (SFeqb_differ X (SFsub prec emax X C)) by lia.
    rewrite (SFeqb_differ (SFadd prec emax X C) (SFsub prec emax X C)) by lia.
    reflexivity.
Qed.

End Rounding.

(** ** The sweep grid *)

Lemma not_nan_eqb (x : float) : is_nan x = false -> (x =? x)%float = true.
Proof.
  unfold is_nan. intros H. apply negb_false_iff in H. exact H.
Qed.

Lemma parseable_components (lat lng : float) :
  parseable (lat, lng) = true ->
  (lat =? lat)%float = true /\ (lng =? lng)%float = true.
Proof.
  unfold parseable. cbn [fst snd]. intros H.
  apply andb_true_iff in H as [Hlat Hlng].
  apply negb_true_iff in Hlat, Hlng.
  split; apply not_nan_eqb; assumption.
Qed.

Lemma grid_distinct_iff_offset_moves (lat lng : float) :
  parseable (lat, lng) = true ->
  distinct_coordinates (generateCityGrid (lat, lng))
  = offset_moves lat && offset_moves lng.
Proof.
  intros Hp. destruct (parseable_components lat lng Hp) as [Hlat Hlng].
  unfold generateCityGrid, distinct_coordinates, forallb, same_coordinate,
    offset_moves.
  cbn [fst snd]. rewrite Hlat, Hlng.
  destruct (lat =? lat + searchGridOffset)%float,
           (lat =? lat - searchGridOffset)%float,
           (lat + searchGridOffset =? lat - searchGridOffset)%float,
           (lng =? lng + searchGridOffset)%float,
           (lng =? lng - searchGridOffset)%float,
           (lng + searchGridOffset =? lng - searchGridOffset)%float;
    cbn; try reflexivity;
    repeat match goal with
           | |- context [ (?a =? ?b)%float ] => destruct (a =? b)%float
           end; reflexivity.
Qed.

Lemma geographic_parseable (lat lng : float) :
  geographic lat = true -> geographic lng = true ->
  parseable (lat, lng) = true.
Proof.
  intros Hlat Hlng. unfold parseable. cbn [fst snd].
  assert (Hnan : forall x, geographic x = true -> is_nan x = false).
  { intros x Hx. unfold is_nan. rewrite FloatAxioms.eqb_spec.
    destruct (geographic_spec x Hx) as [[s ->] | (s & m & e & -> & _)].
    - reflexivity.
    - unfold SFeqb. cbn [SFcompare].
      destruct s; rewrite Z.compare_refl, Pos.compare_cont_refl; reflexivity. }
  rewrite (Hnan lat Hlat), (Hnan lng Hlng). reflexivity.
Qed.

(** C8: for every parseable center the grid is the five coordinates
    center, latitude+0.03, latitude-0.03, longitude+0.03, longitude-0.03
    in that order, the first being the center itself; the five are
    pairwise distinct whenever latitude and longitude are at most 180 in
    magnitude, as every coordinate in decimal degrees is, and in general
    exactly when adding and subtracting 0.03 in double arithmetic gives
    three different values for the latitude and for the longitude. *)
Theorem generateCityGrid_cross (lat lng : float) :
  parseable (lat, lng) = true ->
  generateCityGrid (lat, lng)
  = [ (lat, lng);
      ((lat + searchGridOffset)%float, lng);
      ((lat - searchGridOffset)%float, lng);
      (lat, (lng + searchGridOffset)%float);
      (lat, (lng - searchGridOffset)%float) ]
  /\ length (generateCityGrid (lat, lng)) = 5
  /\ head (generateCityGrid (lat, lng)) = Some (lat, lng)
  /\ (distinct_coordinates (generateCityGrid (lat, lng)) = true
      <-> offset_moves lat = true /\ offset_moves lng = true)
  /\ (geographic lat = true -> geographic lng = true ->
      distinct_coordinates (generateCityGrid (lat, lng)) = true).
Proof.
  intros Hp.
  split; [reflexivity |]. split; [reflexivity |]. split; [reflexivity |].
  rewrite (grid_distinct_iff_offset_moves lat lng Hp).
  split; [apply andb_true_iff |].
  intros Hlat Hlng.
  rewrite (geographic_offset_moves lat Hlat).
  rewrite (geographic_offset_moves lng Hlng). reflexivity.
Qed.

(** At the center of Toronto the five coordinates are distinct. *)
Lemma generateCityGrid_cross_toronto :
  parseable (43.6532, -79.3832)%float = true
  /\ length (generateCityGrid (43.6532, -79.3832)%float) = 5
  /\ head (generateCityGrid (43.6532, -79.3832)%float)
     = Some (43.6532, -79.3832)%float
  /\ distinct_coordinates (generateCityGrid (43.6532, -79.3832)%float) = true.
Proof.
  assert (Hp : parseable (43.6532, -79.3832)%float = true)
    by (vm_compute; reflexivity).
  destruct (generateCityGrid_cross 43.6532 (-79.3832) Hp)
    as (_ & Hlen & Hhd & _ & Hdist).
  split; [exact Hp |]. split; [exact Hlen |]. split; [exact Hhd |].
  apply Hdist; vm_compute; reflexivity.
Defined.

(** The bound on the magnitude is not idle: in double arithmetic
    [1e17 + 0.03] is [1e17], so at a magnitude that no coordinate in
    degrees has, the second coordinate of the grid would be the center
    again. *)
Lemma generateCityGrid_not_distinct :
  parseable (1e17, 0)%float = true
  /\ nth_error (generateCityGrid (1e17, 0)%float) 1
     = nth_error (generateCityGrid (1e17, 0)%float) 0
  /\ distinct_coordinates (generateCityGrid (1e17, 0)%float) = false.
Proof.
  repeat split; vm_compute; reflexivity.
Qed.

(** ** The qualification rules *)

Lemma Qltb_lt (a b : Q) : Qltb a b = true <-> (a < b)%Q.
Proof.
  unfold Qltb. rewrite negb_true_iff. split.
  - intros H. apply Qnot_le_lt. intros Hle.
    apply Qle_bool_iff in Hle. congruence.
  - intros H. destruct (Qle_bool b a) eqn:E; [| reflexivity].
    apply Qle_bool_iff in E. exfalso. exact (Qlt_not_le _ _ H E).
Qed.

Lemma low_rating_part000_iff (d : Details) :
  low_rating_part000 d = true <-> rating_below_floor d.
Proof.
  unfold low_rating_part000, rating_below_floor.
  destruct (rating d) as [r |].
  - rewrite Qltb_lt. split.
    + intros H. exists r. split; [reflexivity | exact H].
    + intros (r' & Hr & Hlt). injection Hr as <-. exact Hlt.
  - split; [discriminate |]. intros (r & Hr & _). discriminate.
Qed.

Lemma low_rating_index2_iff (d : Details) :
  low_rating_index2 d = true <-> rating_below_floor d.
Proof.
  unfold low_rating_index2, rating_below_floor.
  destruct (rating d) as [r |]; cbn [default].
  - rewrite Qltb_lt. split.
    + intros H. exists r. split; [reflexivity | exact H].
    + intros (r' & Hr & Hlt). injection Hr as <-. exact Hlt.
  - split.
    + intros H. apply Qltb_lt in H. exfalso. revert H. apply Qle_not_lt.
      unfold MIN_RATING, Qle. cbn. lia.
    + intros (r & Hr & _). discriminate.
Qed.

(** The decision of [index2.js] is the conjunction of its four rules. *)
Lemma qualify_index2_admit (d : Details) :
  fst (qualify_index2 d)
  = String.eqb (evaluateWebsiteQuality_index2 (website d)) "No Website"
    && negb (not_operational d) && negb (few_reviews_index2 d)
    && negb (low_rating_index2 d).
Proof.
  unfold qualify_index2. cbn [fst].
  destruct (String.eqb _ _), (not_operational d), (few_reviews_index2 d),
    (low_rating_index2 d); reflexivity.
Qed.

(** The second test of the third variant is the conjunction of the
    website verdict and its three other rules. *)
Lemma screen_part000_admit (b : bool) (d : Details) :
  screen_part000 b d
  = b && negb (not_operational d) && negb (few_reviews_part000 d)
    && negb (low_rating_part000 d).
Proof.
  unfold screen_part000.
  destruct b, (not_operational d), (few_reviews_part000 d),
    (low_rating_part000 d); reflexivity.
Qed.

(** C7: in the two variants that have a rating floor, a rating that is
    present and strictly below 3.0 rejects the record whatever else holds;
    and for a record that reaches the rating test (the website verdict, the
    activity rule and the review floor have let it through) the record is
    rejected exactly when its rating is present and below the floor, so an
    absent rating never rejects. *)
Theorem rating_floor (d : Details) :
  (rating_below_floor d ->
   (forall b, screen_part000 b d = false) /\ fst (qualify_index2 d) = false)
  /\ (not_operational d = false -> few_reviews_part000 d = false ->
      (screen_part000 true d = false <-> rating_below_floor d)
      /\ (rating d = None -> screen_part000 true d = true))
  /\ (evaluateWebsiteQuality_index2 (website d) = "No Website" ->
      not_operational d = false -> few_reviews_index2 d = false ->
      (fst (qualify_index2 d) = false <-> rating_below_floor d)
      /\ (rating d = None -> fst (qualify_index2 d) = true)).
Proof.
  split; [| split].
  - intros Hlow. split.
    + intros b. rewrite screen_part000_admit.
      apply low_rating_part000_iff in Hlow. rewrite Hlow.
      rewrite !andb_false_r. reflexivity.
    + rewrite qualify_index2_admit.
      apply low_rating_index2_iff in Hlow. rewrite Hlow.
      rewrite !andb_false_r. reflexivity.
  - intros Hop Hrev. rewrite screen_part000_admit, Hop, Hrev. cbn.
    split.
    + rewrite negb_false_iff. apply low_rating_part000_iff.
    + intros Hnone. unfold low_rating_part000. rewrite Hnone. reflexivity.
  - intros Hweb Hop Hrev.
    rewrite qualify_index2_admit, Hweb, Hop, Hrev. cbn.
    split.
    + rewrite negb_false_iff. apply low_rating_index2_iff.
    + intros Hnone. unfold low_rating_index2. rewrite Hnone. reflexivity.
Qed.

Lemma rating_floor_examples :
  (screen_part000 true (rated 12 (Some (5 # 2)%Q)) = false
   /\ screen_part000 true (rated 12 None) = true)
  /\ (fst (qualify_index2 (rated 25 (Some (5 # 2)%Q))) = false
      /\ fst (qualify_index2 (rated 25 None)) = true).
Proof.
  assert (Hlow : forall n, rating_below_floor (rated n (Some (5 # 2)%Q))).
  { intros n. unfold rating_below_floor. exists (5 # 2)%Q.
    split; reflexivity. }
  split.
  - split.
    + destruct (rating_floor (rated 12 (Some (5 # 2)%Q))) as (H & _ & _).
      apply (H (Hlow 12%Z)).
    + destruct (rating_floor (rated 12 None)) as (_ & H & _).
      apply H; reflexivity.
  - split.
    + destruct (rating_floor (rated 25 (Some (5 # 2)%Q))) as (H & _ & _).
      apply (H (Hlow 25%Z)).
    + destruct (rating_floor (rated 25 None)) as (_ & _ & H).
      apply H; reflexivity.
Defined.

(** ** Running the primitives *)

Lemma getPlaceDetails_run (v : Variant) (placeId : JsStr) (env : Env)
    (s : State) :
  getPlaceDetails v placeId env s
  = (Ok (details_at v env (length (calls s)) placeId),
     record_call (PlaceDetails placeId) s).
Proof.
  unfold getPlaceDetails, details_at, try_catch, bind, request, await,
    no_effect.
  destruct (places_details env (length (calls s)) placeId) as [msg | res];
    cbn; [reflexivity |].
  destruct v; cbn; try reflexivity.
  destruct (truthy (details_error_message res)); reflexivity.
Qed.

Lemma logBusinessSearch_cached (businessName address placeId : JsStr)
    (env : Env) (s : State) :
  placeId ∈ existingPlaceIds s ->
  logBusinessSearch businessName address placeId env s = (Ok tt, s).
Proof.
  intros Hin.
  unfold logBusinessSearch, try_catch, bind, isLoggedInSearchLogCached.
  rewrite bool_decide_eq_true_2 by exact Hin. reflexivity.
Qed.

Lemma logBusinessSearch_fresh (businessName address placeId : JsStr)
    (env : Env) (s : State) :
  placeId ∉ existingPlaceIds s ->
  let row := row_at env s businessName address placeId in
  let reply := sheets_values_append env (length (calls s)) row in
  logBusinessSearch businessName address placeId env s
  = (Ok tt,
     match reply with
     | inr _ => logged row reply s
     | inl _ => record_call (SheetsAppend row reply) s
     end).
Proof.
  intros Hnot row reply.
  unfold logBusinessSearch, try_catch, bind, isLoggedInSearchLogCached.
  rewrite bool_decide_eq_false_2 by exact Hnot.
  unfold isoDate, request, await, add_existingPlaceId.
  fold (row_at env s businessName address placeId). fold row. fold reply.
  destruct reply as [msg | []]; reflexivity.
Qed.

(** ** Steps that leave the cache and the search log alone *)

Lemma quiet_refl (s : State) : quiet s s.
Proof.
  repeat split. exists []. split; [symmetry; apply app_nil_r | reflexivity].
Qed.

Lemma quiet_trans (s1 s2 s3 : State) :
  quiet s1 s2 -> quiet s2 s3 -> quiet s1 s3.
Proof.
  intros (Hc & Hl & evs & He & Hb) (Hc' & Hl' & evs' & He' & Hb').
  split; [congruence |]. split; [congruence |].
  exists (evs ++ evs'). split.
  - rewrite He', He. symmetry. apply app_assoc.
  - rewrite forallb_app, Hb, Hb'. reflexivity.
Qed.

Lemma quiet_record_call (c : Call) (s : State) :
  benign c = true -> quiet s (record_call c s).
Proof.
  intros Hb. repeat split. exists [c]. split; [reflexivity |].
  cbn. rewrite Hb. reflexivity.
Qed.

Lemma quietly_ret {A} (a : A) : quietly (ret a).
Proof. intros env s. apply quiet_refl. Qed.

Lemma quietly_throw {A} (msg : string) : quietly (@throw A msg).
Proof. intros env s. apply quiet_refl. Qed.

Lemma quietly_outOfFuel {A} : quietly (@outOfFuel A).
Proof. intros env s. apply quiet_refl. Qed.

Lemma quietly_await {A} (p : string + A) : quietly (await p).
Proof. destruct p; [apply quietly_throw | apply quietly_ret]. Qed.

Lemma quietly_bind {A B} (m : M A) (k : A -> M B) :
  quietly m -> (forall a, quietly (k a)) -> quietly (bind m k).
Proof.
  intros Hm Hk env s. unfold bind.
  specialize (Hm env s). destruct (m env s) as [[a | msg |] s1]; cbn in *.
  - eapply quiet_trans; [exact Hm | apply Hk].
  - exact Hm.
  - exact Hm.
Qed.

Lemma quietly_try_catch {A} (m : M A) (h : string -> M A) :
  quietly m -> (forall msg, quietly (h msg)) -> quietly (try_catch m h).
Proof.
  intros Hm Hh env s. unfold try_catch.
  specialize (Hm env s). destruct (m env s) as [[a | msg |] s1]; cbn in *.
  - exact Hm.
  - eapply quiet_trans; [exact Hm | apply Hh].
  - exact Hm.
Qed.

Lemma quietly_request {A} (reply : Env -> nat -> A) (record : A -> Call)
    (effect : A -> State -> State) :
  (forall r, benign (record r) = true) ->
  (forall r s, existingPlaceIds (effect r s) = existingPlaceIds s
               /\ searchLog (effect r s) = searchLog s
               /\ calls (effect r s) = calls s) ->
  quietly (request reply record effect).
Proof.
  intros Hb He env s. unfold request. cbn.
  destruct (He (reply env (length (calls s))) s) as (Hc & Hl & Hcalls).
  split; [exact Hc |]. split; [exact Hl |].
  exists [record (reply env (length (calls s)))]. split.
  - cbn. rewrite Hcalls. reflexivity.
  - cbn. rewrite Hb. reflexivity.
Qed.

Lemma no_effect_frame {A} (r : A) (s : State) :
  existingPlaceIds (no_effect r s) = existingPlaceIds s
  /\ searchLog (no_effect r s) = searchLog s
  /\ calls (no_effect r s) = calls s.
Proof. repeat split. Qed.

Lemma create_record_frame (fields : Fields) (r : string + unit) (s : State) :
  existingPlaceIds (create_record fields r s) = existingPlaceIds s
  /\ searchLog (create_record fields r s) = searchLog s
  /\ calls (create_record fields r s) = calls s.
Proof. destruct r; repeat split. Qed.

Lemma quietly_if {A} (b : bool) (m1 m2 : M A) :
  quietly m1 -> quietly m2 -> quietly (if b then m1 else m2).
Proof. destruct b; auto. Qed.

Create HintDb quiet.
#[local] Hint Resolve quietly_ret quietly_throw quietly_outOfFuel
  quietly_await quietly_bind quietly_try_catch quietly_request quietly_if
  no_effect_frame create_record_frame : quiet.

Lemma quietly_isDuplicate (businessName : JsStr) :
  quietly (isDuplicate businessName).
Proof. unfold isDuplicate. auto 10 with quiet. Qed.

Lemma quietly_addToAirtable (v : Variant) (data : Lead) :
  quietly (addToAirtable v data).
Proof.
  unfold addToAirtable.
  apply quietly_try_catch; [| auto with quiet].
  apply quietly_bind; [apply quietly_isDuplicate |].
  intros dup. auto 10 with quiet.
Qed.

Lemma quietly_isWebsiteLowBudget (url : JsStr) :
  quietly (isWebsiteLowBudget url).
Proof.
  unfold isWebsiteLowBudget.
  apply quietly_try_catch; [| auto with quiet].
  destruct url as [u |]; [| auto with quiet].
  repeat apply quietly_if; auto 10 with quiet.
Qed.

Lemma quietly_qualify_part000 (d : Details) : quietly (qualify_part000 d).
Proof.
  unfold qualify_part000.
  apply quietly_bind; [| auto with quiet].
  apply quietly_if; [auto with quiet |].
  apply quietly_bind; [apply quietly_isWebsiteLowBudget |].
  intros low. auto with quiet.
Qed.

Lemma quietly_searchPlaces_loop (v : Variant) (fuel : nat) (query : string)
    (location : Coordinate) (maxResults : nat) (allResults : list Place)
    (nextPageToken : JsStr) :
  quietly
    (searchPlaces_loop v fuel query location maxResults allResults
       nextPageToken).
Proof.
  revert allResults nextPageToken.
  induction fuel as [| fuel IH]; intros allResults nextPageToken; cbn.
  - apply quietly_outOfFuel.
  - apply quietly_bind; [auto with quiet |]. intros r.
    apply quietly_bind; [auto with quiet |]. intros res.
    apply quietly_if; [auto with quiet |].
    apply quietly_if; [apply IH | auto with quiet].
Qed.

Lemma quietly_searchPlaces (v : Variant) (fuel : nat) (query : string)
    (location : Coordinate) (maxResults : nat) :
  quietly (searchPlaces v fuel query location maxResults).
Proof. apply quietly_searchPlaces_loop. Qed.

(** ** Steps that always return *)

Lemma isDuplicate_returns (businessName : JsStr) (env : Env) (s : State) :
  exists dup, fst (isDuplicate businessName env s) = Ok dup.
Proof.
  unfold isDuplicate, try_catch, bind, request, await, no_effect.
  destruct (airtable_firstPage env _ _) as [msg | n]; cbn; eauto.
Qed.

Lemma addToAirtable_returns (v : Variant) (data : Lead) (env : Env)
    (s : State) :
  fst (addToAirtable v data env s) = Ok tt.
Proof.
  unfold addToAirtable, try_catch, bind.
  destruct (isDuplicate_returns (businessName data) env s) as [dup Hdup].
  destruct (isDuplicate (businessName data) env s) as [r s1].
  cbn in Hdup. subst r. destruct dup; cbn; [reflexivity |].
  unfold request, await.
  destruct (airtable_create env _ _) as [msg | []]; reflexivity.
Qed.

Lemma isWebsiteLowBudget_returns (url : JsStr) (env : Env) (s : State) :
  exists low, fst (isWebsiteLowBudget url env s) = Ok low.
Proof.
  unfold isWebsiteLowBudget, try_catch, bind.
  destruct url as [u |]; [| cbn; eauto].
  destruct (negb (truthy (Some u))); [cbn; eauto |].
  destruct (negb (startsWith u "https://")); [cbn; eauto |].
  destruct (existsb (fun p => includes u p) freePlatforms); [cbn; eauto |].
  unfold request, await, no_effect.
  destruct (http_get env (length (calls s)) u) as [msg | res];
    [cbn; eauto |].
  cbn. destruct (negb (data_truthy res) || _); cbn; eauto.
Qed.

Lemma qualify_part000_returns (d : Details) (env : Env) (s : State) :
  exists addToMainTable, fst (qualify_part000 d env s) = Ok addToMainTable.
Proof.
  unfold qualify_part000, bind.
  destruct (negb (truthy (website d))); cbn; [eauto |].
  destruct (isWebsiteLowBudget_returns (website d) env s) as [low Hlow].
  destruct (isWebsiteLowBudget (website d) env s) as [r s1].
  cbn in Hlow. subst r. destruct low; cbn; eauto.
Qed.

(** A quiet step that returns, then the rest. *)
Lemma bind_quiet_returns {A B} (m : M A) (k : A -> M B) (env : Env)
    (s : State) (a : A) :
  quietly m -> fst (m env s) = Ok a ->
  exists s1, quiet s s1 /\ m env s = (Ok a, s1)
             /\ bind m k env s = k a env s1.
Proof.
  intros Hq Hr. specialize (Hq env s). unfold bind.
  destruct (m env s) as [r s1]. cbn in *. subst r.
  exists s1. split; [exact Hq |]. split; reflexivity.
Qed.

(** ** One search hit *)

(** A hit that is in the cache costs one details request and nothing
    else. *)
Lemma processPlace_cached (v : Variant) (place : Place) (newCount : nat)
    (env : Env) (s : State) :
  place_id place ∈ existingPlaceIds s ->
  processPlace v place newCount env s
  = (Ok newCount, record_call (PlaceDetails (place_id place)) s).
Proof.
  intros Hin.
  assert (Hc : forall A (k1 k2 : M A),
             bind (isLoggedInSearchLogCached (place_id place))
               (fun cached => if cached then k1 else k2) env
               (record_call (PlaceDetails (place_id place)) s)
             = k1 env (record_call (PlaceDetails (place_id place)) s)).
  { intros A k1 k2. unfold bind, isLoggedInSearchLogCached.
    cbn [existingPlaceIds record_call].
    rewrite bool_decide_eq_true_2 by exact Hin. reflexivity. }
  destruct v; cbn [processPlace].
  - unfold processPlace_index. unfold bind at 1.
    rewrite getPlaceDetails_run.
    match goal with |- (if ?c then _ else _) _ _ = _ => destruct c end;
      [reflexivity |].
    rewrite Hc. reflexivity.
  - unfold processPlace_index2. unfold bind at 1.
    rewrite getPlaceDetails_run. rewrite Hc. reflexivity.
  - unfold processPlace_part000. unfold bind at 1.
    rewrite getPlaceDetails_run. rewrite Hc. reflexivity.
Qed.

Lemma count_app (kind : Call -> bool) (tr1 tr2 : list Call) :
  count kind (tr1 ++ tr2) = count kind tr1 + count kind tr2.
Proof. unfold count. rewrite List.filter_app, length_app. reflexivity. Qed.

Lemma benign_no_forward (evs : list Call) :
  forallb benign evs = true -> count is_forward evs = 0.
Proof.
  induction evs as [| c evs IH]; [reflexivity |]. cbn.
  intros H. apply andb_true_iff in H as [Hc Hevs].
  specialize (IH Hevs). unfold count in *. cbn.
  destruct c; cbn in *; try exact IH; discriminate.
Qed.

Lemma benign_calm (placeId : JsStr) (evs : list Call) :
  forallb benign evs = true -> forallb (calm placeId) evs = true.
Proof.
  induction evs as [| c evs IH]; [reflexivity |]. cbn.
  intros H. apply andb_true_iff in H as [Hc Hevs].
  rewrite (IH Hevs). destruct c; try reflexivity; discriminate.
Qed.

(** [logBusinessSearch] for an id that is not cached, after calm steps. *)
Lemma logBusinessSearch_logs_once (businessName address placeId : JsStr)
    (env : Env) (s s1 : State) (evs : list Call) :
  placeId ∉ existingPlaceIds s ->
  existingPlaceIds s1 = existingPlaceIds s ->
  searchLog s1 = searchLog s ->
  calls s1 = calls s ++ evs ->
  forallb (calm placeId) evs = true ->
  count is_forward evs <= 1 ->
  exists s',
    logBusinessSearch businessName address placeId env s1 = (Ok tt, s')
    /\ logs_once placeId s s'.
Proof.
  intros Hnot Hc Hl Hcalls Hevs Hfw.
  rewrite logBusinessSearch_fresh by (rewrite Hc; exact Hnot).
  eexists. split; [reflexivity |].
  exists evs, (row_at env s1 businessName address placeId),
    (sheets_values_append env (length (calls s1))
       (row_at env s1 businessName address placeId)).
  destruct (sheets_values_append env (length (calls s1)) _) as [msg | u];
    cbn [calls existingPlaceIds searchLog logged record_call row_placeId
         row_at];
    rewrite Hcalls, Hc, Hl, <- app_assoc; repeat split; assumption.
Qed.

(** Handing a lead to [addToAirtable]. *)
Lemma forward_run (v : Variant) (placeId : JsStr) (data : Lead) (env : Env)
    (s1 : State) :
  exists s2 evs,
    (emit (Forward placeId data) ;;; addToAirtable v data) env s1
    = (Ok tt, s2)
    /\ existingPlaceIds s2 = existingPlaceIds s1
    /\ searchLog s2 = searchLog s1
    /\ calls s2 = calls s1 ++ Forward placeId data :: evs
    /\ forallb benign evs = true.
Proof.
  unfold bind, emit.
  pose proof (addToAirtable_returns v data env
                (record_call (Forward placeId data) s1)) as Hr.
  pose proof (quietly_addToAirtable v data env
                (record_call (Forward placeId data) s1)) as Hq.
  destruct (addToAirtable v data env (record_call (Forward placeId data) s1))
    as [r s2].
  cbn [fst snd] in Hr, Hq. subst r.
  destruct Hq as (Hc & Hl & evs & Hcalls & Hb).
  exists s2, evs. split; [reflexivity |].
  split; [exact Hc |]. split; [exact Hl |]. split; [| exact Hb].
  rewrite Hcalls. cbn [calls record_call]. rewrite <- app_assoc. reflexivity.
Qed.

Lemma forward_and_log_run (v : Variant)
    (placeId businessName address : JsStr) (data : Lead)
    (addToMainTable : bool) (newCount : nat) (env : Env) (s s1 : State)
    (evs : list Call) :
  placeId ∉ existingPlaceIds s ->
  existingPlaceIds s1 = existingPlaceIds s ->
  searchLog s1 = searchLog s ->
  calls s1 = calls s ++ evs ->
  forallb benign evs = true ->
  exists s',
    forward_and_log v placeId businessName address data addToMainTable
      newCount env s1
    = (Ok (if addToMainTable then S newCount else newCount), s')
    /\ logs_once placeId s s'
    /\ count is_forward (drop (length (calls s)) (calls s'))
       = (if addToMainTable then 1 else 0).
Proof.
  intros Hnot Hc Hl Hcalls Hevs.
  unfold forward_and_log. destruct addToMainTable.
  - destruct (forward_run v placeId data env s1)
      as (s2 & evs2 & Hrun & Hc2 & Hl2 & Hcalls2 & Hb2).
    assert (Hfw : count is_forward (evs ++ Forward placeId data :: evs2) = 1).
    { rewrite count_app, (benign_no_forward evs Hevs).
      change (Forward placeId data :: evs2)
        with ([Forward placeId data] ++ evs2).
      rewrite count_app, (benign_no_forward evs2 Hb2). reflexivity. }
    destruct (logBusinessSearch_logs_once businessName address placeId env
                s s2 (evs ++ Forward placeId data :: evs2))
      as (s' & Hlog & Honce).
    + exact Hnot.
    + congruence.
    + congruence.
    + rewrite Hcalls2, Hcalls, <- app_assoc. reflexivity.
    + rewrite forallb_app, (benign_calm placeId evs Hevs). cbn.
      rewrite bool_decide_eq_true_2 by reflexivity.
      rewrite (benign_calm placeId evs2 Hb2). reflexivity.
    + rewrite Hfw. constructor.
    + exists s'. split; [| split; [exact Honce |]].
      * unfold bind in *.
        destruct (emit (Forward placeId data) env s1) as [[[] | |] s1'];
          try discriminate.
        destruct (addToAirtable v data env s1') as [[[] | |] s2'];
          try discriminate.
        injection Hrun as ->. cbn. rewrite Hlog. reflexivity.
      * destruct Honce as (evs' & row & reply & Hcalls' & _).
        rewrite Hcalls', drop_app_length.
        pose proof (logBusinessSearch_fresh businessName address placeId env
                      s2) as Hf.
        rewrite Hlog in Hf.
        assert (Hn2 : placeId ∉ existingPlaceIds s2) by congruence.
        specialize (Hf Hn2). cbn zeta in Hf.
        assert (Hs' : calls s' = calls s2 ++ [SheetsAppend
                        (row_at env s2 businessName address placeId)
                        (sheets_values_append env (length (calls s2))
                           (row_at env s2 businessName address placeId))]).
        { injection Hf as ->.
          destruct (sheets_values_append env _ _); reflexivity. }
        rewrite Hs', Hcalls2, Hcalls in Hcalls'.
        rewrite <- !app_assoc in Hcalls'.
        apply app_inv_head in Hcalls'.
        rewrite <- Hcalls'. rewrite (app_assoc evs).
        rewrite count_app, Hfw. reflexivity.
  - destruct (logBusinessSearch_logs_once businessName address placeId env
                s s1 evs) as (s' & Hlog & Honce); try assumption.
    + rewrite (benign_calm placeId evs Hevs). reflexivity.
    + rewrite (benign_no_forward evs Hevs). lia.
    + exists s'. split; [| split; [exact Honce |]].
      * unfold bind, ret. rewrite Hlog. reflexivity.
      * pose proof (logBusinessSearch_fresh businessName address placeId env
                      s1) as Hf.
        rewrite Hlog in Hf.
        assert (Hn1 : placeId ∉ existingPlaceIds s1) by congruence.
        specialize (Hf Hn1). cbn zeta in Hf.
        assert (Hs' : calls s' = calls s1 ++ [SheetsAppend
                        (row_at env s1 businessName address placeId)
                        (sheets_values_append env (length (calls s1))
                           (row_at env s1 businessName address placeId))]).
        { injection Hf as ->.
          destruct (sheets_values_append env _ _); reflexivity. }
        rewrite Hs', Hcalls, <- app_assoc, drop_app_length.
        rewrite count_app, (benign_no_forward evs Hevs). reflexivity.
Qed.

Lemma not_cached_run {A} (placeId : JsStr) (k1 k2 : M A) (env : Env)
    (s : State) :
  placeId ∉ existingPlaceIds s ->
  bind (isLoggedInSearchLogCached placeId)
    (fun cached => if cached then k1 else k2) env s
  = k2 env s.
Proof.
  intros Hnot. unfold bind, isLoggedInSearchLogCached.
  rewrite bool_decide_eq_false_2 by exact Hnot. reflexivity.
Qed.

(** [index2.js], a hit that is not cached. *)
Lemma processPlace_index2_fresh (place : Place) (newCount : nat) (env : Env)
    (s : State) :
  let placeId := place_id place in
  let d := details_at Index2 env (length (calls s)) placeId in
  let verdict := fst (qualify_index2 d) in
  placeId ∉ existingPlaceIds s ->
  exists s',
    processPlace_index2 place newCount env s
    = (Ok (if verdict then S newCount else newCount), s')
    /\ logs_once placeId s s'
    /\ count is_forward (since s s') = (if verdict then 1 else 0).
Proof.
  intros placeId d verdict Hnot.
  unfold processPlace_index2. unfold bind at 1.
  rewrite getPlaceDetails_run. fold placeId. fold d.
  rewrite not_cached_run by exact Hnot.
  subst verdict. destruct (qualify_index2 d) as [addToMainTable websiteQuality].
  cbn [fst].
  apply (forward_and_log_run Index2 placeId _ _ _ addToMainTable newCount env
           s (record_call (PlaceDetails placeId) s) [PlaceDetails placeId]);
    try reflexivity.
  exact Hnot.
Qed.

(** The third variant, a hit that is not cached: the verdict is that of
    [qualify_part000] run after the details request. *)
Lemma processPlace_part000_fresh (place : Place) (newCount : nat) (env : Env)
    (s : State) :
  let placeId := place_id place in
  let d := details_at Part000 env (length (calls s)) placeId in
  placeId ∉ existingPlaceIds s ->
  exists verdict s',
    fst (qualify_part000 d env (record_call (PlaceDetails placeId) s))
    = Ok verdict
    /\ processPlace_part000 place newCount env s
       = (Ok (if verdict then S newCount else newCount), s')
    /\ logs_once placeId s s'
    /\ count is_forward (since s s') = (if verdict then 1 else 0).
Proof.
  intros placeId d Hnot.
  unfold processPlace_part000. unfold bind at 1.
  rewrite getPlaceDetails_run. fold placeId. fold d.
  rewrite not_cached_run by exact Hnot.
  set (s1 := record_call (PlaceDetails placeId) s).
  destruct (qualify_part000_returns d env s1) as [verdict Hadmit].
  exists verdict.
  match goal with
  | |- exists s', _ /\ bind _ ?k env s1 = _ /\ _ =>
      destruct (bind_quiet_returns (qualify_part000 d) k env s1 verdict
                  (quietly_qualify_part000 d) Hadmit)
        as (s2 & (Hc & Hl & evs & Hcalls & Hb) & _ & ->)
  end.
  destruct (forward_and_log_run Part000 placeId
              (businessName_of Part000 d place) (address_of Part000 d place)
              (lead_of placeId (businessName_of Part000 d place)
                 (address_of Part000 d place) d None)
              verdict newCount env s s2 (PlaceDetails placeId :: evs))
    as (s' & Hrun & Honce & Hfw).
  - exact Hnot.
  - exact Hc.
  - exact Hl.
  - rewrite Hcalls. cbn [calls s1 record_call]. rewrite <- app_assoc.
    reflexivity.
  - cbn. exact Hb.
  - exists s'. split; [exact Hadmit |]. split; [exact Hrun |].
    split; [exact Honce | exact Hfw].
Qed.

(** [index.js], a hit that is not cached and has name, address and id:
    the three filters decide. *)
Lemma processPlace_index_filters (place : Place) (newCount : nat) (env : Env)
    (s : State) :
  let placeId := place_id place in
  let d := details_at Index env (length (calls s)) placeId in
  let businessName := businessName_of Index d place in
  let address := address_of Index d place in
  let data := lead_of placeId businessName address d
                (Some (evaluateWebsiteQuality_index (website d))) in
  placeId ∉ existingPlaceIds s ->
  complete_index d place = true ->
  processPlace_index place newCount env s
  = (if admit_index d
     then
       emit (Forward placeId data) ;;;
       addToAirtable Index data ;;;
       logBusinessSearch businessName address placeId ;;;
       ret (S newCount)
     else ret newCount) env (record_call (PlaceDetails placeId) s).
Proof.
  intros placeId d businessName address data Hnot Hcomplete.
  unfold processPlace_index. unfold bind at 1.
  rewrite getPlaceDetails_run. fold placeId. fold d.
  unfold complete_index in Hcomplete.
  fold placeId businessName address in Hcomplete.
  apply andb_true_iff in Hcomplete as [Hcomplete Hid].
  apply andb_true_iff in Hcomplete as [Hname Haddr].
  change (js_or (name d) (place_name place)) with businessName.
  change (js_or (formatted_address d) (Some EmptyString)) with address.
  rewrite Hname, Haddr, Hid. cbn [negb orb].
  rewrite not_cached_run by exact Hnot.
  unfold admit_index.
  destruct (activity_rule_index d); [| reflexivity].
  destruct (contactability_rule_index d); [| reflexivity].
  destruct (popularity_rule_index d); reflexivity.
Qed.

Lemma processPlace_index_fresh (place : Place) (newCount : nat) (env : Env)
    (s : State) :
  let placeId := place_id place in
  let d := details_at Index env (length (calls s)) placeId in
  placeId ∉ existingPlaceIds s ->
  complete_index d place = true ->
  admit_index d = true ->
  exists s',
    processPlace_index place newCount env s = (Ok (S newCount), s')
    /\ logs_once placeId s s'
    /\ exists evs,
         since s s'
         = PlaceDetails placeId
           :: Forward placeId
                (lead_of placeId (businessName_of Index d place)
                   (address_of Index d place) d
                   (Some (evaluateWebsiteQuality_index (website d))))
           :: evs
         /\ count is_forward evs = 0.
Proof.
  intros placeId d Hnot Hcomplete Hadmit.
  rewrite (processPlace_index_filters place newCount env s Hnot Hcomplete).
  fold placeId. fold d. rewrite Hadmit.
  set (s1 := record_call (PlaceDetails placeId) s).
  set (businessName := businessName_of Index d place).
  set (address := address_of Index d place).
  set (data := lead_of placeId businessName address d _).
  destruct (forward_run Index placeId data env s1)
    as (s2 & evs2 & Hrun & Hc2 & Hl2 & Hcalls2 & Hb2).
  destruct (logBusinessSearch_logs_once businessName address placeId env
              s s2 (PlaceDetails placeId :: Forward placeId data :: evs2))
    as (s' & Hlog & Honce).
  - exact Hnot.
  - exact Hc2.
  - exact Hl2.
  - rewrite Hcalls2. cbn [calls s1 record_call]. rewrite <- app_assoc.
    reflexivity.
  - cbn. rewrite bool_decide_eq_true_2 by reflexivity.
    apply (benign_calm placeId evs2 Hb2).
  - unfold count. cbn. fold (count is_forward evs2).
    rewrite (benign_no_forward evs2 Hb2). constructor.
  - exists s'. split; [| split; [exact Honce |]].
    + unfold bind in *.
      destruct (emit (Forward placeId data) env s1) as [[[] | |] s1'];
        try discriminate.
      destruct (addToAirtable Index data env s1') as [[[] | |] s2'];
        try discriminate.
      injection Hrun as ->. rewrite Hlog. reflexivity.
    + assert (Hn2 : placeId ∉ existingPlaceIds s2) by (rewrite Hc2; exact Hnot).
      pose proof (logBusinessSearch_fresh businessName address placeId env
                    s2 Hn2) as Hf.
      cbn zeta in Hf. rewrite Hlog in Hf.
      set (row := row_at env s2 businessName address placeId) in *.
      set (reply := sheets_values_append env (length (calls s2)) row) in *.
      exists (evs2 ++ [SheetsAppend row reply]).
      assert (Hs' : calls s' = calls s2 ++ [SheetsAppend row reply]).
      { injection Hf as ->. destruct reply; reflexivity. }
      split.
      * unfold since. rewrite Hs', Hcalls2. cbn [calls s1 record_call].
        rewrite <- !app_assoc. rewrite drop_app_length. reflexivity.
      * rewrite count_app, (benign_no_forward evs2 Hb2). reflexivity.
Qed.

Lemma processPlace_index_rejected (place : Place) (newCount : nat)
    (env : Env) (s : State) :
  let placeId := place_id place in
  let d := details_at Index env (length (calls s)) placeId in
  placeId ∉ existingPlaceIds s ->
  complete_index d place = true ->
  admit_index d = false ->
  processPlace_index place newCount env s
  = (Ok newCount, record_call (PlaceDetails placeId) s).
Proof.
  intros placeId d Hnot Hcomplete Hadmit.
  rewrite (processPlace_index_filters place newCount env s Hnot Hcomplete).
  fold placeId. fold d. rewrite Hadmit. reflexivity.
Qed.

(** [index.js], a hit that lacks a name, an address or an id. *)
Lemma processPlace_index_incomplete (place : Place) (newCount : nat)
    (env : Env) (s : State) :
  let placeId := place_id place in
  let d := details_at Index env (length (calls s)) placeId in
  complete_index d place = false ->
  processPlace_index place newCount env s
  = (Ok newCount, record_call (PlaceDetails placeId) s).
Proof.
  intros placeId d Hcomplete.
  unfold processPlace_index. unfold bind at 1.
  rewrite getPlaceDetails_run. fold placeId. fold d.
  unfold complete_index, businessName_of, address_of in Hcomplete.
  fold placeId in Hcomplete.
  destruct (truthy (js_or (name d) (place_name place)));
    [| reflexivity].
  destruct (truthy (js_or (formatted_address d) (Some EmptyString)));
    [| reflexivity].
  destruct (truthy placeId); [discriminate | reflexivity].
Qed.

(** ** The website verdict of the third variant *)

Lemma isWebsiteLowBudget_run (url : JsStr) (env : Env) (s : State) :
  fst (isWebsiteLowBudget url env s)
  = Ok (low_budget_at env (length (calls s)) url).
Proof.
  unfold isWebsiteLowBudget, low_budget_at, thin_page, try_catch, bind.
  destruct url as [u |]; [| reflexivity].
  destruct (negb (truthy (Some u))); [reflexivity |].
  destruct (negb (startsWith u "https://")); [reflexivity |].
  destruct (existsb (fun p => includes u p) freePlatforms); [reflexivity |].
  unfold request, await, no_effect.
  destruct (http_get env (length (calls s)) u) as [msg | res];
    [reflexivity |].
  cbn. destruct (negb (data_truthy res) || _); reflexivity.
Qed.

Lemma qualify_part000_run (d : Details) (env : Env) (s : State) :
  fst (qualify_part000 d env s)
  = Ok (screen_part000 (website_rule_part000 env (length (calls s)) d) d).
Proof.
  unfold qualify_part000, website_rule_part000, bind.
  destruct (negb (truthy (website d))); [reflexivity |].
  pose proof (isWebsiteLowBudget_run (website d) env s) as Hrun.
  destruct (isWebsiteLowBudget (website d) env s) as [r s1].
  cbn [fst] in Hrun. subst r. cbn [orb].
  destruct (low_budget_at env (length (calls s)) (website d)); reflexivity.
Qed.

(** The verdict depends on the environment only through the page
    fetched for the website. *)
Lemma website_rule_part000_ext (env1 env2 : Env) (n1 n2 : nat) (d : Details) :
  (forall u, website d = Some u -> http_get env1 n1 u = http_get env2 n2 u) ->
  website_rule_part000 env1 n1 d = website_rule_part000 env2 n2 d.
Proof.
  intros Hpage. unfold website_rule_part000, low_budget_at, thin_page.
  destruct (website d) as [u |]; [| reflexivity].
  rewrite (Hpage u eq_refl). reflexivity.
Qed.

(** ** A hit that is already in the cache *)

(** C2, as the code has it: a hit whose place id is in the cache when
    the loop reaches it costs one details request and nothing else; no
    filter runs, nothing is handed to the table, nothing is appended, the
    cache, the log and the counter stay as they were, and the loop goes on
    with the next hit. *)
Theorem cached_hit_is_skipped (v : Variant) (place : Place)
    (rest : list Place) (newCount : nat) (env : Env) (s : State) :
  newCount < NEW_RESULTS_LIMIT v ->
  place_id place ∈ existingPlaceIds s ->
  let s' := record_call (PlaceDetails (place_id place)) s in
  processPlace v place newCount env s = (Ok newCount, s')
  /\ since s s' = [PlaceDetails (place_id place)]
  /\ existingPlaceIds s' = existingPlaceIds s
  /\ searchLog s' = searchLog s
  /\ airtable s' = airtable s
  /\ bucket v (place :: rest) newCount env s = bucket v rest newCount env s'.
Proof.
  intros Hcap Hin s'.
  pose proof (processPlace_cached v place newCount env s Hin) as Hrun.
  split; [exact Hrun |].
  split; [unfold since, s'; cbn; apply drop_app_length |].
  split; [reflexivity |]. split; [reflexivity |]. split; [reflexivity |].
  cbn [bucket].
  destruct (NEW_RESULTS_LIMIT v <=? newCount) eqn:E.
  - apply Nat.leb_le in E. lia.
  - unfold bind. rewrite Hrun. reflexivity.
Qed.

Lemma cached_hit_is_skipped_example :
  let env := services glow_spa (one_page []) resolves unreachable in
  let s := having ["place-a"] in
  processPlace Part000 (hit "place-a") 0 env s
  = (Ok 0, record_call (PlaceDetails (Some "place-a")) s).
Proof.
  intros env s.
  apply (cached_hit_is_skipped Part000 (hit "place-a") [] 0 env s).
  - cbn. lia.
  - unfold s, having. cbn. set_solver.
Defined.

(** C2 as stated fails: the details request is made before the cache is
    consulted, so a cached hit is enriched all the same. *)
Lemma cached_hit_is_enriched :
  let env := services glow_spa (one_page []) resolves unreachable in
  let s := having ["place-a"] in
  bool_decide (Some "place-a" ∈ existingPlaceIds s) = true
  /\ (since s (snd (processPlace Index (hit "place-a") 0 env s))
      = [PlaceDetails (Some "place-a")]
      /\ since s (snd (processPlace Index2 (hit "place-a") 0 env s))
         = [PlaceDetails (Some "place-a")]
      /\ since s (snd (processPlace Part000 (hit "place-a") 0 env s))
         = [PlaceDetails (Some "place-a")]).
Proof.
  cbv zeta. repeat split; vm_compute; reflexivity.
Qed.

(** ** Logging after qualification *)

(** C3, as the code has it: in [index2.js] and in the third variant a
    hit that is not cached is handed to [logBusinessSearch] whether it was
    admitted or rejected: one append of a row for its place id is
    attempted, and the row is in the log and the id in the cache exactly
    when the append resolves.  In [index.js] a hit that has name, address
    and id reaches that append exactly when it passes the three filters; a
    rejected hit leaves the cache and the log as they were. *)
Theorem log_after_qualification (place : Place) (newCount : nat) (env : Env)
    (s : State) :
  place_id place ∉ existingPlaceIds s ->
  (forall v, v = Index2 \/ v = Part000 ->
     exists n' s',
       processPlace v place newCount env s = (Ok n', s')
       /\ logs_once (place_id place) s s')
  /\ (let d := details_at Index env (length (calls s)) (place_id place) in
      complete_index d place = true ->
      (admit_index d = true ->
       exists s',
         processPlace Index place newCount env s = (Ok (S newCount), s')
         /\ logs_once (place_id place) s s')
      /\ (admit_index d = false ->
          processPlace Index place newCount env s
          = (Ok newCount, record_call (PlaceDetails (place_id place)) s))).
Proof.
  intros Hnot. split.
  - intros v [-> | ->]; cbn [processPlace].
    + destruct (processPlace_index2_fresh place newCount env s Hnot)
        as (s' & Hrun & Honce & _).
      eauto.
    + destruct (processPlace_part000_fresh place newCount env s Hnot)
        as (verdict & s' & _ & Hrun & Honce & _).
      eauto.
  - intros d Hcomplete. cbn [processPlace]. split.
    + intros Hadmit.
      destruct (processPlace_index_fresh place newCount env s Hnot Hcomplete
                  Hadmit) as (s' & Hrun & Honce & _).
      eauto.
    + intros Hadmit.
      apply (processPlace_index_rejected place newCount env s Hnot Hcomplete
               Hadmit).
Qed.

(** A closed business, rejected by [index2.js], is logged and marked. *)
Lemma log_after_qualification_example :
  let d := with_status (Some "CLOSED_TEMPORARILY") glow_spa in
  let env := services d (one_page []) resolves unreachable in
  exists n' s',
    processPlace Index2 (hit "place-a") 0 env initial = (Ok n', s')
    /\ logs_once (Some "place-a") initial s'.
Proof.
  intros d env.
  assert (Hnot : place_id (hit "place-a") ∉ existingPlaceIds initial)
    by (cbn; set_solver).
  destruct (log_after_qualification (hit "place-a") 0 env initial Hnot)
    as [H _].
  apply (H Index2). left. reflexivity.
Defined.

(** C3 as stated fails in [index.js]: a hit that a filter rejects is
    skipped by [continue] before the log, so it is neither appended nor
    marked, although the append would have resolved. *)
Lemma rejected_hit_not_logged_in_index :
  let d := with_status (Some "CLOSED_TEMPORARILY") glow_spa in
  let env := services d (one_page []) resolves unreachable in
  let s' := snd (processPlace Index (hit "place-a") 0 env initial) in
  bool_decide (Some "place-a" ∈ existingPlaceIds initial) = false
  /\ admit_index d = false
  /\ searchLog s' = []
  /\ bool_decide (Some "place-a" ∈ existingPlaceIds s') = false
  /\ calls s' = [PlaceDetails (Some "place-a")].
Proof.
  cbv zeta. repeat split; vm_compute; reflexivity.
Qed.

(** ** A failed append *)

(** C9: when the append inside [logBusinessSearch] is rejected, the
    cache and the log are left as they were, so an id that was not cached
    is still not cached and the next hit with it is processed again; and
    an id enters the cache there only with an append that resolved and
    put its row in the log. *)
Theorem failed_append_leaves_cache (businessName address placeId : JsStr)
    (env : Env) (s : State) :
  let row := row_at env s businessName address placeId in
  let reply := sheets_values_append env (length (calls s)) row in
  let s' := snd (logBusinessSearch businessName address placeId env s) in
  fst (logBusinessSearch businessName address placeId env s) = Ok tt
  /\ ((exists msg, reply = inl msg) ->
      existingPlaceIds s' = existingPlaceIds s
      /\ searchLog s' = searchLog s
      /\ (placeId ∉ existingPlaceIds s ->
          fst (isLoggedInSearchLogCached placeId env s') = Ok false))
  /\ (placeId ∈ existingPlaceIds s' ->
      placeId ∈ existingPlaceIds s
      \/ ((exists u, reply = inr u) /\ searchLog s' = searchLog s ++ [row])).
Proof.
  intros row reply s'. subst s'.
  destruct (decide (placeId ∈ existingPlaceIds s)) as [Hin | Hnot].
  - rewrite (logBusinessSearch_cached businessName address placeId env s Hin).
    cbn [fst snd]. split; [reflexivity |]. split.
    + intros _. split; [reflexivity |]. split; [reflexivity |].
      intros Hnot. contradiction.
    + intros _. left. exact Hin.
  - rewrite (logBusinessSearch_fresh businessName address placeId env s Hnot).
    fold row. fold reply. cbn [fst snd]. split; [reflexivity |]. split.
    + intros [msg Hmsg]. rewrite Hmsg. cbn.
      split; [reflexivity |]. split; [reflexivity |].
      intros _. unfold isLoggedInSearchLogCached. cbn.
      rewrite bool_decide_eq_false_2 by exact Hnot. reflexivity.
    + destruct reply as [msg | u]; cbn.
      * intros Hin. contradiction.
      * intros _. right. split; [exists u; reflexivity | reflexivity].
Qed.

Lemma failed_append_leaves_cache_example :
  let env := services glow_spa (one_page []) rejects unreachable in
  let s' :=
    snd (logBusinessSearch (Some "Glow Spa") (Some "1 Main St")
           (Some "place-a") env initial) in
  existingPlaceIds s' = existingPlaceIds initial
  /\ searchLog s' = searchLog initial
  /\ fst (isLoggedInSearchLogCached (Some "place-a") env s') = Ok false.
Proof.
  intros env.
  destruct (failed_append_leaves_cache (Some "Glow Spa") (Some "1 Main St")
              (Some "place-a") env initial) as (_ & Hfail & _).
  destruct Hfail as (Hc & Hl & Hagain).
  - exists "quota exceeded". reflexivity.
  - split; [exact Hc |]. split; [exact Hl |].
    apply Hagain. cbn. set_solver.
Defined.

(** ** The website class in [index.js] *)

(** What [addToAirtable] does: it asks the table for a record with the
    business name of the lead and, unless the table reports one, attempts
    one creation with the fields of the lead. *)
Lemma addToAirtable_run (v : Variant) (data : Lead) (env : Env) (s : State) :
  let n := length (calls s) in
  let formula :=
    ("{Business Name} = " ++ quote ++ interp (businessName data) ++ quote)%string
  in
  let fields := fields_of v data in
  let store :=
    match airtable_firstPage env n formula with
    | inr (S _) => []
    | inr O | inl _ =>
        [AirtableCreate fields (airtable_create env (S n) fields)]
    end in
  exists s',
    addToAirtable v data env s = (Ok tt, s')
    /\ calls s' = calls s ++ AirtableSelect formula :: store
    /\ airtable s' = airtable s ++ created store
    /\ existingPlaceIds s' = existingPlaceIds s
    /\ searchLog s' = searchLog s.
Proof.
  intros n formula fields store. subst store n.
  unfold addToAirtable, isDuplicate, try_catch, bind, request, no_effect.
  fold formula. fold fields.
  assert (Hlen : length (calls s ++ [AirtableSelect formula])
                 = S (length (calls s))).
  { rewrite length_app. cbn. lia. }
  destruct (airtable_firstPage env (length (calls s)) formula)
    as [msg | [| k]]; cbn [await throw ret Nat.ltb Nat.leb fst snd];
    cbn [calls record_call]; try rewrite Hlen.
  1, 2: destruct (airtable_create env (S (length (calls s))) fields)
          as [msg' | []]; cbn; eexists; (split; [reflexivity |]); cbn;
        rewrite <- ?app_assoc, ?app_nil_r; repeat split; reflexivity.
  eexists. split; [reflexivity |]. cbn. rewrite app_nil_r.
  repeat split; reflexivity.
Qed.

(** C10: in [index.js] a hit that reaches the filters (it has name,
    address and id and is not cached) is handed to the record store
    exactly when it passes the activity, contactability and popularity
    rules, whatever its website class is.  Its lead is then handed to
    [addToAirtable], which asks the table for a record with the business
    name and, unless the table reports one, attempts the creation of the
    record of the lead; the record is in the table exactly when that
    creation resolves; and the hit is logged.  The class is computed only
    then and only stored in the lead, under [websiteQuality], and in the
    record, under "Quality of Website".  A hit that fails a rule makes no
    request after its details request. *)
Theorem website_class_is_not_a_filter (place : Place) (newCount : nat)
    (env : Env) (s : State) :
  let placeId := place_id place in
  let n := length (calls s) in
  let d := details_at Index env n placeId in
  let class := evaluateWebsiteQuality_index (website d) in
  let data :=
    lead_of placeId (businessName_of Index d place) (address_of Index d place)
      d (Some class) in
  let formula :=
    ("{Business Name} = " ++ quote ++ interp (businessName data) ++ quote)%string
  in
  let fields := fields_of Index data in
  let store :=
    match airtable_firstPage env (S (S n)) formula with
    | inr (S _) => []
    | inr O | inl _ =>
        [AirtableCreate fields (airtable_create env (S (S (S n))) fields)]
    end in
  let m := S (S (S n)) + length store in
  let row :=
    {| row_businessName := businessName_of Index d place;
       row_address := address_of Index d place;
       row_date := today env m;
       row_placeId := placeId |} in
  let reply := sheets_values_append env m row in
  placeId ∉ existingPlaceIds s ->
  complete_index d place = true ->
  (activity_rule_index d = true -> contactability_rule_index d = true ->
   popularity_rule_index d = true ->
   exists s',
     processPlace Index place newCount env s = (Ok (S newCount), s')
     /\ since s s'
        = PlaceDetails placeId :: Forward placeId data
          :: AirtableSelect formula :: store ++ [SheetsAppend row reply]
     /\ airtable s' = airtable s ++ created store
     /\ websiteQuality data = Some class
     /\ In ("Quality of Website", Some class) fields)
  /\ (activity_rule_index d && contactability_rule_index d
      && popularity_rule_index d = false ->
      processPlace Index place newCount env s
      = (Ok newCount, record_call (PlaceDetails placeId) s)).
Proof.
  intros placeId n d class data formula fields store m row reply Hnot
    Hcomplete.
  split.
  - intros Ha Hc Hp.
    assert (Hadmit : admit_index d = true)
      by (unfold admit_index; rewrite Ha, Hc, Hp; reflexivity).
    cbn [processPlace].
    rewrite (processPlace_index_filters place newCount env s Hnot Hcomplete).
    fold placeId. fold n. fold d. rewrite Hadmit.
    fold class. fold data.
    set (s1 := record_call (PlaceDetails placeId) s).
    set (s2 := record_call (Forward placeId data) s1).
    assert (Hlen : length (calls s2) = S (S n)).
    { subst s2 s1 n. cbn. rewrite !length_app. cbn. lia. }
    destruct (addToAirtable_run Index data env s2)
      as (s3 & Hadd & Hcalls3 & Htable3 & Hcache3 & Hlog3).
    rewrite Hlen in Hcalls3, Htable3.
    fold formula fields store in Hcalls3, Htable3.
    assert (Hlen3 : length (calls s3) = m).
    { rewrite Hcalls3, length_app, Hlen. cbn [length]. subst m. lia. }
    assert (Hnot3 : placeId ∉ existingPlaceIds s3)
      by (rewrite Hcache3; exact Hnot).
    pose proof (logBusinessSearch_fresh (businessName_of Index d place)
                  (address_of Index d place) placeId env s3 Hnot3) as Hlogged.
    cbn zeta in Hlogged. unfold row_at in Hlogged. rewrite Hlen3 in Hlogged.
    fold row in Hlogged. fold reply in Hlogged.
    exists (match reply with
            | inr _ => logged row reply s3
            | inl _ => record_call (SheetsAppend row reply) s3
            end).
    split; [| split; [| split; [| split; [reflexivity | cbn; tauto]]]].
    + unfold bind, emit. fold s2. rewrite Hadd, Hlogged. reflexivity.
    + assert (Hcalls : calls (match reply with
                              | inr _ => logged row reply s3
                              | inl _ => record_call (SheetsAppend row reply) s3
                              end)
                       = calls s3 ++ [SheetsAppend row reply])
        by (destruct reply; reflexivity).
      unfold since. rewrite Hcalls, Hcalls3. subst s2 s1.
      cbn [calls record_call]. rewrite <- !app_assoc.
      rewrite drop_app_length. reflexivity.
    + assert (Htable : airtable (match reply with
                                 | inr _ => logged row reply s3
                                 | inl _ =>
                                     record_call (SheetsAppend row reply) s3
                                 end) = airtable s3)
        by (destruct reply; reflexivity).
      rewrite Htable, Htable3. reflexivity.
  - intros Hadmit.
    apply (processPlace_index_rejected place newCount env s Hnot Hcomplete
             Hadmit).
Qed.


Lemma website_classes :
  evaluateWebsiteQuality_index None = "No Website"
  /\ evaluateWebsiteQuality_index (Some "https://facebook.com/glowspa")
     = "Poor"
  /\ evaluateWebsiteQuality_index (Some "https://glowspa.example") = "Decent".
Proof. repeat split. Qed.

Lemma website_class_is_not_a_filter_example :
  admitted_with_class None
  /\ admitted_with_class (Some "https://facebook.com/glowspa")
  /\ admitted_with_class (Some "https://glowspa.example").
Proof.
  assert (H : forall url,
             In url [None; Some "https://facebook.com/glowspa";
                     Some "https://glowspa.example"] ->
             admitted_with_class url).
  { intros url Hurl. unfold admitted_with_class.
    set (env := services (with_website url glow_spa) (one_page []) resolves
                  unreachable).
    assert (Hnot : place_id (hit "place-a") ∉ existingPlaceIds initial)
      by (cbn; set_solver).
    destruct (website_class_is_not_a_filter (hit "place-a") 0 env initial
                Hnot) as [Hfwd _]; [reflexivity |].
    destruct Hfwd as (s' & Hrun & Hsince & Htable & Hq & Hin).
    - reflexivity.
    - cbn in Hurl. destruct Hurl as [<- | [<- | [<- | []]]]; reflexivity.
    - reflexivity.
    - exists s'. split; [exact Hrun |]. split; [exact Hsince |].
      split; [exact Htable |]. split; [exact Hq | exact Hin]. }
  split; [| split]; apply H; cbn; tauto.
Defined.

(** ** The qualification decision *)

(** C6, as the code has it: in [index2.js] the decision and the class it
    reports are a function of the record alone, the decision is the
    conjunction of the website, activity, review and rating rules, and it is
    the decision the loop acts on; in the third variant the decision is a
    function of the record and of the page fetched for its website at that
    moment, so two evaluations of one record agree when the fetch answers
    alike, and an admitted record passed the website rule as it was then
    and the activity, review and rating rules. *)
Theorem qualification_decision (d : Details) :
  (fst (qualify_index2 d) = true
   <-> evaluateWebsiteQuality_index2 (website d) = "No Website"
       /\ not_operational d = false /\ few_reviews_index2 d = false
       /\ low_rating_index2 d = false)
  /\ snd (qualify_index2 d) = evaluateWebsiteQuality_index2 (website d)
  /\ (forall place newCount env s,
        place_id place ∉ existingPlaceIds s ->
        details_at Index2 env (length (calls s)) (place_id place) = d ->
        let r := processPlace Index2 place newCount env s in
        fst r = Ok (if fst (qualify_index2 d) then S newCount else newCount)
        /\ count is_forward (since s (snd r))
           = (if fst (qualify_index2 d) then 1 else 0))
  /\ (forall env s,
        fst (qualify_part000 d env s)
        = Ok (screen_part000
                (website_rule_part000 env (length (calls s)) d) d))
  /\ (forall env1 s1 env2 s2,
        (forall u, website d = Some u ->
           http_get env1 (length (calls s1)) u
           = http_get env2 (length (calls s2)) u) ->
        fst (qualify_part000 d env1 s1) = fst (qualify_part000 d env2 s2))
  /\ (forall env s,
        fst (qualify_part000 d env s) = Ok true ->
        website_rule_part000 env (length (calls s)) d = true
        /\ not_operational d = false /\ few_reviews_part000 d = false
        /\ low_rating_part000 d = false).
Proof.
  split; [| split; [| split; [| split; [| split]]]].
  - rewrite qualify_index2_admit, !andb_true_iff, !negb_true_iff.
    rewrite String.eqb_eq. tauto.
  - reflexivity.
  - intros place newCount env s Hnot Hd r. subst r.
    destruct (processPlace_index2_fresh place newCount env s Hnot)
      as (s' & Hrun & _ & Hfw).
    rewrite Hd in Hrun, Hfw. cbn [processPlace]. rewrite Hrun.
    split; [reflexivity | exact Hfw].
  - intros env s. apply qualify_part000_run.
  - intros env1 s1 env2 s2 Hpage. rewrite !qualify_part000_run.
    rewrite (website_rule_part000_ext env1 env2 _ _ d Hpage). reflexivity.
  - intros env s. rewrite qualify_part000_run, screen_part000_admit.
    intros H. injection H as H.
    rewrite !andb_true_iff, !negb_true_iff in H. tauto.
Qed.

Lemma qualification_decision_example :
  let env := services glow_spa (one_page []) resolves flaky in
  fst (qualify_part000 glow_spa env initial)
  = fst (qualify_part000 glow_spa env (having []))
  /\ (website_rule_part000 env 0 glow_spa = true
      /\ not_operational glow_spa = false
      /\ few_reviews_part000 glow_spa = false
      /\ low_rating_part000 glow_spa = false).
Proof.
  intros env.
  destruct (qualification_decision glow_spa)
    as (_ & _ & _ & _ & Hsame & Hrules).
  split.
  - apply Hsame. intros u _. reflexivity.
  - apply (Hrules env initial). reflexivity.
Defined.

(** C6 as stated fails in the third variant: the same record is admitted
    while its page cannot be fetched and rejected once the page answers. *)
Lemma same_record_two_decisions :
  let env := services glow_spa (one_page []) resolves flaky in
  fst (qualify_part000 glow_spa env initial) = Ok true
  /\ fst (qualify_part000 glow_spa env (record_call SheetsGet initial))
     = Ok false.
Proof.
  cbv zeta. split; vm_compute; reflexivity.
Qed.

(** ** The paginated search *)

(** One turn of the loop. *)
Lemma searchPlaces_loop_turn (v : Variant) (fuel : nat) (query : string)
    (location : Coordinate) (maxResults : nat) (allResults : list Place)
    (nextPageToken : JsStr) (env : Env) (s : State) :
  let q := page_query v query location nextPageToken in
  let reply := places_textsearch env (length (calls s)) q in
  let s1 := record_call (TextSearch q reply) s in
  searchPlaces_loop v (S fuel) query location maxResults allResults
    nextPageToken env s
  = match reply with
    | inl msg => (Throw msg, s1)
    | inr res =>
        if checks_error v && truthy (error_message res)
        then (Throw (interp (error_message res)), s1)
        else if more maxResults allResults res
        then searchPlaces_loop v fuel query location maxResults
               (allResults ++ page_results res) (next_page_token res) env s1
        else (Ok (take maxResults (allResults ++ page_results res)), s1)
    end.
Proof.
  intros q reply s1. cbn [searchPlaces_loop].
  fold (page_query v query location nextPageToken). fold q.
  unfold bind at 1. unfold request at 1. cbn [no_effect]. fold reply. fold s1.
  destruct reply as [msg | res]; [reflexivity |].
  unfold bind, await, ret.
  replace (match v with
           | Part000 => truthy (error_message res)
           | _ => false
           end) with (checks_error v && truthy (error_message res))
    by (destruct v; reflexivity).
  destruct (checks_error v && truthy (error_message res)); [reflexivity |].
  unfold more, page_results.
  destruct (truthy (next_page_token res) && _); reflexivity.
Qed.

(** A search that returns fetched a paged sequence of pages, none with an
    error payload in the third variant, and returns their hits cut to
    [maxResults]. *)
Lemma searchPlaces_loop_returns (v : Variant) (fuel : nat) (query : string)
    (location : Coordinate) (maxResults : nat) :
  forall (allResults : list Place) (nextPageToken : JsStr) (env : Env)
         (s s' : State) (hits : list Place),
    searchPlaces_loop v fuel query location maxResults allResults
      nextPageToken env s = (Ok hits, s') ->
    exists reqs,
      calls s' = calls s ++ map page_request reqs
      /\ paged maxResults allResults (map snd reqs)
      /\ hits = take maxResults (allResults ++ hits_of (map snd reqs))
      /\ (checks_error v = true ->
          Forall (fun p => truthy (error_message p) = false) (map snd reqs)).
Proof.
  induction fuel as [| fuel IH];
    intros allResults nextPageToken env s s' hits Hrun.
  - discriminate.
  - rewrite searchPlaces_loop_turn in Hrun. cbv zeta in Hrun.
    set (q := page_query v query location nextPageToken) in *.
    destruct (places_textsearch env (length (calls s)) q) as [msg | res]
      eqn:Hreply; [discriminate |].
    destruct (checks_error v && truthy (error_message res)) eqn:Herr;
      [discriminate |].
    assert (Hclean : checks_error v = true ->
                     truthy (error_message res) = false).
    { intros Hv. rewrite Hv in Herr. exact Herr. }
    destruct (more maxResults allResults res) eqn:Hmore.
    + apply IH in Hrun as (reqs & Hcalls & Hpaged & Hhits & Hnoerr).
      exists ((q, res) :: reqs). cbn [map snd fst].
      split; [| split; [| split]].
      * rewrite Hcalls. cbn [calls record_call]. rewrite <- app_assoc.
        reflexivity.
      * cbn [paged]. destruct (map snd reqs) eqn:E; [destruct Hpaged |].
        split; [exact Hmore | exact Hpaged].
      * rewrite Hhits. unfold hits_of. cbn [map concat].
        rewrite app_assoc. reflexivity.
      * intros Hv. constructor; [apply Hclean, Hv | apply Hnoerr, Hv].
    + injection Hrun as <- <-.
      exists [(q, res)]. cbn [map snd fst].
      split; [reflexivity |]. split; [exact Hmore |].
      split.
      * unfold hits_of. cbn [map concat]. rewrite app_nil_r. reflexivity.
      * intros Hv. constructor; [apply Hclean, Hv | constructor].
Qed.

(** How a search can fail: in the third variant on the first error
    payload, with its message; in every variant on a rejected request.
    A page with an error payload is never followed by anything in the
    third variant. *)
Lemma searchPlaces_loop_failures (v : Variant) (fuel : nat) (query : string)
    (location : Coordinate) (maxResults : nat) :
  forall (allResults : list Place) (nextPageToken : JsStr) (env : Env)
         (s s' : State) (r : Outcome (list Place)),
    searchPlaces_loop v fuel query location maxResults allResults
      nextPageToken env s = (r, s') ->
    exists evs,
      calls s' = calls s ++ evs
      /\ (checks_error v = true ->
          forall q rep,
            In (TextSearch q (inr rep)) evs ->
            truthy (error_message rep) = true ->
            r = Throw (interp (error_message rep)))
      /\ (checks_error v = false ->
          forall msg,
            r = Throw msg -> exists q, last evs = Some (TextSearch q (inl msg))).
Proof.
  induction fuel as [| fuel IH];
    intros allResults nextPageToken env s s' r Hrun.
  - injection Hrun as <- <-. exists []. rewrite app_nil_r.
    split; [reflexivity |]. split.
    + intros _ q rep [].
    + intros _ msg Hmsg. discriminate.
  - rewrite searchPlaces_loop_turn in Hrun. cbv zeta in Hrun.
    set (q0 := page_query v query location nextPageToken) in *.
    destruct (places_textsearch env (length (calls s)) q0) as [msg0 | res]
      eqn:Hreply.
    { injection Hrun as <- <-. exists [TextSearch q0 (inl msg0)].
      split; [reflexivity |]. split.
      - intros _ q rep [Heq | []]. discriminate.
      - intros _ msg Hmsg. injection Hmsg as <-. exists q0. reflexivity. }
    destruct (checks_error v && truthy (error_message res)) eqn:Herr.
    { injection Hrun as <- <-. exists [TextSearch q0 (inr res)].
      apply andb_true_iff in Herr as [Hv Herr].
      split; [reflexivity |]. split.
      - intros _ q rep [Heq | []] _. injection Heq as _ <-. reflexivity.
      - intros Hv'. congruence. }
    assert (Hclean : checks_error v = true ->
                     truthy (error_message res) = false).
    { intros Hv. rewrite Hv in Herr. exact Herr. }
    destruct (more maxResults allResults res).
    + apply IH in Hrun as (evs & Hcalls & Hstrict & Hloose).
      exists (TextSearch q0 (inr res) :: evs).
      split; [| split].
      * rewrite Hcalls. cbn [calls record_call]. rewrite <- app_assoc.
        reflexivity.
      * intros Hv q rep [Heq | Hin] Hbad.
        -- injection Heq as _ <-. rewrite (Hclean Hv) in Hbad. discriminate.
        -- apply (Hstrict Hv q rep Hin Hbad).
      * intros Hv msg Hmsg.
        destruct (Hloose Hv msg Hmsg) as [q Hlast]. exists q.
        destruct evs as [| e evs]; [discriminate |].
        rewrite last_cons, Hlast. reflexivity.
    + injection Hrun as <- <-. exists [TextSearch q0 (inr res)].
      split; [reflexivity |]. split.
      * intros Hv q rep [Heq | []] Hbad.
        injection Heq as _ <-. rewrite (Hclean Hv) in Hbad. discriminate.
      * intros _ msg Hmsg. discriminate.
Qed.

Lemma since_app (s s' : State) (evs : list Call) :
  calls s' = calls s ++ evs -> since s s' = evs.
Proof. intros H. unfold since. rewrite H. apply drop_app_length. Qed.

(** Against a productive service the loop ends within [maxResults] pages
    of the one that is due. *)
Lemma searchPlaces_loop_ends (v : Variant) (query : string)
    (location : Coordinate) (maxResults : nat) (env : Env) :
  productive env ->
  forall (fuel : nat) (allResults : list Place) (nextPageToken : JsStr)
         (s : State),
    maxResults - length allResults < fuel ->
    fst (searchPlaces_loop v fuel query location maxResults allResults
           nextPageToken env s) <> OutOfFuel.
Proof.
  intros Hprod fuel.
  induction fuel as [| fuel IH]; intros allResults nextPageToken s Hfuel.
  - lia.
  - rewrite searchPlaces_loop_turn. cbv zeta.
    set (q0 := page_query v query location nextPageToken).
    destruct (places_textsearch env (length (calls s)) q0) as [msg0 | res]
      eqn:Hreply; [discriminate |].
    destruct (checks_error v && truthy (error_message res)); [discriminate |].
    destruct (more maxResults allResults res) eqn:Hmore; [| discriminate].
    apply IH. unfold more in Hmore.
    apply andb_true_iff in Hmore as [Htoken Hbelow].
    apply Nat.ltb_lt in Hbelow. rewrite length_app in *.
    pose proof (Hprod _ _ _ Hreply Htoken) as Hne.
    destruct (page_results res) as [| p ps]; [contradiction |].
    cbn [length] in *. lia.
Qed.

(** C4, as the code has it: in the third variant, when a page fetched by
    [searchPlaces] carries an error payload, the call throws an error with
    the upstream message and returns no hits; [index.js] and [index2.js]
    never look at the payload, and their search fails only when a request
    itself is rejected. *)
Theorem searchPlaces_error_payload (v : Variant) (fuel : nat)
    (query : string) (location : Coordinate) (maxResults : nat) (env : Env)
    (s s' : State) (r : Outcome (list Place)) :
  searchPlaces v fuel query location maxResults env s = (r, s') ->
  (checks_error v = true ->
   forall q rep,
     In (TextSearch q (inr rep)) (since s s') ->
     truthy (error_message rep) = true ->
     r = Throw (interp (error_message rep)))
  /\ (checks_error v = false ->
      forall msg,
        r = Throw msg ->
        exists q, last (since s s') = Some (TextSearch q (inl msg))).
Proof.
  intros Hrun. unfold searchPlaces in Hrun.
  apply searchPlaces_loop_failures in Hrun as (evs & Hcalls & Hstrict & Hloose).
  rewrite (since_app s s' evs Hcalls). split; assumption.
Qed.

Lemma searchPlaces_error_payload_example :
  let env := services glow_spa then_quota resolves unreachable in
  fst (searchPlaces Part000 5 "med spa" downtown 60 env initial)
  = Throw "OVER_QUERY_LIMIT".
Proof.
  intros env.
  pose proof (searchPlaces_error_payload Part000 5 "med spa" downtown 60 env
                initial _ _ (surjective_pairing _)) as [Hstrict _].
  apply (Hstrict eq_refl
           (page_query Part000 "med spa" downtown (Some "token-1"))
           {| results := None; next_page_token := None;
              error_message := Some "OVER_QUERY_LIMIT" |}).
  - vm_compute. right. left. reflexivity.
  - reflexivity.
Defined.

(** C4 as stated fails in [index.js] and [index2.js]: the second page
    carries the error payload and the call returns the two hits of the
    first page. *)
Lemma error_payload_ignored :
  let env := services glow_spa then_quota resolves unreachable in
  places_textsearch env 1
    (page_query Index "med spa" downtown (Some "token-1"))
  = inr {| results := None; next_page_token := None;
           error_message := Some "OVER_QUERY_LIMIT" |}
  /\ fst (searchPlaces Index 5 "med spa" downtown 60 env initial)
     = Ok [hit "place-a"; hit "place-b"]
  /\ fst (searchPlaces Index2 5 "med spa" downtown 60 env initial)
     = Ok [hit "place-a"; hit "place-b"]
  /\ length (calls (snd (searchPlaces Index 5 "med spa" downtown 60 env
                           initial))) = 2.
Proof.
  cbv zeta. repeat split; vm_compute; reflexivity.
Qed.

(** C5: a search that returns has fetched whole pages, one after the
    other for as long as the last page carried a token and fewer than
    [maxResults] hits were there, and returns the hits of these pages cut
    to [maxResults], so never more than [maxResults]; when the first reply
    carries no token, one request is made and no other; and against a
    service that never sends an empty page with a token, more than
    [maxResults] pages of fuel always suffice. *)
Theorem searchPlaces_capped (v : Variant) (query : string)
    (location : Coordinate) (maxResults : nat) (env : Env) (s : State) :
  (forall fuel hits s',
     searchPlaces v fuel query location maxResults env s = (Ok hits, s') ->
     length hits <= maxResults
     /\ exists reqs,
          since s s' = map page_request reqs
          /\ paged maxResults [] (map snd reqs)
          /\ hits = take maxResults (hits_of (map snd reqs)))
  /\ (forall fuel rep,
        places_textsearch env (length (calls s))
          (page_query v query location None) = inr rep ->
        truthy (next_page_token rep) = false ->
        let r := searchPlaces v (S fuel) query location maxResults env s in
        since s (snd r)
        = [TextSearch (page_query v query location None) (inr rep)]
        /\ fst r
           = (if checks_error v && truthy (error_message rep)
              then Throw (interp (error_message rep))
              else Ok (take maxResults (page_results rep))))
  /\ (productive env ->
      forall fuel,
        maxResults < fuel ->
        fst (searchPlaces v fuel query location maxResults env s)
        <> OutOfFuel).
Proof.
  split; [| split].
  - intros fuel hits s' Hrun. unfold searchPlaces in Hrun.
    apply searchPlaces_loop_returns in Hrun
      as (reqs & Hcalls & Hpaged & Hhits & _).
    split.
    + rewrite Hhits. rewrite length_take. lia.
    + exists reqs. split; [apply since_app, Hcalls |].
      split; [exact Hpaged | exact Hhits].
  - intros fuel rep Hreply Htoken r. subst r.
    unfold searchPlaces. rewrite searchPlaces_loop_turn. cbv zeta.
    rewrite Hreply.
    destruct (checks_error v && truthy (error_message rep)).
    + split; [| reflexivity]. cbn [snd]. apply since_app. reflexivity.
    + unfold more. rewrite Htoken. cbn [andb].
      split; [| reflexivity]. cbn [snd]. apply since_app. reflexivity.
  - intros Hprod fuel Hfuel. unfold searchPlaces.
    apply searchPlaces_loop_ends; [exact Hprod | cbn; lia].
Qed.

Lemma searchPlaces_capped_example :
  let env := services glow_spa two_pages resolves unreachable in
  (fst (searchPlaces Index 5 "med spa" downtown 60 env initial)
   = Ok [hit "place-a"; hit "place-b"; hit "place-c"]
   /\ length [hit "place-a"; hit "place-b"; hit "place-c"] <= 60)
  /\ (fst (searchPlaces Index 5 "med spa" downtown 1 env initial)
      = Ok [hit "place-a"]
      /\ length (calls (snd (searchPlaces Index 5 "med spa" downtown 1 env
                               initial))) = 1)
  /\ (let r := searchPlaces Index 1 "med spa" downtown 60 env
                 (record_call SheetsGet initial) in
      since (record_call SheetsGet initial) (snd r)
      = [TextSearch (page_query Index "med spa" downtown None)
           (two_pages 1)]
      /\ fst r = Ok [hit "place-c"])
  /\ fst (searchPlaces Index 61 "med spa" downtown 60 env initial)
     <> OutOfFuel.
Proof.
  intros env. split; [| split; [| split]].
  - split; [vm_compute; reflexivity |].
    destruct (searchPlaces_capped Index "med spa" downtown 60 env initial)
      as (Hcap & _ & _).
    apply (Hcap 5 _ _ (surjective_pairing _)).
  - split; vm_compute; reflexivity.
  - destruct (searchPlaces_capped Index "med spa" downtown 60 env
                (record_call SheetsGet initial)) as (_ & Hone & _).
    apply (Hone 0); reflexivity.
  - destruct (searchPlaces_capped Index "med spa" downtown 60 env initial)
      as (_ & _ & Hend).
    apply Hend; [| lia].
    intros n q rep Hreply Htoken.
    destruct n; cbn in Hreply; injection Hreply as <-;
      [discriminate | discriminate].
Defined.

(** ** The deduplication invariant of a run *)

Lemma appended_app (tr1 tr2 : list Call) :
  appended (tr1 ++ tr2) = appended tr1 ++ appended tr2.
Proof.
  induction tr1 as [| c tr1 IH]; [reflexivity |].
  destruct c as [| row [msg | u] | | | | | |]; cbn; rewrite ?IH; reflexivity.
Qed.

Lemma appended_calm (placeId : JsStr) (evs : list Call) :
  forallb (calm placeId) evs = true -> appended evs = [].
Proof.
  induction evs as [| c evs IH]; [reflexivity |]. cbn [forallb].
  intros H. apply andb_true_iff in H as [Hc Hevs].
  destruct c; try discriminate; cbn; apply IH, Hevs.
Qed.

Lemma guarded_mono (seen seen' : gset JsStr) (tr : list Call) :
  seen' ⊆ seen -> guarded seen tr -> guarded seen' tr.
Proof.
  revert seen seen'. induction tr as [| c tr IH]; intros seen seen' Hsub;
    [trivial |].
  destruct c as [| row [msg | u] | | | | | | p data]; cbn; eauto.
  - apply IH. set_solver.
  - intros [Hp Hrest]. split; [set_solver | eauto].
Qed.

Lemma guarded_app (seen : gset JsStr) (tr1 tr2 : list Call) :
  guarded seen tr1 -> guarded (cache_after seen tr1) tr2 ->
  guarded seen (tr1 ++ tr2).
Proof.
  revert seen. induction tr1 as [| c tr1 IH]; intros seen H1 H2.
  - cbn. eapply guarded_mono; [| exact H2]. unfold cache_after. cbn.
    set_solver.
  - destruct c as [| row [msg | u] | | | | | | p data]; cbn in *;
      try (apply IH; assumption).
    + apply IH; [exact H1 |]. eapply guarded_mono; [| exact H2].
      unfold cache_after. cbn. set_solver.
    + destruct H1 as [Hp H1]. split; [exact Hp |]. apply IH; assumption.
Qed.

(** A lead handed over somewhere in a guarded trace was not cached then. *)
Lemma guarded_split (seen : gset JsStr) (tr pre post : list Call)
    (p : JsStr) (data : Lead) :
  guarded seen tr -> tr = pre ++ Forward p data :: post ->
  p ∉ cache_after seen pre.
Proof.
  intros H ->. revert seen H.
  induction pre as [| c pre IH]; intros seen H.
  - cbn in H. unfold cache_after. cbn. set_solver.
  - destruct c as [| row [msg | u] | | | | | | p' data']; cbn in H;
      try (apply IH in H; unfold cache_after in *; cbn; exact H).
    + apply IH in H. unfold cache_after in *. cbn. set_solver.
    + destruct H as [_ H]. apply IH in H. unfold cache_after in *. cbn.
      exact H.
Qed.

Lemma guarded_calm (seen : gset JsStr) (placeId : JsStr) (evs : list Call) :
  placeId ∉ seen -> forallb (calm placeId) evs = true -> guarded seen evs.
Proof.
  intros Hnot. induction evs as [| c evs IH]; [intros _; exact I |].
  cbn [forallb]. intros H. apply andb_true_iff in H as [Hc Hevs].
  destruct c as [| row reply | | | | | | p data]; cbn in *;
    try (apply IH; assumption); try discriminate.
  apply bool_decide_eq_true_1 in Hc. subst p.
  split; [exact Hnot | apply IH; assumption].
Qed.

Lemma count_calm_forward (placeId p : JsStr) (evs : list Call) :
  forallb (calm placeId) evs = true ->
  count (forward_of p) evs
  <= (if bool_decide (p = placeId) then count is_forward evs else 0).
Proof.
  induction evs as [| c evs IH]; cbn [forallb].
  - intros _. destruct (bool_decide (p = placeId)); constructor.
  - intros H. apply andb_true_iff in H as [Hc Hevs]. specialize (IH Hevs).
    unfold count in *.
    destruct c as [| row reply | | | | | | p' data]; cbn in *;
      try exact IH; try discriminate.
    apply bool_decide_eq_true_1 in Hc. subst p'.
    destruct (decide (placeId = p)) as [-> | Hne].
    + rewrite !bool_decide_eq_true_2 in * by reflexivity. cbn. lia.
    + rewrite (bool_decide_eq_false_2 (placeId = p)) by exact Hne.
      rewrite (bool_decide_eq_false_2 (p = placeId)) in * by congruence.
      exact IH.
Qed.

Lemma count_calm_append (placeId p : JsStr) (evs : list Call) :
  forallb (calm placeId) evs = true -> count (append_of p) evs = 0.
Proof.
  induction evs as [| c evs IH]; [reflexivity |]. cbn [forallb].
  intros H. apply andb_true_iff in H as [Hc Hevs]. specialize (IH Hevs).
  unfold count in *.
  destruct c; cbn in *; try exact IH; discriminate.
Qed.

Lemma count_benign (kind : Call -> bool) (evs : list Call) :
  (forall c, benign c = true -> kind c = false) ->
  forallb benign evs = true -> count kind evs = 0.
Proof.
  intros Hkind. induction evs as [| c evs IH]; [reflexivity |].
  cbn [forallb]. intros H. apply andb_true_iff in H as [Hc Hevs].
  unfold count in *. cbn. rewrite (Hkind c Hc). apply IH, Hevs.
Qed.

Lemma guarded_benign (seen : gset JsStr) (evs : list Call) :
  forallb benign evs = true -> guarded seen evs.
Proof.
  induction evs as [| c evs IH]; [intros _; exact I |].
  cbn [forallb]. intros H. apply andb_true_iff in H as [Hc Hevs].
  destruct c; cbn in *; try (apply IH; assumption); discriminate.
Qed.

Lemma Inv_quiet (loaded : gset JsStr) (s s' : State) :
  Inv loaded s -> quiet s s' -> Inv loaded s'.
Proof.
  intros [Hcache Hlog Hnodup Hfresh Hbal Hguard]
         (Hc & Hl & evs & Hcalls & Hb).
  pose proof (appended_calm None evs (benign_calm None evs Hb)) as Happ.
  assert (Hsame : appended (calls s') = appended (calls s))
    by (rewrite Hcalls, appended_app, Happ; apply app_nil_r).
  constructor.
  - rewrite Hc, Hcache. unfold cache_after. rewrite Hsame. reflexivity.
  - rewrite Hl, Hlog, Hsame. reflexivity.
  - rewrite Hsame. exact Hnodup.
  - rewrite Hsame. exact Hfresh.
  - intros p. rewrite Hcalls, !count_app.
    rewrite (count_benign (forward_of p) evs), (count_benign (append_of p) evs);
      try exact Hb; try (intros [] Hc'; try reflexivity; discriminate).
    rewrite !Nat.add_0_r. apply Hbal.
  - rewrite Hcalls. apply guarded_app; [exact Hguard |].
    apply guarded_benign, Hb.
Qed.

Lemma Inv_logs_once (loaded : gset JsStr) (placeId : JsStr) (s s' : State) :
  Inv loaded s -> placeId ∉ existingPlaceIds s -> logs_once placeId s s' ->
  Inv loaded s'.
Proof.
  intros [Hcache Hlog Hnodup Hfresh Hbal Hguard] Hnot
         (evs & row & reply & Hcalls & Hcalm & Hfw & Hrow & Hreply).
  pose proof (appended_calm placeId evs Hcalm) as Happ.
  assert (Hnew : appended (calls s')
                 = appended (calls s)
                   ++ match reply with
                      | inr _ => [row]
                      | inl _ => []
                      end).
  { rewrite Hcalls, !appended_app, Happ. destruct reply; reflexivity. }
  rewrite Hcache in Hnot. unfold cache_after in Hnot.
  assert (HnotL : placeId ∉ loaded) by set_solver.
  assert (Hnotlog : placeId ∉ map row_placeId (appended (calls s))).
  { intros Hin. apply Hnot. apply elem_of_union_r.
    apply elem_of_list_to_set. exact Hin. }
  constructor.
  - unfold cache_after. rewrite Hnew. destruct reply as [msg | u].
    + destruct Hreply as [-> _]. rewrite app_nil_r. exact Hcache.
    + destruct Hreply as [-> _]. rewrite Hcache. unfold cache_after.
      rewrite map_app, list_to_set_app_L. cbn. rewrite Hrow. set_solver.
  - rewrite Hnew. destruct reply as [msg | u].
    + destruct Hreply as [_ ->]. rewrite app_nil_r. exact Hlog.
    + destruct Hreply as [_ ->]. rewrite Hlog. reflexivity.
  - rewrite Hnew. destruct reply as [msg | u].
    + rewrite app_nil_r. exact Hnodup.
    + rewrite map_app. apply NoDup_app. split; [exact Hnodup |]. split.
      * intros p Hp Hp'. cbn in Hp'. apply list_elem_of_singleton in Hp'.
        subst p. rewrite Hrow in Hp. contradiction.
      * cbn. apply NoDup_singleton.
  - rewrite Hnew. intros row' Hin. apply elem_of_app in Hin as [Hin | Hin].
    + apply Hfresh, Hin.
    + destruct reply as [msg | u]; [inversion Hin |].
      apply list_elem_of_singleton in Hin. subst row'. rewrite Hrow.
      exact HnotL.
  - intros p. rewrite Hcalls, !count_app.
    pose proof (count_calm_forward placeId p evs Hcalm) as Hf.
    rewrite (count_calm_append placeId p evs Hcalm).
    specialize (Hbal p).
    assert (Hlast_f : count (forward_of p) [SheetsAppend row reply] = 0)
      by reflexivity.
    assert (Hlast_a : count (append_of p) [SheetsAppend row reply]
                      = if bool_decide (p = placeId) then 1 else 0).
    { unfold count. cbn. rewrite Hrow.
      destruct (decide (p = placeId)) as [-> | Hne].
      - rewrite !bool_decide_eq_true_2 by reflexivity. reflexivity.
      - rewrite (bool_decide_eq_false_2 (p = placeId)) by exact Hne.
        rewrite (bool_decide_eq_false_2 (placeId = p)) by congruence.
        reflexivity. }
    rewrite Hlast_f, Hlast_a.
    destruct (bool_decide (p = placeId)); lia.
  - rewrite Hcalls. apply guarded_app; [exact Hguard |].
    apply guarded_app.
    + apply (guarded_calm _ placeId); [| exact Hcalm].
      unfold cache_after. set_solver.
    + destruct reply; exact I.
Qed.

Section Steady.
Context (loaded : gset JsStr).

Lemma steady_ret {A} (a : A) : steady loaded (ret a).
Proof. intros env s H. exact H. Qed.

Lemma steady_bind {A B} (m : M A) (k : A -> M B) :
  steady loaded m -> (forall a, steady loaded (k a)) ->
  steady loaded (bind m k).
Proof.
  intros Hm Hk env s H. unfold bind. specialize (Hm env s H).
  destruct (m env s) as [[a | msg |] s1]; cbn in *.
  - apply Hk, Hm.
  - exact Hm.
  - exact Hm.
Qed.

Lemma steady_try_catch {A} (m : M A) (h : string -> M A) :
  steady loaded m -> (forall msg, steady loaded (h msg)) ->
  steady loaded (try_catch m h).
Proof.
  intros Hm Hh env s H. unfold try_catch. specialize (Hm env s H).
  destruct (m env s) as [[a | msg |] s1]; cbn in *.
  - exact Hm.
  - apply Hh, Hm.
  - exact Hm.
Qed.

Lemma steady_quietly {A} (m : M A) : quietly m -> steady loaded m.
Proof. intros Hq env s H. apply (Inv_quiet loaded s); [exact H | apply Hq]. Qed.

Lemma steady_for_of {A} (xs : list A) (body : A -> M unit) :
  (forall x, steady loaded (body x)) -> steady loaded (for_of xs body).
Proof.
  intros Hbody. induction xs as [| x xs IH]; cbn [for_of].
  - apply steady_ret.
  - apply steady_bind; [apply Hbody | intros _; exact IH].
Qed.

Lemma steady_processPlace (v : Variant) (place : Place) (newCount : nat) :
  steady loaded (processPlace v place newCount).
Proof.
  intros env s H.
  destruct (decide (place_id place ∈ existingPlaceIds s)) as [Hin | Hnot].
  - rewrite (processPlace_cached v place newCount env s Hin). cbn [snd].
    apply (Inv_quiet loaded s); [exact H |].
    apply quiet_record_call. reflexivity.
  - destruct v; cbn [processPlace].
    + destruct (complete_index
                  (details_at Index env (length (calls s)) (place_id place))
                  place) eqn:Hcomplete.
      * destruct (admit_index
                    (details_at Index env (length (calls s))
                       (place_id place))) eqn:Hadmit.
        -- destruct (processPlace_index_fresh place newCount env s Hnot
                       Hcomplete Hadmit) as (s' & -> & Honce & _).
           apply (Inv_logs_once loaded (place_id place) s); assumption.
        -- rewrite (processPlace_index_rejected place newCount env s Hnot
                      Hcomplete Hadmit).
           apply (Inv_quiet loaded s); [exact H |].
           apply quiet_record_call. reflexivity.
      * rewrite (processPlace_index_incomplete place newCount env s
                   Hcomplete).
        apply (Inv_quiet loaded s); [exact H |].
        apply quiet_record_call. reflexivity.
    + destruct (processPlace_index2_fresh place newCount env s Hnot)
        as (s' & -> & Honce & _).
      apply (Inv_logs_once loaded (place_id place) s); assumption.
    + destruct (processPlace_part000_fresh place newCount env s Hnot)
        as (verdict & s' & _ & -> & Honce & _).
      apply (Inv_logs_once loaded (place_id place) s); assumption.
Qed.

Lemma steady_bucket (v : Variant) (results : list Place) (newCount : nat) :
  steady loaded (bucket v results newCount).
Proof.
  revert newCount.
  induction results as [| place rest IH]; intros newCount; cbn [bucket].
  - apply steady_ret.
  - destruct (NEW_RESULTS_LIMIT v <=? newCount); [apply steady_ret |].
    apply steady_bind; [apply steady_processPlace | exact IH].
Qed.

Lemma steady_sweep (v : Variant) (fuel : nat) (keyword : string)
    (point : Coordinate) :
  steady loaded (sweep v fuel keyword point).
Proof.
  unfold sweep.
  apply steady_bind; [apply steady_quietly, quietly_searchPlaces |].
  intros results.
  apply steady_bind; [apply steady_bucket | intros _; apply steady_ret].
Qed.

End Steady.

Lemma loadExistingBusinesses_run (v : Variant) (env : Env) :
  exists ids,
    loadExistingBusinesses v env initial = (Ok tt, loaded_state ids).
Proof.
  unfold loadExistingBusinesses, try_catch, bind, request, await, no_effect.
  cbn [calls initial length].
  destruct (sheets_values_get env 0) as [msg | values]; cbn.
  - destruct v; cbn; eexists; reflexivity.
  - eexists. reflexivity.
Qed.

Lemma Inv_loaded_state (ids : gset JsStr) : Inv ids (loaded_state ids).
Proof.
  constructor; cbn.
  - unfold cache_after. cbn. set_solver.
  - reflexivity.
  - constructor.
  - intros row Hin. inversion Hin.
  - intros p. constructor.
  - exact I.
Qed.

(** The invariant holds at the end of every run, however the run ends. *)
Lemma run_Inv (v : Variant) (env : Env) (fuel : nat) (cities : list City) :
  Inv (existingPlaceIds (snd (loadExistingBusinesses v env initial)))
    (snd (run v env fuel cities)).
Proof.
  destruct (loadExistingBusinesses_run v env) as [ids Hload].
  rewrite Hload. cbn [snd existingPlaceIds loaded_state].
  unfold run, main.
  assert (Hindex : forall v' : Variant,
             steady ids
               (for_of cities (fun city =>
                  for_of (generateCityGrid (coords city)) (fun point =>
                    for_of (keywords v') (fun keyword =>
                      sweep v' fuel keyword point))))).
  { intros v'. apply steady_for_of. intros city.
    apply steady_for_of. intros point.
    apply steady_for_of. intros keyword. apply steady_sweep. }
  destruct v.
  - unfold bind at 1. rewrite Hload. apply Hindex, Inv_loaded_state.
  - unfold bind at 1. rewrite Hload. apply Hindex, Inv_loaded_state.
  - unfold try_catch. unfold bind at 1. rewrite Hload.
    match goal with
    | |- Inv _ (snd (match ?m with _ => _ end)) =>
        assert (Hloops : Inv ids (snd m));
          [| destruct m as [[[] | msg |] s1]; exact Hloops]
    end.
    apply steady_for_of; [| apply Inv_loaded_state]. intros city.
    apply steady_for_of. intros keyword. apply steady_sweep.
Qed.

Lemma rows_of_NoDup (placeId : JsStr) (log : list Row) :
  NoDup (map row_placeId log) -> length (rows_of placeId log) <= 1.
Proof.
  induction log as [| row log IH]; cbn; [lia |].
  intros Hnodup. apply NoDup_cons in Hnodup as [Hnotin Hnodup].
  specialize (IH Hnodup).
  destruct (decide (row_placeId row = placeId)) as [Heq | Hne].
  - rewrite bool_decide_eq_true_2 by exact Heq. cbn.
    assert (Hnone : rows_of placeId log = []).
    { clear IH Hnodup. induction log as [| row' log IH]; [reflexivity |].
      cbn. cbn in Hnotin. apply not_elem_of_cons in Hnotin as [Hne Hnotin].
      rewrite bool_decide_eq_false_2 by congruence. apply IH, Hnotin. }
    unfold rows_of in Hnone. rewrite Hnone. cbn. lia.
  - rewrite bool_decide_eq_false_2 by exact Hne. exact IH.
Qed.

(** An append either put its row in the log or failed. *)
Lemma count_append_of (placeId : JsStr) (tr : list Call) :
  count (append_of placeId) tr
  = length (rows_of placeId (appended tr))
    + count (failed_append_of placeId) tr.
Proof.
  unfold count, rows_of. induction tr as [| c tr IH]; [reflexivity |].
  destruct c as [| row [msg | u] | | | | | |]; cbn; try exact IH.
  - destruct (bool_decide (row_placeId row = placeId)); cbn; lia.
  - destruct (bool_decide (row_placeId row = placeId)); cbn; lia.
Qed.

(** C1: in every run and for every place id, at most one row with that id
    is appended to the search log: the log holds exactly the rows of the
    appends that resolved, the cache holds the loaded ids and the ids of
    these rows, and an append is made only for an id that is not in the
    cache.  No lead is handed to the table for an id while that id is in
    the cache, and the leads handed over for one id are at most one more
    than the appends for it that failed: at most one when none failed. *)
Theorem dedup_once (v : Variant) (env : Env) (fuel : nat)
    (cities : list City) (placeId : JsStr) :
  let s := snd (run v env fuel cities) in
  let loaded := existingPlaceIds (snd (loadExistingBusinesses v env initial)) in
  length (rows_of placeId (searchLog s)) <= 1
  /\ searchLog s = appended (calls s)
  /\ existingPlaceIds s = cache_after loaded (calls s)
  /\ (forall pre data post,
        calls s = pre ++ Forward placeId data :: post ->
        placeId ∉ cache_after loaded pre)
  /\ count (forward_of placeId) (calls s)
     <= 1 + count (failed_append_of placeId) (calls s).
Proof.
  intros s loaded.
  destruct (run_Inv v env fuel cities)
    as [Hcache Hlog Hnodup Hfresh Hbal Hguard].
  fold s in Hcache, Hlog, Hnodup, Hfresh, Hbal, Hguard.
  fold loaded in Hcache, Hfresh, Hguard.
  assert (Hone : length (rows_of placeId (appended (calls s))) <= 1)
    by (apply rows_of_NoDup, Hnodup).
  split; [rewrite Hlog; exact Hone |].
  split; [exact Hlog |]. split; [exact Hcache |]. split.
  - intros pre data post Hsplit.
    apply (guarded_split loaded (calls s) pre post placeId data Hguard Hsplit).
  - specialize (Hbal placeId). rewrite count_append_of in Hbal. lia.
Qed.

(** A run over one city whose searches return the same new place twice
    and a place that was loaded from the sheet: one row, one lead. *)
Lemma dedup_once_sample_run :
  let env := services (with_website None (rated 25 None))
               (one_page [hit "place-a"; hit "seen-1"; hit "place-a"])
               resolves unreachable in
  let city := {| city_name := "Toronto"; coords := downtown |} in
  forall v,
    let s := snd (run v env 3 [city]) in
    map row_placeId (searchLog s) = [Some "place-a"]
    /\ count (forward_of (Some "place-a")) (calls s) = 1
    /\ count (forward_of (Some "seen-1")) (calls s) = 0.
Proof.
  intros env city v. destruct v; vm_compute; repeat split; reflexivity.
Qed.

(** * Further properties *)

(** ** The requests of a computation *)

Lemma created_app (tr1 tr2 : list Call) :
  created (tr1 ++ tr2) = created tr1 ++ created tr2.
Proof.
  induction tr1 as [| c tr1 IH]; [reflexivity |].
  destruct c as [| | | fields [msg | u] | | | |]; cbn; rewrite ?IH;
    reflexivity.
Qed.

Lemma traced_weaken (P Q : Call -> Prop) {A} (m : M A) :
  (forall c, P c -> Q c) -> traced P m -> traced Q m.
Proof.
  intros HPQ Hm env s.
  destruct (Hm env s) as (evs & Hcalls & Hevs & Htable & Hcount).
  exists evs. split; [exact Hcalls |]. split; [| split; assumption].
  eapply Forall_impl; [exact Hevs | exact HPQ].
Qed.

Lemma traced_silent (P : Call -> Prop) {A} (m : M A) :
  (forall env s, calls (snd (m env s)) = calls s
                 /\ airtable (snd (m env s)) = airtable s) ->
  traced P m.
Proof.
  intros Hm env s. exists []. cbn [created]. rewrite !app_nil_r.
  destruct (Hm env s) as [Hc Ht]. split; [exact Hc |].
  split; [constructor |]. split; [exact Ht | reflexivity].
Qed.

Lemma traced_ret (P : Call -> Prop) {A} (a : A) : traced P (ret a).
Proof. apply traced_silent. intros; split; reflexivity. Qed.

Lemma traced_throw (P : Call -> Prop) {A} (msg : string) :
  traced P (@throw A msg).
Proof. apply traced_silent. intros; split; reflexivity. Qed.

Lemma traced_outOfFuel (P : Call -> Prop) {A} : traced P (@outOfFuel A).
Proof. apply traced_silent. intros; split; reflexivity. Qed.

Lemma traced_await (P : Call -> Prop) {A} (p : string + A) :
  traced P (await p).
Proof. destruct p; [apply traced_throw | apply traced_ret]. Qed.

(** Two traces in a row. *)
Lemma traced_app (P : Call -> Prop) (s s1 s2 : State) (evs evs' : list Call) :
  calls s1 = calls s ++ evs -> Forall P evs ->
  airtable s1 = airtable s ++ created evs ->
  length (created evs) <= count is_forward evs ->
  calls s2 = calls s1 ++ evs' -> Forall P evs' ->
  airtable s2 = airtable s1 ++ created evs' ->
  length (created evs') <= count is_forward evs' ->
  calls s2 = calls s ++ evs ++ evs'
  /\ Forall P (evs ++ evs')
  /\ airtable s2 = airtable s ++ created (evs ++ evs')
  /\ length (created (evs ++ evs')) <= count is_forward (evs ++ evs').
Proof.
  intros Hcalls Hevs Htable Hcount Hcalls' Hevs' Htable' Hcount'.
  split; [| split; [| split]].
  - rewrite Hcalls', Hcalls, app_assoc. reflexivity.
  - apply Forall_app. split; assumption.
  - rewrite Htable', Htable, created_app, app_assoc. reflexivity.
  - rewrite created_app, length_app, count_app. lia.
Qed.

Lemma traced_bind (P : Call -> Prop) {A B} (m : M A) (k : A -> M B) :
  traced P m -> (forall a, traced P (k a)) -> traced P (bind m k).
Proof.
  intros Hm Hk env s. unfold bind.
  destruct (Hm env s) as (evs & Hcalls & Hevs & Htable & Hcount).
  destruct (m env s) as [[a | msg |] s1]; cbn [snd] in *.
  - destruct (Hk a env s1) as (evs' & Hcalls' & Hevs' & Htable' & Hcount').
    exists (evs ++ evs'). eapply traced_app; eassumption.
  - exists evs. repeat split; assumption.
  - exists evs. repeat split; assumption.
Qed.

(** What is done after the first of three steps may be read as one
    step. *)
Lemma traced_bind_assoc (P : Call -> Prop) {A B C} (m : M A) (k1 : A -> M B)
    (k2 : B -> M C) :
  traced P (bind (bind m k1) k2) ->
  traced P (bind m (fun a => bind (k1 a) k2)).
Proof.
  intros H env s. specialize (H env s). unfold bind in *.
  destruct (m env s) as [[a | msg |] s1]; exact H.
Qed.

Lemma traced_try_catch (P : Call -> Prop) {A} (m : M A) (h : string -> M A) :
  traced P m -> (forall msg, traced P (h msg)) -> traced P (try_catch m h).
Proof.
  intros Hm Hh env s. unfold try_catch.
  destruct (Hm env s) as (evs & Hcalls & Hevs & Htable & Hcount).
  destruct (m env s) as [[a | msg |] s1]; cbn [snd] in *.
  - exists evs. repeat split; assumption.
  - destruct (Hh msg env s1) as (evs' & Hcalls' & Hevs' & Htable' & Hcount').
    exists (evs ++ evs'). eapply traced_app; eassumption.
  - exists evs. repeat split; assumption.
Qed.

(** A request that does not write to the table. *)
Lemma traced_request (P : Call -> Prop) {A} (reply : Env -> nat -> A)
    (record : A -> Call) (effect : A -> State -> State) :
  (forall r, P (record r)) ->
  (forall r, created [record r] = []) ->
  (forall r s, calls (effect r s) = calls s
               /\ airtable (effect r s) = airtable s) ->
  traced P (request reply record effect).
Proof.
  intros HP Hc He env s. unfold request. cbn.
  exists [record (reply env (length (calls s)))].
  destruct (He (reply env (length (calls s))) s) as [-> ->].
  rewrite Hc, app_nil_r. split; [reflexivity |].
  split; [constructor; [apply HP | constructor] |].
  split; [reflexivity | cbn; lia].
Qed.

Lemma traced_emit (P : Call -> Prop) (c : Call) :
  P c -> created [c] = [] -> traced P (emit c).
Proof.
  intros HP Hc env s. exists [c]. rewrite Hc, app_nil_r.
  split; [reflexivity |]. split; [constructor; [exact HP | constructor] |].
  split; [reflexivity | cbn; lia].
Qed.

Lemma traced_if (P : Call -> Prop) {A} (b : bool) (m1 m2 : M A) :
  (b = true -> traced P m1) -> (b = false -> traced P m2) ->
  traced P (if b then m1 else m2).
Proof. destruct b; auto. Qed.

Lemma traced_for_of (P : Call -> Prop) {A} (xs : list A)
    (body : A -> M unit) :
  (forall x, In x xs -> traced P (body x)) -> traced P (for_of xs body).
Proof.
  induction xs as [| x xs IH]; intros Hbody; cbn [for_of].
  - apply traced_ret.
  - apply traced_bind; [apply Hbody; left; reflexivity |].
    intros _. apply IH. intros y Hy. apply Hbody. right. exact Hy.
Qed.

Lemma append_row_frame (row : Row) (r : string + unit) (s : State) :
  calls (append_row row r s) = calls s
  /\ airtable (append_row row r s) = airtable s.
Proof. destruct r; split; reflexivity. Qed.

(** The hand-over of a lead: the only step that writes to the table, with
    at most one record. *)
Lemma traced_forward (P : Call -> Prop) (v : Variant) (placeId : JsStr)
    (data : Lead) :
  P (Forward placeId data) ->
  (forall formula, P (AirtableSelect formula)) ->
  (forall r, P (AirtableCreate (fields_of v data) r)) ->
  traced P (emit (Forward placeId data) ;;; addToAirtable v data).
Proof.
  intros HPf HPs HPc env s.
  unfold bind at 1. unfold emit.
  unfold addToAirtable, isDuplicate, try_catch, bind, request, no_effect.
  set (formula := ("{Business Name} = " ++ quote
                   ++ interp (businessName data) ++ quote)%string).
  set (s1 := record_call (Forward placeId data) s).
  assert (Hquiet : exists evs,
            calls (record_call (AirtableSelect formula) s1) = calls s ++ evs
            /\ Forall P evs
            /\ airtable (record_call (AirtableSelect formula) s1)
               = airtable s ++ created evs
            /\ length (created evs) <= count is_forward evs).
  { exists [Forward placeId data; AirtableSelect formula].
    cbn. rewrite <- app_assoc, app_nil_r. split; [reflexivity |].
    split; [repeat constructor; auto |]. split; [reflexivity | lia]. }
  set (s2 := record_call (AirtableSelect formula) s1) in *.
  assert (Hcreate : exists evs,
            calls (snd (await (airtable_create env (length (calls s2))
                                 (fields_of v data)) env
                          (record_call
                             (AirtableCreate (fields_of v data)
                                (airtable_create env (length (calls s2))
                                   (fields_of v data)))
                             (create_record (fields_of v data)
                                (airtable_create env (length (calls s2))
                                   (fields_of v data)) s2))))
            = calls s ++ evs
            /\ Forall P evs
            /\ airtable
                 (create_record (fields_of v data)
                    (airtable_create env (length (calls s2))
                       (fields_of v data)) s2)
               = airtable s ++ created evs
            /\ length (created evs) <= count is_forward evs).
  { exists [Forward placeId data; AirtableSelect formula;
            AirtableCreate (fields_of v data)
              (airtable_create env (length (calls s2)) (fields_of v data))].
    destruct (airtable_create env (length (calls s2)) (fields_of v data))
      as [msg | []]; cbn; rewrite <- !app_assoc;
      (split; [reflexivity |]);
      (split; [repeat constructor; auto |]);
      rewrite ?app_nil_r; (split; [reflexivity | lia]). }
  destruct (airtable_firstPage env (length (calls s1)) formula)
    as [msg | [| n]]; cbn [await throw ret Nat.ltb Nat.leb fst snd].
  - destruct Hcreate as (evs & Hcalls & Hevs & Htable & Hcount).
    exists evs. fold s2.
    destruct (airtable_create env (length (calls s2)) (fields_of v data))
      as [msg' | []]; cbn in *; auto.
  - destruct Hcreate as (evs & Hcalls & Hevs & Htable & Hcount).
    exists evs. fold s2.
    destruct (airtable_create env (length (calls s2)) (fields_of v data))
      as [msg' | []]; cbn in *; auto.
  - exact Hquiet.
Qed.

Lemma traced_getPlaceDetails (P : Call -> Prop) (v : Variant)
    (placeId : JsStr) :
  P (PlaceDetails placeId) -> traced P (getPlaceDetails v placeId).
Proof.
  intros HP env s. rewrite getPlaceDetails_run. cbn.
  exists [PlaceDetails placeId]. cbn [created]. rewrite app_nil_r.
  split; [reflexivity |]. split; [constructor; [exact HP | constructor] |].
  split; [reflexivity | cbn; lia].
Qed.

Lemma traced_logBusinessSearch (P : Call -> Prop)
    (businessName address placeId : JsStr) :
  (forall row r,
     row_placeId row = placeId -> row_businessName row = businessName ->
     P (SheetsAppend row r)) ->
  traced P (logBusinessSearch businessName address placeId).
Proof.
  intros HP. unfold logBusinessSearch.
  apply traced_try_catch; [| intros; apply traced_ret].
  apply traced_bind; [apply traced_silent; intros; split; reflexivity |].
  intros cached. apply traced_if; intros _; [apply traced_ret |].
  apply traced_bind; [apply traced_silent; intros; split; reflexivity |].
  intros date. apply traced_bind.
  - apply traced_request; [intros; apply HP; reflexivity | reflexivity |].
    apply append_row_frame.
  - intros r. apply traced_bind; [apply traced_await |].
    intros _. apply traced_silent. intros; split; reflexivity.
Qed.

Lemma traced_isWebsiteLowBudget (P : Call -> Prop) (url : JsStr) :
  (forall u,
     url = Some u -> startsWith u "https://" = true ->
     existsb (fun p => includes u p) freePlatforms = false ->
     P (HttpGet u)) ->
  traced P (isWebsiteLowBudget url).
Proof.
  intros HP. unfold isWebsiteLowBudget.
  apply traced_try_catch; [| intros; apply traced_ret].
  destruct url as [u |]; [| apply traced_ret].
  apply traced_if; intros _; [apply traced_ret |].
  apply traced_if; intros Hhttps; [apply traced_ret |].
  apply traced_if; intros Hfree; [apply traced_ret |].
  apply negb_false_iff in Hhttps.
  apply traced_bind.
  - apply traced_request; [intros; apply HP; auto | reflexivity |].
    intros; split; reflexivity.
  - intros r. apply traced_bind; [apply traced_await |].
    intros res. apply traced_if; intros _; apply traced_ret.
Qed.

Lemma traced_qualify_part000 (P : Call -> Prop) (d : Details) :
  (forall u,
     startsWith u "https://" = true ->
     existsb (fun p => includes u p) freePlatforms = false ->
     P (HttpGet u)) ->
  traced P (qualify_part000 d).
Proof.
  intros HP. unfold qualify_part000.
  apply traced_bind; [| intros; apply traced_ret].
  apply traced_if; intros _; [apply traced_ret |].
  apply traced_bind; [apply traced_isWebsiteLowBudget; intros; apply HP; auto |].
  intros low. apply traced_if; intros _; apply traced_ret.
Qed.

Lemma traced_searchPlaces (P : Call -> Prop) (v : Variant) (fuel : nat)
    (query : string) (location : Coordinate) (maxResults : nat) :
  (forall token r, P (TextSearch (page_query v query location token) r)) ->
  traced P (searchPlaces v fuel query location maxResults).
Proof.
  intros HP. unfold searchPlaces. generalize (@nil Place) (@None string).
  induction fuel as [| fuel IH]; intros allResults nextPageToken;
    cbn [searchPlaces_loop].
  - apply traced_outOfFuel.
  - apply traced_bind.
    + apply traced_request; [| reflexivity | intros; split; reflexivity].
      intros r. apply (HP nextPageToken).
    + intros r. apply traced_bind; [apply traced_await |].
      intros res. apply traced_if; intros _; [apply traced_throw |].
      apply traced_if; intros _; [apply IH | apply traced_ret].
Qed.

(** ** The requests of one hit *)

Lemma truthy_js_or (a b : JsStr) :
  truthy (js_or a b) = truthy a || truthy b.
Proof. unfold js_or. destruct (truthy a) eqn:Ha; [exact Ha | reflexivity]. Qed.

Lemma evaluateWebsiteQuality_index_classes (url : JsStr) :
  In (evaluateWebsiteQuality_index url) ["No Website"; "Poor"; "Decent"].
Proof.
  unfold evaluateWebsiteQuality_index. destruct url as [u |]; [| cbn; auto].
  destruct (negb (truthy (Some u))); [cbn; auto |].
  match goal with |- In (if ?c then _ else _) _ => destruct c end;
    cbn; auto.
Qed.

Lemma qualify_index2_class (d : Details) :
  fst (qualify_index2 d) = true -> snd (qualify_index2 d) = "No Website".
Proof.
  unfold qualify_index2. cbn [fst snd].
  destruct (String.eqb_spec (evaluateWebsiteQuality_index2 (website d))
              "No Website") as [Heq | Hne]; [intros _; exact Heq |].
  cbn. discriminate.
Qed.

(** After the details request, the body goes on with the record it got. *)
Lemma traced_after_details (P : Call -> Prop) (v : Variant) (placeId : JsStr)
    {B} (k : Details -> M B) :
  (forall d, traced P (k d)) ->
  forall env s,
    exists evs,
      calls (snd (bind (getPlaceDetails v placeId) k env s))
      = calls s ++ PlaceDetails placeId :: evs
      /\ Forall P evs
      /\ airtable (snd (bind (getPlaceDetails v placeId) k env s))
         = airtable s ++ created evs
      /\ length (created evs) <= count is_forward evs.
Proof.
  intros Hk env s. unfold bind. rewrite getPlaceDetails_run.
  set (s1 := record_call (PlaceDetails placeId) s).
  destruct (Hk (details_at v env (length (calls s)) placeId) env s1)
    as (evs & Hcalls & Hevs & Htable & Hcount).
  exists evs. split; [| split; [| split]].
  - rewrite Hcalls. subst s1. cbn [calls record_call].
    rewrite <- app_assoc. reflexivity.
  - exact Hevs.
  - exact Htable.
  - exact Hcount.
Qed.

(** The hand-over of a lead of the right shape, and what follows it. *)
Lemma traced_hand_over (v : Variant) (place : Place) (data : Lead) {A}
    (m : M A) :
  lead_shape v (place_id place) data ->
  traced (hit_call v place) m ->
  traced (hit_call v place)
    (emit (Forward (place_id place) data) ;;; addToAirtable v data ;;; m).
Proof.
  intros Hshape Hm.
  apply (traced_bind_assoc _ (emit (Forward (place_id place) data))
           (fun _ => addToAirtable v data) (fun _ => m)).
  apply traced_bind; [| intros _; exact Hm].
  apply traced_forward.
  - split; [reflexivity | exact Hshape].
  - intros; exact I.
  - intros r. exists data. split; [exact Hshape | reflexivity].
Qed.

Lemma traced_log (v : Variant) (place : Place) (businessName address : JsStr) :
  truthy businessName = true ->
  traced (hit_call v place)
    (logBusinessSearch businessName address (place_id place)).
Proof.
  intros Hname. apply traced_logBusinessSearch.
  intros row r Hid Hrow. split; [exact Hid |]. rewrite Hrow. exact Hname.
Qed.

(** The trace of the body of the innermost loop: the details request of
    the hit, then requests for that hit only, with at most one record
    for each lead handed over. *)
Lemma hit_trace (v : Variant) (place : Place) (newCount : nat) (env : Env)
    (s : State) :
  exists evs,
    calls (snd (processPlace v place newCount env s))
    = calls s ++ PlaceDetails (place_id place) :: evs
    /\ Forall (hit_call v place) evs
    /\ airtable (snd (processPlace v place newCount env s))
       = airtable s ++ created evs
    /\ length (created evs) <= count is_forward evs.
Proof.
  destruct v; cbn [processPlace].
  - unfold processPlace_index. apply traced_after_details. intros d.
    apply traced_if; intros Hcomplete; [apply traced_ret |].
    apply orb_false_iff in Hcomplete as [Hcomplete Hid].
    apply orb_false_iff in Hcomplete as [Hname Haddress].
    apply negb_false_iff in Hname, Haddress, Hid.
    apply traced_bind; [apply traced_silent; intros; split; reflexivity |].
    intros cached. apply traced_if; intros _; [apply traced_ret |].
    apply traced_if; intros _; [apply traced_ret |].
    apply traced_if; intros Hcontact; [apply traced_ret |].
    apply traced_if; intros _; [apply traced_ret |].
    apply negb_false_iff in Hcontact.
    unfold contactability_rule_index in Hcontact.
    rewrite truthy_js_or in Hcontact.
    apply traced_hand_over.
    + split; [reflexivity |]. split; [reflexivity |].
      split; [exact Hname |]. split; [exact Hid |].
      split; [exact Haddress |]. split.
      * cbn [businessURL phone lead_of]. rewrite !truthy_js_or.
        cbn [truthy String.eqb negb]. rewrite !orb_false_r. exact Hcontact.
      * eexists. split; [reflexivity |].
        apply evaluateWebsiteQuality_index_classes.
    + apply traced_bind; [| intros; apply traced_ret].
      apply traced_log. exact Hname.
  - unfold processPlace_index2. apply traced_after_details. intros d.
    assert (Hname : truthy (js_or (js_or (name d) (place_name place))
                              (Some "Unknown")) = true).
    { rewrite truthy_js_or. apply orb_true_r. }
    apply traced_bind; [apply traced_silent; intros; split; reflexivity |].
    intros cached. apply traced_if; intros _; [apply traced_ret |].
    pose proof (qualify_index2_class d) as Hclass.
    destruct (qualify_index2 d) as [addToMainTable websiteQuality].
    cbn [fst snd] in Hclass.
    apply traced_bind.
    + apply traced_if; intros Hadd; [| apply traced_ret].
      rewrite (Hclass Hadd).
      apply traced_hand_over; [| apply traced_ret].
      split; [reflexivity |]. split; [reflexivity |].
      split; [exact Hname | reflexivity].
    + intros n. apply traced_bind; [| intros; apply traced_ret].
      apply traced_log. exact Hname.
  - unfold processPlace_part000. apply traced_after_details. intros d.
    assert (Hname : truthy (js_or (js_or (name d) (place_name place))
                              (Some "Unknown")) = true).
    { rewrite truthy_js_or. apply orb_true_r. }
    apply traced_bind; [apply traced_silent; intros; split; reflexivity |].
    intros cached. apply traced_if; intros _; [apply traced_ret |].
    apply traced_bind.
    { apply traced_qualify_part000. intros u Hhttps Hfree.
      split; [reflexivity |]. split; assumption. }
    intros addToMainTable. apply traced_bind.
    + apply traced_if; intros Hadd; [| apply traced_ret].
      apply traced_hand_over; [| apply traced_ret].
      split; [reflexivity |]. split; [reflexivity |].
      split; [exact Hname | reflexivity].
    + intros n. apply traced_bind; [| intros; apply traced_ret].
      apply traced_log. exact Hname.
Qed.

(** ** The counter of a bucket *)

Lemma since_record_call (c : Call) (s : State) :
  since s (record_call c s) = [c].
Proof. apply since_app. reflexivity. Qed.

(** The body of the innermost loop always ends normally, and the counter
    grows by the number of leads it handed over: none or one. *)
Lemma processPlace_counts (v : Variant) (place : Place) (newCount : nat)
    (env : Env) (s : State) :
  exists s',
    processPlace v place newCount env s
    = (Ok (newCount + count is_forward (since s s')), s')
    /\ count is_forward (since s s') <= 1.
Proof.
  assert (Hskip : exists s',
            (Ok newCount, record_call (PlaceDetails (place_id place)) s)
            = (Ok (newCount + count is_forward (since s s')), s')
            /\ count is_forward (since s s') <= 1).
  { exists (record_call (PlaceDetails (place_id place)) s).
    rewrite since_record_call. cbn. rewrite Nat.add_0_r. split; [reflexivity | lia]. }
  assert (Hverdict : forall (verdict : bool) s',
            count is_forward (since s s') = (if verdict then 1 else 0) ->
            (Ok (if verdict then S newCount else newCount), s')
            = (Ok (newCount + count is_forward (since s s')), s')
            /\ count is_forward (since s s') <= 1).
  { intros verdict s' ->. destruct verdict;
      rewrite ?Nat.add_0_r, ?Nat.add_1_r; split; (reflexivity || lia). }
  destruct (decide (place_id place ∈ existingPlaceIds s)) as [Hin | Hnot].
  { rewrite (processPlace_cached v place newCount env s Hin). exact Hskip. }
  destruct v; cbn [processPlace].
  - destruct (complete_index
                (details_at Index env (length (calls s)) (place_id place))
                place) eqn:Hcomplete.
    + destruct (admit_index
                  (details_at Index env (length (calls s)) (place_id place)))
        eqn:Hadmit.
      * destruct (processPlace_index_fresh place newCount env s Hnot
                    Hcomplete Hadmit)
          as (s' & -> & _ & evs & Hsince & Hcount).
        exists s'. rewrite Hsince. unfold count in *. cbn. rewrite Hcount.
        rewrite Nat.add_1_r. split; [reflexivity | lia].
      * rewrite (processPlace_index_rejected place newCount env s Hnot
                   Hcomplete Hadmit). exact Hskip.
    + rewrite (processPlace_index_incomplete place newCount env s Hcomplete).
      exact Hskip.
  - destruct (processPlace_index2_fresh place newCount env s Hnot)
      as (s' & -> & _ & Hcount).
    exists s'. apply Hverdict. exact Hcount.
  - destruct (processPlace_part000_fresh place newCount env s Hnot)
      as (verdict & s' & _ & -> & _ & Hcount).
    exists s'. apply Hverdict. exact Hcount.
Qed.

Lemma hit_call_no_details (v : Variant) (place : Place) (evs : list Call) :
  Forall (hit_call v place) evs -> List.filter is_details evs = [].
Proof.
  induction 1 as [| c evs Hc _ IH]; [reflexivity |].
  destruct c; cbn in *; try exact IH. contradiction.
Qed.

(** The loop over the hits of a bucket: it ends normally after a prefix
    of the hits, with one details request for each of them, and stops
    short of the end only at the cap. *)
Lemma bucket_run (v : Variant) (results : list Place) :
  forall (newCount : nat) (env : Env) (s : State),
    exists k evs s',
      bucket v results newCount env s
      = (Ok (newCount + count is_forward evs), s')
      /\ calls s' = calls s ++ evs
      /\ Forall (bucket_call v) evs
      /\ airtable s' = airtable s ++ created evs
      /\ length (created evs) <= count is_forward evs
      /\ k <= length results
      /\ List.filter is_details evs
         = map (fun place => PlaceDetails (place_id place)) (take k results)
      /\ (k < length results ->
          NEW_RESULTS_LIMIT v <= newCount + count is_forward evs)
      /\ (newCount <= NEW_RESULTS_LIMIT v ->
          newCount + count is_forward evs <= NEW_RESULTS_LIMIT v).
Proof.
  induction results as [| place rest IH]; intros newCount env s;
    cbn [bucket].
  - exists 0, [], s. cbn. rewrite Nat.add_0_r, !app_nil_r.
    repeat split; auto; lia.
  - destruct (Nat.leb_spec (NEW_RESULTS_LIMIT v) newCount) as [Hcap | Hroom].
    + exists 0, [], s. cbn. rewrite Nat.add_0_r, !app_nil_r.
      repeat split; auto; lia.
    + destruct (processPlace_counts v place newCount env s)
        as (s1 & Hrun & Hone).
      destruct (hit_trace v place newCount env s)
        as (evs1 & Hcalls1 & Hevs1 & Htable1 & Hcount1).
      rewrite Hrun in Hcalls1, Htable1. cbn [snd] in Hcalls1, Htable1.
      rewrite (since_app s s1 _ Hcalls1) in Hrun, Hone.
      unfold bind. rewrite Hrun.
      set (n1 := newCount
                 + count is_forward (PlaceDetails (place_id place) :: evs1))
        in *.
      destruct (IH n1 env s1)
        as (k & evs & s' & Hrest & Hcalls & Hevs & Htable & Hcount & Hk
            & Hdetails & Hshort & Hcapped).
      exists (S k), ((PlaceDetails (place_id place) :: evs1) ++ evs), s'.
      rewrite count_app. fold n1 in Hrest |- *.
      replace (newCount
               + (count is_forward (PlaceDetails (place_id place) :: evs1)
                  + count is_forward evs))
        with (n1 + count is_forward evs) by (subst n1; lia).
      split; [exact Hrest |]. split.
      { rewrite Hcalls, Hcalls1, <- app_assoc. reflexivity. }
      split.
      { apply Forall_app. split; [| exact Hevs]. constructor.
        - exists place. left. reflexivity.
        - eapply Forall_impl; [exact Hevs1 |].
          intros c Hc. exists place. right. exact Hc. }
      split.
      { rewrite Htable, Htable1, created_app, <- app_assoc. reflexivity. }
      split.
      { rewrite created_app, length_app.
        change (created (PlaceDetails (place_id place) :: evs1))
          with (created evs1).
        assert (count is_forward (PlaceDetails (place_id place) :: evs1)
                = count is_forward evs1) by reflexivity.
        lia. }
      split; [cbn; lia |]. split.
      { rewrite List.filter_app. cbn [List.filter is_details].
        rewrite (hit_call_no_details v place evs1 Hevs1). cbn.
        rewrite Hdetails. reflexivity. }
      split.
      * cbn [length]. intros Hlt. apply Hshort. lia.
      * intros _. apply Hcapped. subst n1. lia.
Qed.

(** X4: the loop over the hits of a bucket always ends normally, whatever
    the services answer.  The counter it ends with is the counter it
    started with plus the number of leads handed over, and it never
    exceeds the cap of the variant.  The loop makes one details request
    for each hit of a prefix of the results, in their order, and it stops
    before the end of the results only when the counter has reached the
    cap. *)
Theorem bucket_cap (v : Variant) (results : list Place) (newCount : nat)
    (env : Env) (s : State) :
  newCount <= NEW_RESULTS_LIMIT v ->
  exists k n' s',
    bucket v results newCount env s = (Ok n', s')
    /\ n' = newCount + count is_forward (since s s')
    /\ n' <= NEW_RESULTS_LIMIT v
    /\ List.filter is_details (since s s')
       = map (fun place => PlaceDetails (place_id place)) (take k results)
    /\ (k < length results -> n' = NEW_RESULTS_LIMIT v).
Proof.
  intros Hcap.
  destruct (bucket_run v results newCount env s)
    as (k & evs & s' & Hrun & Hcalls & _ & _ & _ & _ & Hdetails & Hshort
        & Hcapped).
  exists k, (newCount + count is_forward evs), s'.
  rewrite (since_app s s' evs Hcalls).
  split; [exact Hrun |]. split; [reflexivity |].
  split; [exact (Hcapped Hcap) |]. split; [exact Hdetails |].
  intros Hlt. specialize (Hshort Hlt). specialize (Hcapped Hcap). lia.
Qed.

Lemma bucket_cap_example :
  let env := services (with_website None (rated 25 None)) (one_page [])
               resolves unreachable in
  let results := map hit ["a"; "b"; "c"; "d"; "e"; "f"; "g"] in
  exists k n' s',
    bucket Part000 results 0 env initial = (Ok n', s')
    /\ n' = 0 + count is_forward (since initial s')
    /\ n' <= NEW_RESULTS_LIMIT Part000
    /\ List.filter is_details (since initial s')
       = map (fun place => PlaceDetails (place_id place)) (take k results)
    /\ (k < length results -> n' = NEW_RESULTS_LIMIT Part000).
Proof.
  intros env results.
  apply (bucket_cap Part000 results 0 env initial).
  cbn. lia.
Defined.

(** ** A hit whose enrichment failed *)

Lemma details_at_failed (v : Variant) (env : Env) (n : nat) (placeId : JsStr) :
  enrichment_failed v (places_details env n placeId) = true ->
  details_at v env n placeId = noDetails.
Proof.
  unfold enrichment_failed, details_at.
  destruct (places_details env n placeId) as [msg | res]; [reflexivity |].
  destruct v; cbn [checks_error andb]; rewrite ?orb_false_r;
    destruct (result res) as [d |]; cbn; try discriminate; try reflexivity.
  - intros ->. reflexivity.
  - destruct (truthy (details_error_message res)); reflexivity.
Qed.

(** X3: when the details request of a hit gives no record (the request
    is rejected, the reply has no result or, in the third variant, it
    carries an error payload), the body goes on with an empty record and
    hands over no lead in any variant: the counter stays as it was.
    [index.js] skips the hit without a trace, so it is tried again the
    next time it is found; [index2.js] and the third variant reject it
    and log it all the same: for a hit that was not cached, one append is
    attempted and, when it resolves, the id enters the cache. *)
Theorem failed_enrichment_forwards_nothing (v : Variant) (place : Place)
    (newCount : nat) (env : Env) (s : State) :
  enrichment_failed v
    (places_details env (length (calls s)) (place_id place)) = true ->
  let r := processPlace v place newCount env s in
  fst r = Ok newCount
  /\ count is_forward (since s (snd r)) = 0
  /\ (v = Index ->
      snd r = record_call (PlaceDetails (place_id place)) s)
  /\ (v <> Index -> place_id place ∉ existingPlaceIds s ->
      logs_once (place_id place) s (snd r)).
Proof.
  intros Hfailed r. subst r.
  apply details_at_failed in Hfailed.
  assert (Hskip : processPlace v place newCount env s
                  = (Ok newCount,
                     record_call (PlaceDetails (place_id place)) s) ->
                  fst (processPlace v place newCount env s) = Ok newCount
                  /\ count is_forward
                       (since s (snd (processPlace v place newCount env s)))
                     = 0
                  /\ (v = Index ->
                      snd (processPlace v place newCount env s)
                      = record_call (PlaceDetails (place_id place)) s)).
  { intros ->. cbn [fst snd]. rewrite since_record_call.
    split; [reflexivity |]. split; [reflexivity |]. reflexivity. }
  destruct (decide (place_id place ∈ existingPlaceIds s)) as [Hin | Hnot].
  { destruct (Hskip (processPlace_cached v place newCount env s Hin))
      as (H1 & H2 & H3).
    split; [exact H1 |]. split; [exact H2 |]. split; [exact H3 |].
    intros _ Hnot. contradiction. }
  destruct v.
  - assert (Hcomplete : complete_index
                          (details_at Index env (length (calls s))
                             (place_id place)) place = false).
    { rewrite Hfailed. unfold complete_index, address_of. cbn.
      rewrite andb_false_r. reflexivity. }
    destruct (Hskip (processPlace_index_incomplete place newCount env s
                       Hcomplete)) as (H1 & H2 & H3).
    split; [exact H1 |]. split; [exact H2 |]. split; [exact H3 |].
    intros Hne. contradiction.
  - pose proof (processPlace_index2_fresh place newCount env s Hnot) as H.
    cbn zeta in H. rewrite Hfailed in H.
    destruct H as (s' & Hrun & Honce & Hcount).
    cbn [processPlace]. rewrite Hrun. cbn [fst snd] in *.
    split; [reflexivity |]. split; [exact Hcount |].
    split; [discriminate |]. intros _ _. exact Honce.
  - pose proof (processPlace_part000_fresh place newCount env s Hnot) as H.
    cbn zeta in H. rewrite Hfailed in H.
    destruct H as (verdict & s' & Hverdict & Hrun & Honce & Hcount).
    rewrite qualify_part000_run in Hverdict.
    assert (verdict = false) as ->.
    { injection Hverdict as <-. unfold screen_part000.
      destruct (website_rule_part000 _ _ _); reflexivity. }
    cbn [processPlace]. rewrite Hrun. cbn [fst snd] in *.
    split; [reflexivity |]. split; [exact Hcount |].
    split; [discriminate |]. intros _ _. exact Honce.
Qed.

Lemma failed_enrichment_forwards_nothing_example :
  let env := details_down (one_page []) in
  let r := processPlace Index2 (hit "place-a") 0 env initial in
  fst r = Ok 0
  /\ count is_forward (since initial (snd r)) = 0
  /\ (Index2 = Index ->
      snd r = record_call (PlaceDetails (Some "place-a")) initial)
  /\ (Index2 <> Index -> Some "place-a" ∉ existingPlaceIds initial ->
      logs_once (Some "place-a") initial (snd r)).
Proof.
  intros env.
  apply (failed_enrichment_forwards_nothing Index2 (hit "place-a") 0 env
           initial).
  reflexivity.
Defined.

(** ** Loading the cache *)

(** X1: [loadExistingBusinesses] never fails and reads the sheet once.
    When the read resolves, the cache becomes exactly the set of the
    non-empty cells of the reply, whatever it held before; when the read
    is rejected, [index.js] and [index2.js] keep the cache they had and
    the third variant empties it.  The log and the table are not
    touched. *)
Theorem loadExistingBusinesses_policy (v : Variant) (env : Env) (s : State) :
  let reply := sheets_values_get env (length (calls s)) in
  let r := loadExistingBusinesses v env s in
  fst r = Ok tt
  /\ since s (snd r) = [SheetsGet]
  /\ searchLog (snd r) = searchLog s
  /\ airtable (snd r) = airtable s
  /\ match reply with
     | inr values =>
         forall p,
           p ∈ existingPlaceIds (snd r)
           <-> exists id,
                 p = Some id /\ id <> EmptyString
                 /\ exists rows row,
                      values = Some rows /\ In row rows /\ In id row
     | inl _ =>
         existingPlaceIds (snd r)
         = match v with
           | Part000 => ∅
           | Index | Index2 => existingPlaceIds s
           end
     end.
Proof.
  intros reply r. subst r reply.
  unfold loadExistingBusinesses, try_catch, bind, request, no_effect.
  cbn [fst snd].
  destruct (sheets_values_get env (length (calls s))) as [msg | values];
    cbn [await throw ret].
  - destruct v; cbn; unfold since; cbn; rewrite drop_app_length;
      repeat split; reflexivity.
  - cbn. unfold since. cbn. rewrite drop_app_length.
    split; [reflexivity |]. split; [reflexivity |].
    split; [reflexivity |]. split; [reflexivity |].
    intros p. unfold placeIds_of.
    rewrite elem_of_list_to_set, list_elem_of_filter, list_elem_of_In,
      in_map_iff.
    split.
    + intros (Htruthy & id & <- & Hin). exists id. split; [reflexivity |].
      split.
      * intros ->. discriminate.
      * destruct values as [rows |]; [| destruct Hin].
        apply in_concat in Hin as (row & Hrow & Hid).
        exists rows, row. auto.
    + intros (id & -> & Hne & rows & row & -> & Hrow & Hid). split.
      * cbn. apply negb_true_iff. apply String.eqb_neq. exact Hne.
      * exists id. split; [reflexivity |]. apply in_concat.
        exists row. auto.
Qed.

(** ** The record store *)

(** X2: [addToAirtable] never fails and touches neither the cache nor
    the log.  It asks the table for a record with the same business name
    and, when the table has one, creates nothing.  When the table has
    none, and also when the question itself is rejected, it attempts one
    creation; the record is in the table exactly when that creation
    resolves. *)
Theorem addToAirtable_policy (v : Variant) (data : Lead) (env : Env)
    (s : State) :
  let formula :=
    ("{Business Name} = " ++ quote ++ interp (businessName data) ++ quote)%string
  in
  let found := airtable_firstPage env (length (calls s)) formula in
  let fields := fields_of v data in
  let r := addToAirtable v data env s in
  fst r = Ok tt
  /\ existingPlaceIds (snd r) = existingPlaceIds s
  /\ searchLog (snd r) = searchLog s
  /\ match found with
     | inr (S _) =>
         since s (snd r) = [AirtableSelect formula]
         /\ airtable (snd r) = airtable s
     | inr O | inl _ =>
         let reply := airtable_create env (S (length (calls s))) fields in
         since s (snd r)
         = [AirtableSelect formula; AirtableCreate fields reply]
         /\ airtable (snd r)
            = match reply with
              | inr _ => airtable s ++ [fields]
              | inl _ => airtable s
              end
     end.
Proof.
  intros formula found fields r. subst r found.
  unfold addToAirtable, isDuplicate, try_catch, bind, request, no_effect.
  fold formula. fold fields. cbn [fst snd].
  assert (Hlen : length (calls s ++ [AirtableSelect formula])
                 = S (length (calls s))).
  { rewrite length_app. cbn. lia. }
  destruct (airtable_firstPage env (length (calls s)) formula)
    as [msg | [| n]]; cbn [await throw ret Nat.ltb Nat.leb fst snd];
    cbn [calls record_call]; try rewrite Hlen.
  1, 2: destruct (airtable_create env (S (length (calls s))) fields)
          as [msg' | []]; cbn; unfold since; cbn;
        rewrite <- ?app_assoc, drop_app_length; cbn;
        repeat split; reflexivity.
  cbn. unfold since. cbn. rewrite drop_app_length.
  repeat split; reflexivity.
Qed.

(** ** Marking an id *)

(** X12: after [logBusinessSearch] for an id, the cache answers yes for
    that id exactly when it did before or the append resolved; the
    answers for all other ids are as before; and once the cache answers
    yes, logging the id again, under whatever name, does nothing at
    all. *)
Theorem logBusinessSearch_marks (businessName address placeId : JsStr)
    (env : Env) (s : State) :
  let row := row_at env s businessName address placeId in
  let reply := sheets_values_append env (length (calls s)) row in
  let s' := snd (logBusinessSearch businessName address placeId env s) in
  (fst (isLoggedInSearchLogCached placeId env s') = Ok true
   <-> (placeId ∈ existingPlaceIds s) \/ exists u, reply = inr u)
  /\ (forall p,
        p <> placeId ->
        fst (isLoggedInSearchLogCached p env s')
        = fst (isLoggedInSearchLogCached p env s))
  /\ (fst (isLoggedInSearchLogCached placeId env s') = Ok true ->
      forall businessName' address',
        logBusinessSearch businessName' address' placeId env s'
        = (Ok tt, s')).
Proof.
  intros row reply s'.
  assert (Hcache : forall p,
            p ∈ existingPlaceIds s'
            <-> (p ∈ existingPlaceIds s)
                \/ (p = placeId /\ (placeId ∉ existingPlaceIds s)
                    /\ exists u, reply = inr u)).
  { intros p. subst s'.
    destruct (decide (placeId ∈ existingPlaceIds s)) as [Hin | Hnot].
    - rewrite (logBusinessSearch_cached _ _ _ env s Hin). cbn [snd].
      split; [auto |]. intros [H | (_ & Hnot & _)]; [exact H | contradiction].
    - rewrite (logBusinessSearch_fresh _ _ _ env s Hnot). cbn [snd].
      fold row. fold reply. destruct reply as [msg | u].
      + cbn. split; [auto |].
        intros [H | (_ & _ & u & Hu)]; [exact H | discriminate].
      + cbn. rewrite elem_of_union, elem_of_singleton. split.
        * intros [-> | H]; [right | left; exact H].
          split; [reflexivity |]. split; [exact Hnot |]. eauto.
        * intros [H | (-> & _)]; auto. }
  assert (Hask : forall p (s0 : State),
            fst (isLoggedInSearchLogCached p env s0) = Ok true
            <-> p ∈ existingPlaceIds s0).
  { intros p s0. unfold isLoggedInSearchLogCached. cbn. split.
    - intros H. injection H as H. apply bool_decide_eq_true_1 in H. exact H.
    - intros H. rewrite bool_decide_eq_true_2 by exact H. reflexivity. }
  split; [| split].
  - rewrite Hask, Hcache. split.
    + intros [H | (_ & _ & H)]; auto.
    + intros [H | H]; [left; exact H |].
      destruct (decide (placeId ∈ existingPlaceIds s)); auto.
  - intros p Hne. unfold isLoggedInSearchLogCached. cbn. f_equal.
    apply bool_decide_ext. rewrite Hcache. split; [| auto].
    intros [H | (-> & _)]; [exact H | contradiction].
  - intros Hyes businessName' address'.
    apply logBusinessSearch_cached. apply Hask. exact Hyes.
Qed.

(** ** The pages of a search *)

Lemma searchPlaces_loop_threaded (v : Variant) (query : string)
    (location : Coordinate) (maxResults : nat) (env : Env) :
  forall (fuel : nat) (allResults : list Place) (nextPageToken : JsStr)
         (s : State),
    exists evs,
      calls (snd (searchPlaces_loop v fuel query location maxResults
                    allResults nextPageToken env s))
      = calls s ++ evs
      /\ threaded v query location nextPageToken evs.
Proof.
  induction fuel as [| fuel IH]; intros allResults nextPageToken s.
  - exists []. cbn. rewrite app_nil_r. split; [reflexivity | exact I].
  - rewrite searchPlaces_loop_turn. cbn zeta.
    set (q := page_query v query location nextPageToken).
    set (reply := places_textsearch env (length (calls s)) q).
    set (s1 := record_call (TextSearch q reply) s).
    assert (Hlast : calls s1 = calls s ++ [TextSearch q reply]
                    /\ threaded v query location nextPageToken
                         [TextSearch q reply]).
    { split; [reflexivity |]. cbn. split; [reflexivity | left; reflexivity]. }
    destruct reply as [msg | res] eqn:Hreply;
      [exists [TextSearch q (inl msg)]; exact Hlast |].
    destruct (checks_error v && truthy (error_message res));
      [exists [TextSearch q (inr res)]; exact Hlast |].
    destruct (more maxResults allResults res) eqn:Hmore;
      [| exists [TextSearch q (inr res)]; exact Hlast].
    destruct (IH (allResults ++ page_results res) (next_page_token res) s1)
      as (evs & Hcalls & Hthreaded).
    exists (TextSearch q (inr res) :: evs). split.
    + rewrite Hcalls. subst s1. cbn [calls record_call].
      rewrite <- app_assoc. reflexivity.
    + cbn [threaded]. split; [reflexivity |]. right. exists res.
      split; [reflexivity |]. split; [| exact Hthreaded].
      unfold more in Hmore. apply andb_true_iff in Hmore as [Htoken _].
      exact Htoken.
Qed.

(** X5: the requests of one call of [searchPlaces], however it ends, are
    searches for the same query around the same location with the radius
    of the variant; the first carries no page token, and every later one
    carries the token of the reply before it, which resolved and held a
    token. *)
Theorem searchPlaces_threads_tokens (v : Variant) (fuel : nat)
    (query : string) (location : Coordinate) (maxResults : nat) (env : Env)
    (s : State) :
  threaded v query location None
    (since s (snd (searchPlaces v fuel query location maxResults env s))).
Proof.
  unfold searchPlaces.
  destruct (searchPlaces_loop_threaded v query location maxResults env fuel
              [] None s) as (evs & Hcalls & Hthreaded).
  rewrite (since_app _ _ evs Hcalls). exact Hthreaded.
Qed.

Lemma searchPlaces_loop_pages (v : Variant) (query : string)
    (location : Coordinate) (maxResults pageSize : nat) (env : Env) :
  full_pages pageSize env ->
  forall (fuel : nat) (allResults : list Place) (nextPageToken : JsStr)
         (s : State),
    exists evs,
      calls (snd (searchPlaces_loop v fuel query location maxResults
                    allResults nextPageToken env s))
      = calls s ++ evs
      /\ (length evs <= 1
          \/ (length evs - 1) * pageSize + length allResults < maxResults).
Proof.
  intros Hfull.
  induction fuel as [| fuel IH]; intros allResults nextPageToken s.
  - exists []. cbn. rewrite app_nil_r. split; [reflexivity | left; lia].
  - rewrite searchPlaces_loop_turn. cbn zeta.
    set (q := page_query v query location nextPageToken).
    pose proof (Hfull (length (calls s)) q) as Hpage.
    set (reply := places_textsearch env (length (calls s)) q) in *.
    set (s1 := record_call (TextSearch q reply) s).
    assert (Hlast : calls s1 = calls s ++ [TextSearch q reply]
                    /\ (length [TextSearch q reply] <= 1
                        \/ (length [TextSearch q reply] - 1) * pageSize
                           + length allResults < maxResults)).
    { split; [reflexivity | left; cbn; lia]. }
    destruct reply as [msg | res] eqn:Hreply;
      [exists [TextSearch q (inl msg)]; exact Hlast |].
    destruct (checks_error v && truthy (error_message res));
      [exists [TextSearch q (inr res)]; exact Hlast |].
    destruct (more maxResults allResults res) eqn:Hmore;
      [| exists [TextSearch q (inr res)]; exact Hlast].
    unfold more in Hmore. apply andb_true_iff in Hmore as [Htoken Hroom].
    apply Nat.ltb_lt in Hroom. rewrite length_app in Hroom.
    specialize (Hpage res eq_refl Htoken).
    destruct (IH (allResults ++ page_results res) (next_page_token res) s1)
      as (evs & Hcalls & Hbound).
    exists (TextSearch q (inr res) :: evs). split.
    + rewrite Hcalls. subst s1. cbn [calls record_call].
      rewrite <- app_assoc. reflexivity.
    + rewrite length_app in Hbound. cbn [length].
      destruct evs as [| c [| c' evs]]; cbn [length] in *.
      * left. lia.
      * right. lia.
      * right. destruct Hbound as [Hbound | Hbound]; [lia |].
        cbn in Hbound |- *. lia.
Qed.

(** X6: against a service whose pages hold at least [pageSize] hits
    whenever they promise more, one call of [searchPlaces] makes at most
    [1 + (maxResults - 1) / pageSize] requests, however it ends and
    whatever fuel it is given: three requests for the 60 hits that the
    loops ask for when the pages hold 20. *)
Theorem searchPlaces_page_bound (v : Variant) (fuel : nat) (query : string)
    (location : Coordinate) (maxResults pageSize : nat) (env : Env)
    (s : State) :
  0 < pageSize ->
  full_pages pageSize env ->
  length (since s (snd (searchPlaces v fuel query location maxResults env s)))
  <= 1 + (maxResults - 1) / pageSize.
Proof.
  intros Hpos Hfull. unfold searchPlaces.
  destruct (searchPlaces_loop_pages v query location maxResults pageSize env
              Hfull fuel [] None s) as (evs & Hcalls & Hbound).
  rewrite (since_app _ _ evs Hcalls).
  destruct Hbound as [Hone | Hbound]; [lia |].
  cbn [length] in Hbound. rewrite Nat.add_0_r in Hbound.
  assert (length evs - 1 <= (maxResults - 1) / pageSize); [| lia].
  apply Nat.div_le_lower_bound; [lia |]. rewrite Nat.mul_comm. lia.
Qed.

Lemma searchPlaces_page_bound_example :
  let env := services glow_spa two_pages resolves unreachable in
  length (since initial
            (snd (searchPlaces Index 7 "med spa" downtown 3 env initial)))
  <= 1 + (3 - 1) / 2.
Proof.
  intros env.
  apply (searchPlaces_page_bound Index 7 "med spa" downtown 3 2 env initial).
  - lia.
  - intros n q rep Hreply Htoken. destruct n as [| n]; cbn in Hreply;
      injection Hreply as <-; cbn in *; [lia | discriminate].
Defined.

(** ** The requests of a run *)

Lemma traced_bucket (v : Variant) (results : list Place) (newCount : nat) :
  traced (bucket_call v) (bucket v results newCount).
Proof.
  intros env s.
  destruct (bucket_run v results newCount env s)
    as (k & evs & s' & -> & Hcalls & Hevs & Htable & Hcount & _).
  exists evs. auto.
Qed.

Lemma traced_sweep (v : Variant) (fuel : nat) (keyword : string)
    (point : Coordinate) :
  traced (fun c => search_call v keyword point c \/ bucket_call v c)
    (sweep v fuel keyword point).
Proof.
  unfold sweep. apply traced_bind.
  - apply traced_searchPlaces. intros token r. left. cbn. auto.
  - intros results. apply traced_bind; [| intros; apply traced_ret].
    eapply traced_weaken; [| apply traced_bucket]. auto.
Qed.

(** The loops of a run, after the cache is loaded. *)
Lemma traced_loops (v : Variant) (fuel : nat) (cities : list City) :
  traced (loop_call v cities)
    (for_of cities (fun city =>
       for_of (points v city) (fun point =>
         for_of (keywords v) (fun keyword => sweep v fuel keyword point)))).
Proof.
  apply traced_for_of. intros city Hcity.
  apply traced_for_of. intros point Hpoint.
  apply traced_for_of. intros keyword Hkeyword.
  eapply traced_weaken; [| apply traced_sweep].
  intros c [Hc | Hc]; [left | right; exact Hc].
  exists city, point, keyword. auto.
Qed.

(** The two shapes of the main function are one: the third variant
    searches around the one point of each city. *)
Lemma main_loops (v : Variant) (fuel : nat) (cities : list City) (env : Env)
    (s : State) :
  let loops :=
    for_of cities (fun city =>
      for_of (points v city) (fun point =>
        for_of (keywords v) (fun keyword => sweep v fuel keyword point))) in
  main v fuel cities env s
  = match v with
    | Index | Index2 => (loadExistingBusinesses v ;;; loops) env s
    | Part000 =>
        try_catch (loadExistingBusinesses v ;;; loops) (fun _ => ret tt) env s
    end.
Proof.
  destruct v; cbn [main points]; try reflexivity.
  assert (Heq : forall env s,
            for_of cities (fun city =>
              for_of (keywords Part000) (fun keyword =>
                sweep Part000 fuel keyword (coords city))) env s
            = for_of cities (fun city =>
                for_of [coords city] (fun point =>
                  for_of (keywords Part000) (fun keyword =>
                    sweep Part000 fuel keyword point))) env s).
  { clear env s. induction cities as [| city rest IH]; intros env s;
      [reflexivity |].
    cbn [for_of]. unfold bind.
    destruct (for_of (keywords Part000)
                (fun keyword => sweep Part000 fuel keyword (coords city))
                env s) as [[[] | msg |] s1]; cbn [ret]; auto. }
  unfold try_catch, bind.
  destruct (loadExistingBusinesses Part000 env s) as [[[] | msg |] s1];
    try reflexivity.
  rewrite Heq. reflexivity.
Qed.

Lemma loadExistingBusinesses_trace (v : Variant) (env : Env) (s : State) :
  exists s1,
    loadExistingBusinesses v env s = (Ok tt, s1)
    /\ calls s1 = calls s ++ [SheetsGet]
    /\ airtable s1 = airtable s
    /\ searchLog s1 = searchLog s.
Proof.
  unfold loadExistingBusinesses, try_catch, bind, request, no_effect.
  destruct (sheets_values_get env (length (calls s))) as [msg | values];
    cbn [await throw ret].
  - destruct v; eexists; cbn; repeat split; reflexivity.
  - eexists; cbn; repeat split; reflexivity.
Qed.

(** The trace of a run: the read of the sheet, then the requests of the
    loops; the table holds the records whose creation resolved. *)
Lemma run_trace (v : Variant) (env : Env) (fuel : nat) (cities : list City) :
  exists evs,
    calls (snd (run v env fuel cities)) = SheetsGet :: evs
    /\ Forall (loop_call v cities) evs
    /\ airtable (snd (run v env fuel cities)) = created evs
    /\ length (created evs) <= count is_forward evs.
Proof.
  unfold run. rewrite main_loops. cbn zeta.
  set (loops := for_of cities _).
  destruct (loadExistingBusinesses_trace v env initial)
    as (s1 & Hload & Hcalls1 & Htable1 & _).
  destruct (traced_loops v fuel cities env s1)
    as (evs & Hcalls & Hevs & Htable & Hcount).
  fold loops in Hcalls, Htable.
  rewrite Hcalls1 in Hcalls. rewrite Htable1 in Htable. cbn in Hcalls, Htable.
  exists evs.
  assert (Hbody : snd ((loadExistingBusinesses v ;;; loops) env initial)
                  = snd (loops env s1)).
  { unfold bind. rewrite Hload. reflexivity. }
  assert (Hsame : snd (try_catch (loadExistingBusinesses v ;;; loops)
                         (fun _ => ret tt) env initial)
                  = snd (loops env s1)).
  { unfold try_catch, bind. rewrite Hload.
    destruct (loops env s1) as [[[] | msg |] s2]; reflexivity. }
  destruct v; rewrite ?Hbody, ?Hsame; auto.
Qed.

(** X8: in every run, a web page is fetched only by the third variant,
    and only at an address that starts with [https://] and is on none of
    the free platforms; [index.js] and [index2.js] never fetch a page. *)
Theorem run_fetches (v : Variant) (env : Env) (fuel : nat)
    (cities : list City) (u : string) :
  In (HttpGet u) (calls (snd (run v env fuel cities))) ->
  v = Part000
  /\ startsWith u "https://" = true
  /\ existsb (fun p => includes u p) freePlatforms = false.
Proof.
  destruct (run_trace v env fuel cities) as (evs & -> & Hevs & _).
  intros [Habs | Hin]; [discriminate |].
  rewrite List.Forall_forall in Hevs.
  destruct (Hevs _ Hin) as [(city & point & keyword & _ & _ & _ & Hc)
                           | [place [Hc | Hc]]].
  - destruct Hc.
  - discriminate.
  - exact Hc.
Qed.

Lemma run_fetches_example :
  let d := with_website (Some "https://glowspa.example") (rated 25 None) in
  let env := services d (one_page [hit "place-a"]) resolves unreachable in
  let city := {| city_name := "Toronto"; coords := downtown |} in
  In (HttpGet "https://glowspa.example")
    (calls (snd (run Part000 env 1 [city])))
  /\ startsWith "https://glowspa.example" "https://" = true
  /\ existsb (fun p => includes "https://glowspa.example" p) freePlatforms
     = false.
Proof.
  intros d env city.
  assert (Hin : In (HttpGet "https://glowspa.example")
                  (calls (snd (run Part000 env 1 [city])))).
  { vm_compute. auto 10. }
  split; [exact Hin |].
  apply (run_fetches Part000 env 1 [city] "https://glowspa.example" Hin).
Defined.

(** X9: in every run the sheet is read once, before anything else, and
    every search is a search for one of the keywords of the variant,
    around a point of one of the listed cities (a point of its grid in
    [index.js] and [index2.js], its centre in the third variant), with the
    radius of the variant. *)
Theorem run_searches (v : Variant) (env : Env) (fuel : nat)
    (cities : list City) :
  exists evs,
    calls (snd (run v env fuel cities)) = SheetsGet :: evs
    /\ ~ In SheetsGet evs
    /\ forall q reply,
         In (TextSearch q reply) evs ->
         exists city point,
           In city cities /\ In point (points v city)
           /\ In (q_query q) (keywords v)
           /\ q_location q = point
           /\ q_radius q = radius_of v.
Proof.
  destruct (run_trace v env fuel cities) as (evs & Hcalls & Hevs & _).
  exists evs. split; [exact Hcalls |].
  rewrite List.Forall_forall in Hevs. split.
  - intros Hin.
    destruct (Hevs _ Hin) as [(city & point & keyword & _ & _ & _ & Hc)
                             | [place [Hc | Hc]]];
      [destruct Hc | discriminate | destruct Hc].
  - intros q reply Hin.
    destruct (Hevs _ Hin) as [(city & point & keyword & Hcity & Hpoint
                               & Hkeyword & Hq & Hloc & Hradius)
                             | [place [Hc | Hc]]];
      [| discriminate | destruct Hc].
    exists city, point. rewrite Hq. auto.
Qed.

Lemma created_In (P : Call -> Prop) (evs : list Call) (fields : Fields) :
  Forall P evs -> In fields (created evs) ->
  exists reply, P (AirtableCreate fields reply).
Proof.
  induction 1 as [| c evs Hc _ IH]; [intros [] |].
  destruct c as [| | | fields' [msg | u] | | | |]; cbn [created]; auto.
  intros [<- | Hin]; [eauto | auto].
Qed.

(** X11: in every run, the table holds exactly the records whose
    creation resolved, in that order, and no more records than leads were
    handed over; every lead that is handed over, and so every record of
    the table, has the shape the loop gives it: an
    empty lead name, the profile link of the hit's place id and a
    non-empty business name; in [index.js] also a place id, an address, a
    website or a phone number, and one of the three website classes; in
    [index2.js] the class "No Website"; in the third variant no class. *)
Theorem run_leads (v : Variant) (env : Env) (fuel : nat)
    (cities : list City) :
  let s := snd (run v env fuel cities) in
  airtable s = created (calls s)
  /\ length (airtable s) <= count is_forward (calls s)
  /\ (forall p data, In (Forward p data) (calls s) -> lead_shape v p data)
  /\ (forall fields,
        In fields (airtable s) ->
        exists p data, lead_shape v p data /\ fields = fields_of v data).
Proof.
  intros s. subst s.
  destruct (run_trace v env fuel cities) as (evs & -> & Hevs & -> & Hcount).
  split; [reflexivity |]. split; [exact Hcount |]. split.
  - intros p data [Habs | Hin]; [discriminate |].
    rewrite List.Forall_forall in Hevs.
    destruct (Hevs _ Hin) as [(city & point & keyword & _ & _ & _ & Hc)
                             | [place [Hc | Hc]]];
      [destruct Hc | discriminate |].
    destruct Hc as [_ Hshape]. exact Hshape.
  - intros fields Hin.
    destruct (created_In _ _ _ Hevs Hin)
      as [reply [(city & point & keyword & _ & _ & _ & Hc)
                | [place [Hc | Hc]]]];
      [destruct Hc | discriminate |].
    destruct Hc as (data & Hshape & Hfields). eauto.
Qed.

(** ** How a computation ends *)

Section Ends.
Context (Good : State -> Prop) (Bad : string -> State -> Prop).

Lemma ends_ret {A} (a : A) : ends Good Bad (ret a).
Proof. intros env s H. exact H. Qed.

Lemma ends_bind {A B} (m : M A) (k : A -> M B) :
  ends Good Bad m -> (forall a, ends Good Bad (k a)) ->
  ends Good Bad (bind m k).
Proof.
  intros Hm Hk env s H. unfold bind. specialize (Hm env s H).
  destruct (m env s) as [[a | msg |] s1]; [| exact Hm | exact Hm].
  apply Hk. exact Hm.
Qed.

Lemma ends_for_of {A} (xs : list A) (body : A -> M unit) :
  (forall x, ends Good Bad (body x)) -> ends Good Bad (for_of xs body).
Proof.
  intros Hbody. induction xs as [| x xs IH]; cbn [for_of].
  - apply ends_ret.
  - apply ends_bind; [apply Hbody | intros _; exact IH].
Qed.

(** A computation that never throws and keeps the state [Good]. *)
Lemma ends_safe {A} (m : M A) :
  (forall env s msg, fst (m env s) <> Throw msg) ->
  (forall env s, Good s -> Good (snd (m env s))) ->
  ends Good Bad m.
Proof.
  intros Hsafe Hkeeps env s H.
  specialize (Hsafe env s). specialize (Hkeeps env s H).
  destruct (m env s) as [[a | msg |] s1]; cbn [fst snd] in *;
    [exact Hkeeps | | exact Hkeeps].
  destruct (Hsafe msg). reflexivity.
Qed.

End Ends.

Lemma bucket_safe (v : Variant) (results : list Place) (newCount : nat)
    (env : Env) (s : State) (msg : string) :
  fst (bucket v results newCount env s) <> Throw msg.
Proof.
  destruct (bucket_run v results newCount env s) as (k & evs & s' & -> & _).
  discriminate.
Qed.

Lemma loadExistingBusinesses_safe (v : Variant) (env : Env) (s : State)
    (msg : string) :
  fst (loadExistingBusinesses v env s) <> Throw msg.
Proof.
  destruct (loadExistingBusinesses_trace v env s) as (s1 & -> & _).
  discriminate.
Qed.

(** The loops of a run end as their searches and their buckets do. *)
Lemma ends_loops (Good : State -> Prop) (Bad : string -> State -> Prop)
    (v : Variant) (fuel : nat) (cities : list City) :
  (forall keyword point,
     ends Good Bad (searchPlaces v fuel keyword point 60)) ->
  (forall results env s, Good s -> Good (snd (bucket v results 0 env s))) ->
  ends Good Bad
    (for_of cities (fun city =>
       for_of (points v city) (fun point =>
         for_of (keywords v) (fun keyword => sweep v fuel keyword point)))).
Proof.
  intros Hsearch Hbucket.
  apply ends_for_of. intros city. apply ends_for_of. intros point.
  apply ends_for_of. intros keyword. unfold sweep.
  apply ends_bind; [apply Hsearch |]. intros results.
  apply ends_bind; [| intros; apply ends_ret].
  apply ends_safe; [intros; apply bucket_safe | apply Hbucket].
Qed.

(** ** A search that fails *)

Lemma bucket_call_unfailed (v : Variant) (evs : list Call) :
  Forall (bucket_call v) evs -> count (failed_search v) evs = 0.
Proof.
  induction 1 as [| c evs Hc _ IH]; [reflexivity |].
  unfold count in *. destruct c; cbn; try exact IH.
  destruct Hc as [place [Hc | Hc]]; [discriminate | destruct Hc].
Qed.

Lemma ends_searchPlaces (v : Variant) (fuel : nat) (query : string)
    (location : Coordinate) (maxResults : nat) :
  ends (unfailed v) (just_failed v)
    (searchPlaces v fuel query location maxResults).
Proof.
  unfold searchPlaces. generalize (@nil Place) (@None string).
  induction fuel as [| fuel IH]; intros allResults nextPageToken env s Hs.
  - exact Hs.
  - rewrite searchPlaces_loop_turn. cbn zeta.
    set (q := page_query v query location nextPageToken).
    set (reply := places_textsearch env (length (calls s)) q).
    assert (Hfailed : forall msg,
              search_failure v reply = Some msg ->
              just_failed v msg (record_call (TextSearch q reply) s)).
    { intros msg Hmsg. exists (calls s), q, reply. auto. }
    assert (Hfine : search_failure v reply = None ->
                    unfailed v (record_call (TextSearch q reply) s)).
    { intros Hnone. unfold unfailed. cbn [calls record_call].
      rewrite count_app, Hs. unfold count. cbn. rewrite Hnone. reflexivity. }
    destruct reply as [msg | res] eqn:Hreply; [apply Hfailed; reflexivity |].
    cbn [search_failure] in Hfailed, Hfine.
    destruct (checks_error v && truthy (error_message res));
      [apply Hfailed; reflexivity |].
    specialize (Hfine eq_refl).
    destruct (more maxResults allResults res); [| exact Hfine].
    apply IH. exact Hfine.
Qed.

Lemma ends_run_loops (v : Variant) (fuel : nat) (cities : list City) :
  ends (unfailed v) (just_failed v)
    (loadExistingBusinesses v ;;;
     for_of cities (fun city =>
       for_of (points v city) (fun point =>
         for_of (keywords v) (fun keyword => sweep v fuel keyword point)))).
Proof.
  apply ends_bind.
  - apply ends_safe; [intros; apply loadExistingBusinesses_safe |].
    intros env s Hs.
    destruct (loadExistingBusinesses_trace v env s) as (s1 & -> & Hcalls & _).
    unfold unfailed. cbn [snd]. rewrite Hcalls, count_app, Hs. reflexivity.
  - intros _. apply ends_loops; [intros; apply ends_searchPlaces |].
    intros results env s Hs.
    destruct (bucket_run v results 0 env s)
      as (k & evs & s' & -> & Hcalls & Hevs & _).
    unfold unfailed. cbn [snd].
    rewrite Hcalls, count_app, Hs, (bucket_call_unfailed v evs Hevs).
    reflexivity.
Qed.

Lemma count_last (kind : Call -> bool) (pre0 pre post : list Call)
    (c0 c : Call) :
  count kind pre0 = 0 -> kind c = true ->
  pre0 ++ [c0] = pre ++ c :: post ->
  post = [] /\ c = c0.
Proof.
  intros Hpre Hkind Heq.
  destruct post as [| x post] using rev_ind.
  - apply app_inj_tail in Heq as [_ Heq]. auto.
  - clear IHpost.
    change (pre ++ c :: post ++ [x]) with (pre ++ (c :: post) ++ [x]) in Heq.
    rewrite app_assoc in Heq. apply app_inj_tail in Heq as [-> _].
    rewrite count_app in Hpre. unfold count in Hpre. cbn in Hpre.
    rewrite Hkind in Hpre. cbn in Hpre. lia.
Qed.

(** X7: a search that fails (its request is rejected or, in the third
    variant, its reply carries an error payload) is the last thing a run
    does: no request follows it, so the cities and keywords that were
    still to come are not searched.  [index.js] and [index2.js] end with
    the error of the search; the third variant catches it and ends
    normally.  A run throws only in this way. *)
Theorem failed_search_ends_the_run (v : Variant) (env : Env) (fuel : nat)
    (cities : list City) :
  let r := run v env fuel cities in
  (forall pre q reply post msg,
     calls (snd r) = pre ++ TextSearch q reply :: post ->
     search_failure v reply = Some msg ->
     post = []
     /\ fst r = match v with
               | Part000 => Ok tt
               | Index | Index2 => Throw msg
               end)
  /\ (forall msg,
        fst r = Throw msg ->
        v <> Part000
        /\ exists q, last (calls (snd r)) = Some (TextSearch q (inl msg))).
Proof.
  intros r. subst r. unfold run. rewrite main_loops. cbn zeta.
  set (body := loadExistingBusinesses v ;;; for_of cities _).
  pose proof (ends_run_loops v fuel cities env initial eq_refl) as Hends.
  fold body in Hends.
  assert (Hcalls : snd (try_catch body (fun _ => ret tt) env initial)
                   = snd (body env initial)).
  { unfold try_catch. destruct (body env initial) as [[[] | msg |] s'];
      reflexivity. }
  assert (Hclean : forall pre q reply post msg,
            calls (snd (body env initial)) = pre ++ TextSearch q reply :: post ->
            search_failure v reply = Some msg ->
            post = [] /\ fst (body env initial) = Throw msg).
  { intros pre q reply post msg Heq Hmsg.
    assert (Hkind : failed_search v (TextSearch q reply) = true).
    { cbn. rewrite Hmsg. reflexivity. }
    destruct (body env initial) as [[[] | msg0 |] s']; cbn [fst snd] in *.
    - unfold unfailed in Hends. rewrite Heq, count_app in Hends.
      unfold count in Hends. cbn [List.filter] in Hends.
      rewrite Hkind in Hends. cbn in Hends. lia.
    - destruct Hends as (pre0 & q0 & reply0 & Hcalls0 & Hpre0 & Hmsg0).
      rewrite Hcalls0 in Heq.
      destruct (count_last _ _ _ _ _ _ Hpre0 Hkind Heq) as [-> Hc].
      injection Hc as -> ->. split; [reflexivity |]. congruence.
    - unfold unfailed in Hends. rewrite Heq, count_app in Hends.
      unfold count in Hends. cbn [List.filter] in Hends.
      rewrite Hkind in Hends. cbn in Hends. lia. }
  split.
  - intros pre q reply post msg Heq Hmsg.
    destruct v; try exact (Hclean pre q reply post msg Heq Hmsg).
    rewrite Hcalls in Heq.
    destruct (Hclean pre q reply post msg Heq Hmsg) as [Hpost Hthrow].
    split; [exact Hpost |]. unfold try_catch.
    destruct (body env initial) as [[[] | msg0 |] s']; cbn in Hthrow;
      try discriminate. reflexivity.
  - intros msg Hthrow.
    assert (Hv : v <> Part000).
    { intros ->. unfold try_catch in Hthrow.
      destruct (body env initial) as [[[] | msg0 |] s']; discriminate. }
    split; [exact Hv |].
    assert (Hbody : fst (body env initial) = Throw msg)
      by (destruct v; [exact Hthrow | exact Hthrow | contradiction]).
    assert (Hsnd : snd (match v with
                        | Part000 => try_catch body (fun _ => ret tt) env initial
                        | Index | Index2 => body env initial
                        end) = snd (body env initial))
      by (destruct v; [reflexivity | reflexivity | contradiction]).
    rewrite Hsnd.
    destruct (body env initial) as [[[] | msg0 |] s']; cbn [fst snd] in *;
      try discriminate.
    injection Hbody as ->.
    destruct Hends as (pre0 & q0 & reply0 & -> & _ & Hmsg0).
    exists q0. rewrite last_snoc. f_equal. f_equal.
    destruct reply0 as [msg0 | rep]; cbn in Hmsg0; [congruence |].
    destruct v; cbn in Hmsg0; try discriminate. contradiction.
Qed.

(** ** The search log of [index.js] *)

Lemma ends_keeps (Good : State -> Prop) {A} (m : M A) :
  (forall env s, Good s -> Good (snd (m env s))) ->
  ends Good (fun _ => Good) m.
Proof.
  intros Hkeeps env s H. specialize (Hkeeps env s H).
  destruct (m env s) as [[a | msg |] s1]; exact Hkeeps.
Qed.

Lemma ends_kept (Good : State -> Prop) {A} (m : M A) (env : Env) (s : State) :
  ends Good (fun _ => Good) m -> Good s -> Good (snd (m env s)).
Proof.
  intros Hm H. specialize (Hm env s H).
  destruct (m env s) as [[a | msg |] s1]; exact Hm.
Qed.

Lemma leads_only_benign (tr evs : list Call) :
  leads_only tr -> forallb benign evs = true -> leads_only (tr ++ evs).
Proof.
  intros Htr Hevs p. rewrite !count_app.
  rewrite (count_benign (append_of p) evs), (count_benign (forward_of p) evs);
    [specialize (Htr p); lia | | | |]; try exact Hevs;
    intros c Hc; destruct c; try reflexivity; discriminate.
Qed.

Lemma leads_only_quiet (s s' : State) :
  leads_only (calls s) -> quiet s s' -> leads_only (calls s').
Proof.
  intros Hs (_ & _ & evs & -> & Hevs). apply leads_only_benign; assumption.
Qed.

(** The body of the loop of [index.js] appends a row only for the lead
    it has just handed over. *)
Lemma processPlace_index_leads_only (place : Place) (newCount : nat)
    (env : Env) (s : State) :
  leads_only (calls s) ->
  leads_only (calls (snd (processPlace Index place newCount env s))).
Proof.
  intros Hs.
  assert (Hskip : leads_only
                    (calls (record_call (PlaceDetails (place_id place)) s))).
  { apply (leads_only_quiet s); [exact Hs |].
    apply quiet_record_call. reflexivity. }
  destruct (decide (place_id place ∈ existingPlaceIds s)) as [Hin | Hnot].
  { rewrite (processPlace_cached Index place newCount env s Hin).
    exact Hskip. }
  cbn [processPlace].
  destruct (complete_index
              (details_at Index env (length (calls s)) (place_id place))
              place) eqn:Hcomplete.
  2: { rewrite (processPlace_index_incomplete place newCount env s Hcomplete).
       exact Hskip. }
  destruct (admit_index
              (details_at Index env (length (calls s)) (place_id place)))
    eqn:Hadmit.
  2: { rewrite (processPlace_index_rejected place newCount env s Hnot
                  Hcomplete Hadmit). exact Hskip. }
  destruct (processPlace_index_fresh place newCount env s Hnot Hcomplete
              Hadmit) as (s' & -> & Honce & evs & Hsince & _).
  cbn [snd].
  destruct Honce as (evs0 & row & reply & Hcalls & Hcalm & _ & Hrow & _).
  rewrite (since_app s s' _ Hcalls) in Hsince.
  intros p. rewrite Hcalls, !(count_app _ (calls s)).
  assert (Ha : count (append_of p) (evs0 ++ [SheetsAppend row reply])
               = if bool_decide (place_id place = p) then 1 else 0).
  { rewrite count_app, (count_calm_append (place_id place) p evs0 Hcalm).
    unfold count. cbn [List.filter append_of]. rewrite Hrow.
    destruct (bool_decide (place_id place = p)); reflexivity. }
  assert (Hf : (if bool_decide (place_id place = p) then 1 else 0)
               <= count (forward_of p) (evs0 ++ [SheetsAppend row reply])).
  { rewrite Hsince. unfold count. cbn [List.filter is_details forward_of].
    destruct (bool_decide (place_id place = p)); cbn [length]; lia. }
  specialize (Hs p). lia.
Qed.

Lemma bucket_index_leads_only (results : list Place) :
  forall (newCount : nat) (env : Env) (s : State),
    leads_only (calls s) ->
    leads_only (calls (snd (bucket Index results newCount env s))).
Proof.
  induction results as [| place rest IH]; intros newCount env s Hs;
    cbn [bucket]; [exact Hs |].
  destruct (NEW_RESULTS_LIMIT Index <=? newCount); [exact Hs |].
  unfold bind.
  pose proof (processPlace_index_leads_only place newCount env s Hs) as Hhit.
  destruct (processPlace_counts Index place newCount env s) as (s1 & Hrun & _).
  rewrite Hrun in Hhit |- *. apply IH. exact Hhit.
Qed.

Lemma appended_count (tr : list Call) (row : Row) :
  In row (appended tr) -> 0 < count (append_of (row_placeId row)) tr.
Proof.
  unfold count.
  induction tr as [| c tr IH]; [intros [] |].
  destruct c as [| row' [msg | u] | | | | | |]; cbn [appended List.filter];
    try exact IH.
  - intros Hin. specialize (IH Hin).
    destruct (append_of (row_placeId row) (SheetsAppend row' (inl msg)));
      cbn [length]; lia.
  - intros [-> | Hin].
    + cbn [append_of]. rewrite bool_decide_eq_true_2 by reflexivity.
      cbn [length]. lia.
    + specialize (IH Hin).
      destruct (append_of (row_placeId row) (SheetsAppend row' (inr u)));
        cbn [length]; lia.
Qed.

Lemma forward_of_In (p : JsStr) (tr : list Call) :
  0 < count (forward_of p) tr -> exists data, In (Forward p data) tr.
Proof.
  unfold count.
  induction tr as [| c tr IH]; cbn [List.filter length]; [lia |].
  destruct (forward_of p c) eqn:Hc.
  - intros _. destruct c; try discriminate. cbn in Hc.
    apply bool_decide_eq_true_1 in Hc as ->. exists data. left. reflexivity.
  - intros H. destruct (IH H) as [data Hin]. exists data. right. exact Hin.
Qed.

(** X14: in every run of [index.js] the sheet is written to only for
    leads: for each place id there are as many appends as hand-overs, and
    every row of the search log carries the id of a lead that was handed
    over in that run. *)
Theorem index_logs_only_leads (env : Env) (fuel : nat) (cities : list City) :
  let s := snd (run Index env fuel cities) in
  (forall p, count (append_of p) (calls s) = count (forward_of p) (calls s))
  /\ (forall row,
        In row (searchLog s) ->
        exists data, In (Forward (row_placeId row) data) (calls s)).
Proof.
  intros s.
  assert (Hle : leads_only (calls s)).
  { subst s. unfold run. rewrite main_loops. cbn zeta.
    apply (ends_kept (fun s => leads_only (calls s))).
    2: { intros p. cbn. lia. }
    apply ends_bind.
    - apply ends_keeps. intros env' s' Hs'.
      destruct (loadExistingBusinesses_trace Index env' s')
        as (s1 & -> & Hcalls1 & _).
      cbn [snd]. rewrite Hcalls1.
      apply leads_only_benign; [exact Hs' | reflexivity].
    - intros _. apply ends_loops.
      + intros keyword point. apply ends_keeps. intros env' s' Hs'.
        apply (leads_only_quiet s'); [exact Hs' |].
        apply quietly_searchPlaces.
      + intros results env' s' Hs'. apply bucket_index_leads_only.
        exact Hs'. }
  pose proof (run_Inv Index env fuel cities) as Hinv. fold s in Hinv.
  split.
  - intros p. pose proof (inv_balance _ _ Hinv p). specialize (Hle p). lia.
  - intros row Hin. rewrite (inv_log _ _ Hinv) in Hin.
    apply forward_of_In.
    pose proof (appended_count _ _ Hin). specialize (Hle (row_placeId row)).
    lia.
Qed.

(** ** The plan of a run *)

Lemma first_pages_app (tr1 tr2 : list Call) :
  first_pages (tr1 ++ tr2) = first_pages tr1 ++ first_pages tr2.
Proof.
  induction tr1 as [| c tr1 IH]; [reflexivity |].
  destruct c; cbn; try exact IH.
  destruct (q_pagetoken q); cbn; rewrite IH; reflexivity.
Qed.

Lemma bucket_call_first_pages (v : Variant) (evs : list Call) :
  Forall (bucket_call v) evs -> first_pages evs = [].
Proof.
  induction 1 as [| c evs Hc _ IH]; [reflexivity |].
  destruct c; cbn; try exact IH.
  destruct Hc as [place [Hc | Hc]]; [discriminate | destruct Hc].
Qed.

Lemma visits_bind (env : Env) (qs1 qs2 : list SearchQuery) (m k : M unit) :
  visits env qs1 m -> visits env qs2 k ->
  visits env (qs1 ++ qs2) (m ;;; k).
Proof.
  intros Hm Hk s. destruct (Hm s) as (s1 & evs1 & Hrun1 & Hcalls1 & Hqs1).
  destruct (Hk s1) as (s2 & evs2 & Hrun2 & Hcalls2 & Hqs2).
  exists s2, (evs1 ++ evs2). unfold bind. rewrite Hrun1, Hrun2.
  split; [reflexivity |]. split.
  - rewrite Hcalls2, Hcalls1, app_assoc. reflexivity.
  - rewrite first_pages_app, Hqs1, Hqs2. reflexivity.
Qed.

Lemma visits_for_of {A} (env : Env) (f : A -> list SearchQuery)
    (xs : list A) (body : A -> M unit) :
  (forall x, visits env (f x) (body x)) ->
  visits env (flat_map f xs) (for_of xs body).
Proof.
  intros Hbody. induction xs as [| x xs IH]; cbn [for_of flat_map].
  - intros s. exists s, []. rewrite app_nil_r. auto.
  - apply visits_bind; [apply Hbody | exact IH].
Qed.

Lemma flat_map_single {A B} (f : A -> B) (xs : list A) :
  flat_map (fun x => [f x]) xs = map f xs.
Proof. induction xs as [| x xs IH]; cbn; [| rewrite IH]; reflexivity. Qed.

(** When no search fails, the loop of [searchPlaces] does not throw, and
    it asks for a first page exactly when it starts without a token. *)
Lemma searchPlaces_loop_first_pages (v : Variant) (query : string)
    (location : Coordinate) (maxResults : nat) (env : Env) :
  searches_succeed v env ->
  forall (fuel : nat) (allResults : list Place) (nextPageToken : JsStr)
         (s : State),
    exists evs,
      calls (snd (searchPlaces_loop v fuel query location maxResults
                    allResults nextPageToken env s))
      = calls s ++ evs
      /\ (forall msg,
            fst (searchPlaces_loop v fuel query location maxResults
                   allResults nextPageToken env s) <> Throw msg)
      /\ first_pages evs
         = match fuel with
           | O => []
           | S _ =>
               if truthy nextPageToken then []
               else [page_query v query location nextPageToken]
           end.
Proof.
  intros Hok.
  induction fuel as [| fuel IH]; intros allResults nextPageToken s.
  - exists []. cbn. rewrite app_nil_r.
    split; [reflexivity |]. split; [discriminate | reflexivity].
  - rewrite searchPlaces_loop_turn. cbn zeta.
    set (q := page_query v query location nextPageToken).
    pose proof (Hok (length (calls s)) q) as Hreply.
    set (reply := places_textsearch env (length (calls s)) q) in *.
    assert (Hfirst : first_pages [TextSearch q reply]
                     = if truthy nextPageToken then []
                       else [page_query v query location nextPageToken]).
    { cbn. subst q. cbn.
      destruct (truthy nextPageToken) eqn:Htoken; [| reflexivity].
      destruct nextPageToken; [reflexivity | discriminate]. }
    destruct reply as [msg | res]; [discriminate |].
    cbn [search_failure] in Hreply.
    destruct (checks_error v && truthy (error_message res)); [discriminate |].
    destruct (more maxResults allResults res) eqn:Hmore.
    + destruct (IH (allResults ++ page_results res) (next_page_token res)
                  (record_call (TextSearch q (inr res)) s))
        as (evs & Hcalls & Hsafe & Hpages).
      exists (TextSearch q (inr res) :: evs). split; [| split].
      * rewrite Hcalls. cbn [calls record_call]. rewrite <- app_assoc.
        reflexivity.
      * exact Hsafe.
      * change (TextSearch q (inr res) :: evs)
          with ([TextSearch q (inr res)] ++ evs).
        rewrite first_pages_app, Hfirst, Hpages.
        unfold more in Hmore. apply andb_true_iff in Hmore as [-> _].
        destruct fuel; rewrite app_nil_r; reflexivity.
    + exists [TextSearch q (inr res)]. split; [reflexivity |].
      split; [discriminate | exact Hfirst].
Qed.

Lemma visits_sweep (v : Variant) (fuel : nat) (keyword : string)
    (point : Coordinate) (env : Env) :
  searches_succeed v env -> productive env -> 60 < fuel ->
  visits env [page_query v keyword point None] (sweep v fuel keyword point).
Proof.
  intros Hok Hproductive Hfuel s. unfold sweep, searchPlaces.
  destruct (searchPlaces_loop_first_pages v keyword point 60 env Hok fuel []
              None s) as (evs & Hcalls & Hsafe & Hpages).
  pose proof (searchPlaces_loop_ends v keyword point 60 env Hproductive fuel
                [] None s) as Hends.
  cbn [length] in Hends. specialize (Hends ltac:(lia)).
  unfold bind.
  destruct (searchPlaces_loop v fuel keyword point 60 [] None env s)
    as [[hits | msg |] s1]; cbn [fst snd] in *;
    [| destruct (Hsafe msg); reflexivity | contradiction].
  destruct (bucket_run v hits 0 env s1)
    as (k & evs' & s' & -> & Hcalls' & Hevs' & _).
  exists s', (evs ++ evs'). split; [reflexivity |]. split.
  - rewrite Hcalls', Hcalls, app_assoc. reflexivity.
  - rewrite first_pages_app, Hpages, (bucket_call_first_pages v evs' Hevs').
    destruct fuel; [lia | reflexivity].
Qed.

(** X10: when no search fails, the service never sends an empty page
    with a token, and the fuel exceeds the 60 hits a search asks for, a
    run ends normally and has searched every bucket of its plan, in the
    order of the plan: for each listed city, for each of its points, for
    each keyword of the variant, one first page. *)
Theorem run_follows_plan (v : Variant) (env : Env) (fuel : nat)
    (cities : list City) :
  searches_succeed v env -> productive env -> 60 < fuel ->
  fst (run v env fuel cities) = Ok tt
  /\ first_pages (calls (snd (run v env fuel cities))) = plan v cities.
Proof.
  intros Hok Hproductive Hfuel. unfold run. rewrite main_loops. cbn zeta.
  set (loops := for_of cities _).
  assert (Hloops : visits env (plan v cities) loops).
  { apply visits_for_of. intros city. apply visits_for_of. intros point.
    rewrite <- flat_map_single. apply visits_for_of. intros keyword.
    apply visits_sweep; assumption. }
  destruct (loadExistingBusinesses_trace v env initial)
    as (s1 & Hload & Hcalls1 & _).
  destruct (Hloops s1) as (s' & evs & Hrun & Hcalls & Hpages).
  assert (Hbody : (loadExistingBusinesses v ;;; loops) env initial
                  = (Ok tt, s')).
  { unfold bind. rewrite Hload. exact Hrun. }
  assert (Hmain : match v with
                  | Part000 =>
                      try_catch (loadExistingBusinesses v ;;; loops)
                        (fun _ => ret tt) env initial
                  | Index | Index2 =>
                      (loadExistingBusinesses v ;;; loops) env initial
                  end = (Ok tt, s')).
  { destruct v; try exact Hbody. unfold try_catch. rewrite Hbody.
    reflexivity. }
  rewrite Hmain. cbn [fst snd]. split; [reflexivity |].
  rewrite Hcalls, Hcalls1, first_pages_app, first_pages_app, Hpages.
  reflexivity.
Qed.

Lemma run_follows_plan_example :
  let env := services glow_spa two_pages resolves unreachable in
  let city := {| city_name := "Toronto"; coords := downtown |} in
  fst (run Index2 env 61 [city]) = Ok tt
  /\ first_pages (calls (snd (run Index2 env 61 [city])))
     = plan Index2 [city].
Proof.
  intros env city.
  apply (run_follows_plan Index2 env 61 [city]).
  - intros n q. destruct n; reflexivity.
  - intros n q rep Hreply Htoken. destruct n as [| n]; cbn in Hreply;
      injection Hreply as <-; cbn in *; [discriminate | discriminate].
  - lia.
Defined.

(** ** The cost of a bucket *)

Lemma search_call_counts (v : Variant) (query : string)
    (location : Coordinate) (evs : list Call) :
  Forall (search_call v query location) evs ->
  List.filter is_details evs = [] /\ count is_forward evs = 0.
Proof.
  unfold count.
  induction 1 as [| c evs Hc _ IH]; [split; reflexivity |].
  destruct c; cbn in *; try contradiction. exact IH.
Qed.

Lemma searchPlaces_length (v : Variant) (fuel : nat) (query : string)
    (location : Coordinate) (maxResults : nat) (env : Env) (s s' : State)
    (hits : list Place) :
  searchPlaces v fuel query location maxResults env s = (Ok hits, s') ->
  length hits <= maxResults.
Proof.
  intros Hrun.
  destruct (searchPlaces_loop_returns v fuel query location maxResults [] None
              env s s' hits Hrun) as (reqs & _ & _ & -> & _).
  apply firstn_le_length.
Qed.

(** X13: one bucket (a keyword searched around a point) enriches only
    hits that its search returned, a prefix of them in their order, so
    that it makes at most 60 details requests, and none when the search
    did not return; and it hands over at most as many leads as the cap of
    the variant allows. *)
Theorem sweep_budget (v : Variant) (fuel : nat) (keyword : string)
    (point : Coordinate) (env : Env) (s : State) :
  let s' := snd (sweep v fuel keyword point env s) in
  match fst (searchPlaces v fuel keyword point 60 env s) with
  | Ok hits =>
      exists k,
        List.filter is_details (since s s')
        = map (fun place => PlaceDetails (place_id place)) (take k hits)
  | _ => List.filter is_details (since s s') = []
  end
  /\ count is_details (since s s') <= 60
  /\ count is_forward (since s s') <= NEW_RESULTS_LIMIT v.
Proof.
  intros s'. subst s'. unfold sweep, bind.
  destruct (traced_searchPlaces (search_call v keyword point) v fuel keyword
              point 60) with (env := env) (s := s)
    as (evs1 & Hcalls1 & Hevs1 & _).
  { intros token r. cbn. auto. }
  destruct (search_call_counts v keyword point evs1 Hevs1)
    as [Hdetails1 Hforward1].
  pose proof (searchPlaces_length v fuel keyword point 60 env s) as Hlength.
  destruct (searchPlaces v fuel keyword point 60 env s)
    as [[hits | msg |] s1]; cbn [fst snd] in *.
  - destruct (bucket_run v hits 0 env s1)
      as (k & evs & s2 & -> & Hcalls & _ & _ & _ & Hk & Hdetails & _
          & Hcapped).
    unfold ret. cbn [snd]. rewrite Hcalls1, <- app_assoc in Hcalls.
    rewrite (since_app s s2 _ Hcalls).
    assert (Hfilter : List.filter is_details (evs1 ++ evs)
                      = map (fun place => PlaceDetails (place_id place))
                          (take k hits)).
    { rewrite List.filter_app, Hdetails1, Hdetails. reflexivity. }
    split; [exists k; exact Hfilter |]. split.
    + unfold count. rewrite Hfilter, length_map.
      pose proof (firstn_le_length k hits).
      specialize (Hlength s1 hits eq_refl). lia.
    + rewrite count_app, Hforward1. cbn in Hcapped |- *. apply Hcapped. lia.
  - rewrite (since_app s s1 _ Hcalls1). unfold count.
    rewrite Hdetails1. fold (count is_forward evs1). rewrite Hforward1.
    cbn. repeat split; lia.
  - rewrite (since_app s s1 _ Hcalls1). unfold count.
    rewrite Hdetails1. fold (count is_forward evs1). rewrite Hforward1.
    cbn. repeat split; lia.
Qed.

(** ** What the sheet lists when a run starts *)

Lemma loadExistingBusinesses_listed (v : Variant) (env : Env)
    (rows : list (list string)) (row : list string) (id : string) :
  sheets_values_get env 0 = inr (Some rows) ->
  In row rows -> In id row -> id <> EmptyString ->
  Some id ∈ existingPlaceIds (snd (loadExistingBusinesses v env initial)).
Proof.
  intros Hreply Hrow Hid Hne.
  unfold loadExistingBusinesses, try_catch, bind, request, no_effect.
  cbn [calls initial length]. rewrite Hreply. cbn.
  unfold placeIds_of.
  rewrite elem_of_list_to_set, list_elem_of_filter, list_elem_of_In,
    in_map_iff.
  split.
  - cbn. apply negb_true_iff. apply String.eqb_neq. exact Hne.
  - exists id. split; [reflexivity |]. apply in_concat. exists row. auto.
Qed.

(** X15: a place id that the sheet lists when the run starts (a
    non-empty cell of the reply to the read of column D) is skipped for
    the whole run: no lead is handed over for it, and no row with it is
    added to the search log. *)
Theorem listed_ids_are_skipped (v : Variant) (env : Env) (fuel : nat)
    (cities : list City) (rows : list (list string)) (row : list string)
    (id : string) :
  sheets_values_get env 0 = inr (Some rows) ->
  In row rows -> In id row -> id <> EmptyString ->
  let s := snd (run v env fuel cities) in
  (forall data, ~ In (Forward (Some id) data) (calls s))
  /\ (forall logged, In logged (searchLog s) -> row_placeId logged <> Some id).
Proof.
  intros Hreply Hrow Hid Hne s.
  pose proof (loadExistingBusinesses_listed v env rows row id Hreply Hrow Hid
                Hne) as Hlisted.
  pose proof (run_Inv v env fuel cities) as Hinv. fold s in Hinv.
  set (loaded := existingPlaceIds (snd (loadExistingBusinesses v env initial)))
    in *.
  split.
  - intros data Hin. apply in_split in Hin as (pre & post & Hcalls).
    apply (guarded_split loaded (calls s) pre post (Some id) data
             (inv_guarded _ _ Hinv) Hcalls).
    unfold cache_after. apply elem_of_union_l. exact Hlisted.
  - intros logged Hin Heq. rewrite (inv_log _ _ Hinv) in Hin.
    apply list_elem_of_In in Hin.
    apply (inv_fresh _ _ Hinv logged Hin). rewrite Heq. exact Hlisted.
Qed.

Lemma listed_ids_are_skipped_example :
  let env := services (with_website None (rated 25 None))
               (one_page [hit "place-a"; hit "seen-1"]) resolves
               unreachable in
  let city := {| city_name := "Toronto"; coords := downtown |} in
  let s := snd (run Index2 env 1 [city]) in
  (forall data, ~ In (Forward (Some "seen-1") data) (calls s))
  /\ (forall logged,
        In logged (searchLog s) -> row_placeId logged <> Some "seen-1").
Proof.
  intros env city.
  apply (listed_ids_are_skipped Index2 env 1 [city] [["seen-1"]; ["seen-2"]]
           ["seen-1"] "seen-1").
  - reflexivity.
  - left. reflexivity.
  - left. reflexivity.
  - discriminate.
Defined.
